(** * Swish: PIDL wrapper types (swish/shell_folder/Pidl.h) and StorageMedium

    A shallow embedding of the raw PIDL algorithms ([raw_pidl::size], [next],
    [skip], [clone], [combine]), of the two allocators, of the owning wrapper
    [basic_pidl] with [operator+], [operator+=] and [swap], and of the
    assignment and the accessors of [StorageMedium], with the properties the
    specification states about them and further properties of the
    interface.

    Memory is a finite map from block identifiers to byte sequences; a pointer
    is null or a block together with a byte offset.  C++ functions that touch
    memory or may throw are functions in the monad [M]: they take the machine
    state and give back an [outcome] and the state at that point. *)

From stdpp Require Import gmap list numbers option.
From Stdlib Require Import ZArith Lia.
From Stdlib.Strings Require Import Byte.

Open Scope Z_scope.

(** ** The compilation target *)

(** [size_t] is an unsigned integer of [size_t_bits] bits; [assert] is
    compiled out when [NDEBUG] is set.  [return_elided] tells whether the
    compiler constructs a returned local directly in the caller's object
    (the named return value optimisation) or copy-constructs the result. *)
Class Target := {
  size_t_bits : Z;
  size_t_bits_ge : 32 <= size_t_bits;
  NDEBUG : bool;
  return_elided : bool
}.

Lemma win32_bits : 32 <= 32.
Proof. lia. Qed.

Lemma win64_bits : 32 <= 64.
Proof. lia. Qed.

Definition Win32_debug : Target :=
  {| size_t_bits := 32; size_t_bits_ge := win32_bits;
     NDEBUG := false; return_elided := false |}.

Definition Win32_release : Target :=
  {| size_t_bits := 32; size_t_bits_ge := win32_bits;
     NDEBUG := true; return_elided := true |}.

Definition Win64_release : Target :=
  {| size_t_bits := 64; size_t_bits_ge := win64_bits;
     NDEBUG := true; return_elided := true |}.

Section SizeT.
Context `{Target}.

Definition size_t_mod : Z := 2 ^ size_t_bits.

(** The largest size of one object: [PTRDIFF_MAX]. *)
Definition PTRDIFF_MAX : Z := 2 ^ (size_t_bits - 1) - 1.

(** [a + b] and [a - b] on [size_t]. *)
Definition size_t_add (a b : Z) : Z := (a + b) mod size_t_mod.
Definition size_t_sub (a b : Z) : Z := (a - b) mod size_t_mod.

Lemma size_t_mod_pos : 0 < size_t_mod.
Proof.
  unfold size_t_mod. pose proof size_t_bits_ge. apply Z.pow_pos_nonneg; lia.
Qed.

Lemma size_t_mod_double : size_t_mod = 2 * (PTRDIFF_MAX + 1).
Proof.
  unfold size_t_mod, PTRDIFF_MAX. pose proof size_t_bits_ge.
  replace (2 ^ (size_t_bits - 1) - 1 + 1) with (2 ^ (size_t_bits - 1)) by lia.
  rewrite <- Z.pow_succ_r by lia. f_equal. lia.
Qed.

Lemma PTRDIFF_MAX_big : 65536 <= PTRDIFF_MAX.
Proof.
  unfold PTRDIFF_MAX. pose proof size_t_bits_ge.
  assert (2 ^ 31 <= 2 ^ (size_t_bits - 1)) by (apply Z.pow_le_mono_r; lia).
  change (2 ^ 31) with 2147483648 in *. lia.
Qed.

Lemma size_t_add_small a b :
  0 <= a -> 0 <= b -> a + b < size_t_mod -> size_t_add a b = a + b.
Proof. intros. unfold size_t_add. apply Z.mod_small. lia. Qed.

Lemma size_t_sub_small a b :
  0 <= b <= a -> a < size_t_mod -> size_t_sub a b = a - b.
Proof. intros. unfold size_t_sub. apply Z.mod_small. lia. Qed.
End SizeT.

(** ** Memory *)

Definition block := positive.
Definition loc := positive.

(** A [T*]: null, or an address [off] bytes into block [b]. *)
Inductive pointer :=
| NULL
| Ptr (b : block) (off : Z).

Global Instance pointer_eq_dec : EqDecision pointer.
Proof. solve_decision. Defined.

Definition is_null (p : pointer) : bool :=
  match p with NULL => true | Ptr _ _ => false end.

(** The pool a block was obtained from: the C++ free store
    ([new BYTE[n]] / [delete []]) or the COM task allocator
    ([CoTaskMemAlloc] / [CoTaskMemFree]). *)
Inductive pool := free_store | com_task_memory.

Global Instance pool_eq_dec : EqDecision pool.
Proof. solve_decision. Defined.

(** The machine state: the live allocations, the number of bytes the pools
    can still hand out, and the [m_pidl] field of every live wrapper
    object. *)
Record state := State {
  heap : gmap block (pool * list byte);
  avail : Z;
  objs : gmap loc pointer
}.

Definition set_heap (h : gmap block (pool * list byte)) (s : state) : state :=
  {| heap := h; avail := avail s; objs := objs s |}.

Definition set_objs (o : gmap loc pointer) (s : state) : state :=
  {| heap := heap s; avail := avail s; objs := o |}.

(** ** Outcomes and the monad *)

Inductive outcome (A : Type) :=
| Ret (a : A)     (* normal completion with a value *)
| Throw           (* std::bad_alloc is propagating *)
| Abort           (* a failed assert, or std::terminate *)
| Undef           (* undefined behaviour *)
| Timeout.        (* the recursion budget of the model ran out *)
Arguments Ret {A} a.
Arguments Throw {A}.
Arguments Abort {A}.
Arguments Undef {A}.
Arguments Timeout {A}.

Definition M (A : Type) : Type := state -> outcome A * state.

Definition ret {A} (a : A) : M A := fun s => (Ret a, s).

Definition bind {A B} (m : M A) (k : A -> M B) : M B := fun s =>
  match m s with
  | (Ret a, s') => k a s'
  | (Throw, s') => (Throw, s')
  | (Abort, s') => (Abort, s')
  | (Undef, s') => (Undef, s')
  | (Timeout, s') => (Timeout, s')
  end.

Definition throw_bad_alloc {A} : M A := fun s => (Throw, s).
Definition undefined {A} : M A := fun s => (Undef, s).
Definition abort {A} : M A := fun s => (Abort, s).
Definition timeout {A} : M A := fun s => (Timeout, s).

Declare Scope cpp_scope.
Delimit Scope cpp_scope with cpp.
Notation "x <- c1 ;; c2" := (bind c1 (fun x => c2))
  (at level 100, c1 at next level, right associativity) : cpp_scope.
Notation "c1 ;; c2" := (bind c1 (fun _ => c2))
  (at level 100, right associativity) : cpp_scope.
Open Scope cpp_scope.

(** [assert(c)]. *)
Definition assert `{Target} (c : bool) : M unit :=
  if NDEBUG then ret tt else if c then ret tt else abort.

(** A function declared [throw()]: an exception that tries to leave it
    ends the program. *)
Definition nothrow {A} (m : M A) : M A := fun s =>
  match m s with
  | (Throw, s') => (Abort, s')
  | r => r
  end.

(** ** Reading and writing bytes *)

(** [skip(pidl, offset)].  Arithmetic on a null pointer is undefined in
    C++; here it gives the null pointer, and no caller passes one: [next]
    reads [pidl->mkid.cb] first, and [combine] skips from the pointer that
    [allocate] has returned. *)
Definition skip (pidl : pointer) (offset : Z) : pointer :=
  match pidl with
  | NULL => NULL
  | Ptr b off => Ptr b (off + offset)
  end.

Definition byte_at (h : gmap block (pool * list byte)) (p : pointer)
  : option byte :=
  match p with
  | NULL => None
  | Ptr b off =>
      if off <? 0 then None
      else match h !! b with
           | Some (_, data) => data !! Z.to_nat off
           | None => None
           end
  end.

Definition byte_val (x : byte) : Z := Z.of_N (Byte.to_N x).

(** Modelled from the spec: the header [ShTypes.h] that declares [SHITEMID]
    is not part of the sources; a record begins with a 2-byte little-endian
    length field [cb], so [sizeof(pidl->mkid.cb)] is 2. *)
Definition sizeof_cb : Z := 2.

(** Modelled from the spec: the field [cb] of the record at [pidl], its
    two bytes read least significant first. *)
Definition load_cb (h : gmap block (pool * list byte)) (pidl : pointer)
  : option Z :=
  match byte_at h pidl, byte_at h (skip pidl 1) with
  | Some lo, Some hi => Some (byte_val lo + 256 * byte_val hi)
  | _, _ => None
  end.

(** The [n] bytes at [p], when they lie inside one live block. *)
Definition read_bytes (h : gmap block (pool * list byte)) (p : pointer) (n : Z)
  : option (list byte) :=
  match p with
  | NULL => None
  | Ptr b off =>
      match h !! b with
      | Some (_, data) =>
          if (0 <=? off) && (0 <=? n) && (off + n <=? Z.of_nat (length data))
          then Some (take (Z.to_nat n) (drop (Z.to_nat off) data))
          else None
      | None => None
      end
  end.

Definition splice (data : list byte) (off : nat) (bytes : list byte)
  : list byte :=
  take off data ++ bytes ++ drop (off + length bytes) data.

Definition write_bytes (h : gmap block (pool * list byte)) (p : pointer)
  (bytes : list byte) : option (gmap block (pool * list byte)) :=
  match p with
  | NULL => None
  | Ptr b off =>
      match h !! b with
      | Some (k, data) =>
          if (0 <=? off)
             && (off + Z.of_nat (length bytes) <=? Z.of_nat (length data))
          then Some (<[b := (k, splice data (Z.to_nat off) bytes)]> h)
          else None
      | None => None
      end
  end.

Definition ranges_overlap (p q : pointer) (n : Z) : bool :=
  match p, q with
  | Ptr b1 o1, Ptr b2 o2 =>
      bool_decide (b1 = b2) && (o1 <? o2 + n) && (o2 <? o1 + n)
  | _, _ => false
  end.

(** [std::memcpy(dst, src, n)].  Copying no bytes touches nothing. *)
Definition memcpy (dst src : pointer) (n : Z) : M unit := fun s =>
  if n =? 0 then (Ret tt, s)
  else if ranges_overlap dst src n then (Undef, s)
  else match read_bytes (heap s) src n with
       | Some bytes =>
           match write_bytes (heap s) dst bytes with
           | Some h' => (Ret tt, set_heap h' s)
           | None => (Undef, s)
           end
       | None => (Undef, s)
       end.

(** ** The system allocators *)

(** What a fresh allocation holds before it is written. *)
Definition uninitialised : byte := xcd.

(** Take [n] bytes from pool [k]: a fresh block, or nothing when the pools
    cannot provide [n] more bytes or [n] is more than one object may
    have. *)
Definition sys_alloc `{Target} (k : pool) (n : Z) (s : state)
  : option (pointer * state) :=
  if (n <=? avail s) && (n <=? PTRDIFF_MAX) then
    let b := fresh (dom (heap s)) in
    Some (Ptr b 0,
          {| heap := <[b := (k, replicate (Z.to_nat n) uninitialised)]> (heap s);
             avail := avail s - n;
             objs := objs s |})
  else None.

(** Give a block back to pool [k].  Null is ignored; anything that is not
    the start of a live block of that pool is undefined. *)
Definition sys_free (k : pool) (p : pointer) : M unit := fun s =>
  match p with
  | NULL => (Ret tt, s)
  | Ptr b off =>
      match heap s !! b with
      | Some (k', data) =>
          if bool_decide (k' = k) && (off =? 0) then
            (Ret tt, {| heap := delete b (heap s);
                        avail := avail s + Z.of_nat (length data);
                        objs := objs s |})
          else (Undef, s)
      | None => (Undef, s)
      end
  end.

(** [new BYTE[size]] throws [std::bad_alloc] when it cannot allocate. *)
Definition operator_new_array `{Target} (size : Z) : M pointer := fun s =>
  match sys_alloc free_store size s with
  | Some (p, s') => (Ret p, s')
  | None => (Throw, s)
  end.

Definition operator_delete_array (mem : pointer) : M unit :=
  sys_free free_store mem.

(** [::CoTaskMemAlloc(size)] gives null when it cannot allocate. *)
Definition CoTaskMemAlloc `{Target} (size : Z) : M pointer := fun s =>
  match sys_alloc com_task_memory size s with
  | Some (p, s') => (Ret p, s')
  | None => (Ret NULL, s)
  end.

Definition CoTaskMemFree (mem : pointer) : M unit :=
  sys_free com_task_memory mem.

(** ** PIDL variants and allocators *)

(** The raw PIDL types of [ShTypes.h] under [STRICT_TYPED_ITEMIDS]. *)
Inductive idlist := ITEMID_CHILD | ITEMIDLIST_RELATIVE | ITEMIDLIST_ABSOLUTE.

Global Instance idlist_eq_dec : EqDecision idlist.
Proof. solve_decision. Defined.

(** What the templates ask of an allocator [Alloc<T>]: default
    construction, [allocate] and [deallocate] by size in bytes, and the
    comparison operators between [Alloc<T>] and [Alloc<U>].  [rebind] is
    the same family at another element type. *)
Class Allocator `{Target} (Alloc : idlist -> Type) := {
  construct : forall T : idlist, Alloc T;
  allocate : forall T : idlist, Z -> M pointer;
  deallocate : forall T : idlist, pointer -> M unit;
  alloc_eq : forall T U : idlist, Alloc T -> Alloc U -> bool;
  alloc_ne : forall T U : idlist, Alloc T -> Alloc U -> bool
}.
Arguments construct {_} Alloc {_} T.
Arguments allocate {_} Alloc {_} T size : rename.
Arguments deallocate {_} Alloc {_} T mem : rename.
Arguments alloc_eq {_ Alloc _ T U} _ _.
Arguments alloc_ne {_ Alloc _ T U} _ _.

Definition rebind (Alloc : idlist -> Type) (Other : idlist) : idlist -> Type :=
  Alloc.

(** [newdelete_alloc<T>] is an empty struct. *)
Inductive newdelete_alloc (T : idlist) := newdelete_alloc_object.

(** [cotaskmem_alloc<T>] is an empty struct. *)
Inductive cotaskmem_alloc (T : idlist) := cotaskmem_alloc_object.

Section Allocators.
Context `{Target}.

Definition newdelete_allocate (T : idlist) (size : Z) : M pointer :=
  operator_new_array size.

Definition newdelete_deallocate (T : idlist) (mem : pointer) : M unit :=
  nothrow (operator_delete_array mem).

Definition cotaskmem_allocate (T : idlist) (size : Z) : M pointer :=
  mem <- CoTaskMemAlloc size ;;
  if is_null mem then throw_bad_alloc else ret mem.

Definition cotaskmem_deallocate (T : idlist) (mem : pointer) : M unit :=
  nothrow (CoTaskMemFree mem).

Global Instance newdelete_Allocator : Allocator newdelete_alloc := {|
  construct T := newdelete_alloc_object T;
  allocate := newdelete_allocate;
  deallocate := newdelete_deallocate;
  alloc_eq T U _ _ := true;
  alloc_ne T U _ _ := false
|}.

Global Instance cotaskmem_Allocator : Allocator cotaskmem_alloc := {|
  construct T := cotaskmem_alloc_object T;
  allocate := cotaskmem_allocate;
  deallocate := cotaskmem_deallocate;
  alloc_eq T U _ _ := true;
  alloc_ne T U _ _ := false
|}.
End Allocators.

(** [boost::enable_if_c<B>::type] exists only when [B] is true. *)
Definition enable_if_c (B : bool) : Type := if B then unit else Empty_set.

(** ** Raw PIDL algorithms *)

Module raw_pidl.
Section Raw.
Context `{Target}.

(** [traits<T>::combine_type]: the specialisations for [ITEMID_CHILD] and
    [ITEMIDLIST_ABSOLUTE], and the primary template for the rest. *)
Definition combine_type (T : idlist) : idlist :=
  match T with
  | ITEMID_CHILD => ITEMIDLIST_RELATIVE
  | ITEMIDLIST_ABSOLUTE => ITEMIDLIST_ABSOLUTE
  | ITEMIDLIST_RELATIVE => ITEMIDLIST_RELATIVE
  end.

(** [traits<T>::combine_pidl_type] is a pointer to [combine_type]; a
    pointer type is known here by what it points to. *)
Definition combine_pidl_type (T : idlist) : idlist := combine_type T.

(** [traits<T>::is_appendable]. *)
Definition is_appendable (T : idlist) : bool :=
  match T with
  | ITEMID_CHILD => true
  | ITEMIDLIST_ABSOLUTE => false
  | ITEMIDLIST_RELATIVE => true
  end.

(** [pidl->mkid.cb]. *)
Definition mkid_cb (pidl : pointer) : M Z := fun s =>
  match load_cb (heap s) pidl with
  | Some cb => (Ret cb, s)
  | None => (Undef, s)
  end.

Definition next (pidl : pointer) : M pointer :=
  cb <- mkid_cb pidl ;;
  ret (skip pidl cb).

(** The loop of [size]:
    [while (pidl->mkid.cb) { s += pidl->mkid.cb; pidl = next(pidl); }] *)
Fixpoint size_loop (fuel : nat) (pidl : pointer) (s : Z) : M Z :=
  match fuel with
  | O => timeout
  | S fuel' =>
      cb <- mkid_cb pidl ;;
      if cb =? 0 then ret s
      else
        cb' <- mkid_cb pidl ;;
        pidl' <- next pidl ;;
        size_loop fuel' pidl' (size_t_add s cb')
  end.

(** Every turn of the loop moves at least one byte forward inside the
    block [pidl] points into, so the block's length bounds the turns. *)
Definition walk_budget (h : gmap block (pool * list byte)) (pidl : pointer)
  : nat :=
  match pidl with
  | NULL => 1%nat
  | Ptr b _ =>
      match h !! b with
      | Some (_, data) => S (length data)
      | None => 1%nat
      end
  end.

Definition size (pidl : pointer) : M Z :=
  if is_null pidl then ret 0
  else fun s => size_loop (walk_budget (heap s) pidl) pidl sizeof_cb s.

Definition clone (Alloc : idlist -> Type) `{!Allocator Alloc} (T : idlist)
  (pidl : pointer) : M pointer :=
  if is_null pidl then ret NULL
  else
    len <- size pidl ;;
    mem <- allocate Alloc T len ;;
    memcpy mem pidl len ;;
    ret mem.

(** The declared return type of [combine<Alloc, T, U>]:
    [typename traits<T>::combine_pidl_type], for any [U] for which the
    template can be instantiated. *)
Definition combine_return_type (T U : idlist)
  (dummy : enable_if_c (is_appendable U)) : idlist :=
  combine_pidl_type T.

(** [combine<Alloc>(lhs_pidl, rhs_pidl)] for [const T* lhs_pidl] and
    [const U* rhs_pidl]. *)
Definition combine (Alloc : idlist -> Type) `{!Allocator Alloc}
  (T U : idlist) (lhs_pidl rhs_pidl : pointer)
  (dummy : enable_if_c (is_appendable U)) : M pointer :=
  let return_item_type := combine_type T in
  let allocator_type := rebind Alloc return_item_type in
  if is_null lhs_pidl && is_null rhs_pidl then ret NULL
  else
    lhs_len <- size lhs_pidl ;;
    rhs_len <- size rhs_pidl ;;
    assert (sizeof_cb <=? size_t_add lhs_len rhs_len) ;;
    let len := size_t_add lhs_len rhs_len in
    let len :=
      if negb (lhs_len =? 0) && negb (rhs_len =? 0)
      then size_t_sub len sizeof_cb else len in
    mem <- allocate allocator_type return_item_type len ;;
    memcpy mem lhs_pidl lhs_len ;;
    memcpy
      (skip mem
         (size_t_sub lhs_len (if negb (lhs_len =? 0) then sizeof_cb else 0)))
      rhs_pidl rhs_len ;;
    ret mem.
End Raw.
End raw_pidl.

(** ** Wrapper objects *)

(** A [basic_pidl<T, Alloc>] object is known by its address; its one field
    that varies, [m_pidl], lives in [objs]. *)
Definition new_object (p : pointer) : M loc := fun s =>
  let l := fresh (dom (objs s)) in
  (Ret l, set_objs (<[l := p]> (objs s)) s).

Definition delete_object (l : loc) : M unit := fun s =>
  (Ret tt, set_objs (delete l (objs s)) s).

Definition load_field (l : loc) : M pointer := fun s =>
  match objs s !! l with
  | Some p => (Ret p, s)
  | None => (Undef, s)
  end.

Definition store_field (l : loc) (p : pointer) : M unit := fun s =>
  match objs s !! l with
  | Some _ => (Ret tt, set_objs (<[l := p]> (objs s)) s)
  | None => (Undef, s)
  end.

(** Run [cleanup] when [m] throws, and let the exception go on. *)
Definition unwind {A} (m : M A) (cleanup : M unit) : M A := fun s =>
  match m s with
  | (Throw, s') => (cleanup ;; throw_bad_alloc) s'
  | r => r
  end.

Module basic_pidl.
Section Wrapper.
Context `{Target}.
Context (T : idlist) (Alloc : idlist -> Type) `{!Allocator Alloc}.

Definition join_type : idlist := raw_pidl.combine_type T.
Definition join_pidl_type : idlist := raw_pidl.combine_pidl_type T.
Definition join_allocator : idlist -> Type := rebind Alloc join_type.

(** Every constructor leaves [m_allocator] default-constructed and no
    member assigns it. *)
Definition m_allocator (this : loc) : Alloc T := construct Alloc T.

(** [basic_pidl() : m_pidl(NULL), m_allocator(Alloc()) {}] *)
Definition ctor : M loc := new_object NULL.

(** [~basic_pidl() throw()] *)
Definition dtor (this : loc) : M unit :=
  nothrow (m_pidl <- load_field this ;; deallocate Alloc T m_pidl) ;;
  delete_object this.

(** [basic_pidl(const basic_pidl& pidl)] *)
Definition ctor_copy (pidl : loc) : M loc :=
  m_pidl <- load_field pidl ;;
  mem <- raw_pidl.clone Alloc T m_pidl ;;
  new_object mem.

(** [basic_pidl(const T* raw_pidl)] *)
Definition ctor_raw (raw_pidl : pointer) : M loc :=
  mem <- raw_pidl.clone Alloc T raw_pidl ;;
  new_object mem.

(** A local wrapper: constructed by [init], alive during [body], and
    destroyed when [body] completes or throws. *)
Definition with_local {B} (init : M loc) (body : loc -> M B) : M B :=
  l <- init ;;
  b <- unwind (body l) (dtor l) ;;
  dtor l ;;
  ret b.

(** [return l;] for a local wrapper [l] of a function that returns a
    wrapper by value. *)
Definition return_local (init : M loc) (body : loc -> M unit) : M loc :=
  if return_elided then
    l <- init ;;
    unwind (body l) (dtor l) ;;
    ret l
  else
    with_local init (fun l => body l ;; ctor_copy l).

(** [std::swap(pidl.m_pidl, m_pidl)] *)
Definition std_swap (a b : loc) : M unit :=
  tmp <- load_field a ;;
  other <- load_field b ;;
  store_field a other ;;
  store_field b tmp.

(** The two assignment operators, given the [swap] member they call. *)
Definition assign_with (swap : loc -> loc -> M unit) (this pidl : loc)
  : M loc :=
  with_local (ctor_copy pidl) (fun copy => swap this copy) ;;
  ret this.

Definition assign_raw_with (swap : loc -> loc -> M unit) (this : loc)
  (raw_pidl : pointer) : M loc :=
  with_local (ctor_raw raw_pidl) (fun copy => swap this copy) ;;
  ret this.

(** [void swap(basic_pidl& pidl) throw()].  The else branch assigns, and
    assignment swaps: [fuel] bounds the depth of that recursion. *)
Fixpoint swap (fuel : nat) (this pidl : loc) : M unit :=
  match fuel with
  | O => timeout
  | S fuel' =>
      nothrow
        (if alloc_eq (m_allocator this) (m_allocator pidl)
         then std_swap pidl this
         else
           with_local (ctor_copy this) (fun temp =>
             assign_with (swap fuel') this pidl ;;
             assign_with (swap fuel') pidl temp ;;
             ret tt))
  end.

(** [basic_pidl& operator=(const basic_pidl& pidl)] *)
Definition assign (fuel : nat) (this pidl : loc) : M loc :=
  assign_with (swap fuel) this pidl.

(** [basic_pidl& operator=(const T* raw_pidl)] *)
Definition assign_raw (fuel : nat) (this : loc) (raw_pidl : pointer)
  : M loc :=
  assign_raw_with (swap fuel) this raw_pidl.

(** [bool operator!() const] *)
Definition operator_not (this : loc) : M bool :=
  m_pidl <- load_field this ;;
  ret (is_null m_pidl).

(** [const T* get() const] *)
Definition get (this : loc) : M pointer := load_field this.

(** [T** out()]: the address of [m_pidl] is the object's own. *)
Definition out (this : loc) : M loc :=
  m_pidl <- load_field this ;;
  deallocate Alloc T m_pidl ;;
  store_field this NULL ;;
  ret this.

(** [basic_pidl& attach(T* raw_pidl)] *)
Definition attach (this : loc) (raw_pidl : pointer) : M loc :=
  m_pidl <- load_field this ;;
  assert (negb (bool_decide (m_pidl = raw_pidl))) ;;
  deallocate Alloc T m_pidl ;;
  store_field this raw_pidl ;;
  ret this.

(** [size_t size() const] *)
Definition size (this : loc) : M Z :=
  m_pidl <- load_field this ;;
  raw_pidl.size m_pidl.

(** [bool empty() const] *)
Definition empty (this : loc) : M bool :=
  m_pidl <- load_field this ;;
  if is_null m_pidl then ret true
  else
    cb <- raw_pidl.mkid_cb m_pidl ;;
    ret (cb =? 0).
End Wrapper.
End basic_pidl.

Section Operators.
Context `{Target}.
Context (Alloc : idlist -> Type) `{!Allocator Alloc}.

(** The element type of [T::join_pidl], the declared return type of
    [operator+]: [basic_pidl<join_type, join_allocator>] of the left
    operand. *)
Definition join_return_type (T U : idlist)
  (dummy : enable_if_c (raw_pidl.is_appendable U)) : idlist :=
  basic_pidl.join_type T.

(** [operator+(const T& lhs_pidl, const U& rhs_pidl)] for wrappers over
    [T] and [U]. *)
Definition join (T U : idlist) (lhs_pidl rhs_pidl : loc)
  (dummy : enable_if_c (raw_pidl.is_appendable U)) : M loc :=
  let join_type := basic_pidl.join_type T in
  let join_allocator := basic_pidl.join_allocator T Alloc in
  basic_pidl.return_local join_type join_allocator
    (basic_pidl.ctor)
    (fun pidl =>
       lhs <- basic_pidl.get lhs_pidl ;;
       rhs <- basic_pidl.get rhs_pidl ;;
       mem <- raw_pidl.combine join_allocator T U lhs rhs dummy ;;
       basic_pidl.attach join_type join_allocator pidl mem ;;
       ret tt).

End Operators.

(** [swap(basic_pidl<T>& pidl1, basic_pidl<T>& pidl2) throw()], for wrappers
    with the default allocator [newdelete_alloc<T>]. *)
Definition swap `{Target} (T : idlist) (fuel : nat) (pidl1 pidl2 : loc)
  : M unit :=
  nothrow (basic_pidl.swap T newdelete_alloc fuel pidl1 pidl2).

(** ** operator+= *)

Section CompoundAssignment.
Context `{Target}.
Context (Alloc : idlist -> Type) `{!Allocator Alloc}.

(** [operator+=(T& lhs_pidl, const U& rhs_pidl)] for wrappers over [T] and
    [U]: [lhs_pidl = lhs_pidl + rhs_pidl; return lhs_pidl;].  The sum is a
    temporary of type [T::join_pidl] that lives until the assignment is
    done.  The assignment is [basic_pidl::operator=(const basic_pidl&)],
    which takes a wrapper of the left operand's own type, and no other
    assignment or conversion accepts a wrapper: the statement is well typed
    only when [T::join_pidl] is [T], which is what [same] says. *)
Definition join_assign (T U : idlist) (fuel : nat) (lhs_pidl rhs_pidl : loc)
  (dummy : enable_if_c (raw_pidl.is_appendable U))
  (same : basic_pidl.join_type T = T) : M loc :=
  basic_pidl.with_local (basic_pidl.join_type T)
    (basic_pidl.join_allocator T Alloc)
    (join Alloc T U lhs_pidl rhs_pidl dummy)
    (fun sum => basic_pidl.assign T Alloc fuel lhs_pidl sum) ;;
  ret lhs_pidl.
End CompoundAssignment.

(** ** StorageMedium (swish/shell_folder/data_object/StorageMedium.hpp) *)

Module StorageMedium.
Section Medium.
(** The platform's [STGMEDIUM] is declared outside the sources and is
    taken as a parameter, with its field [tymed]. *)
Context (STGMEDIUM : Type) (tymed : STGMEDIUM -> Z).

(** How the body of a function with a return type ends: at a [return]
    statement with a value, or at its closing brace with none. *)
Inductive completion (A : Type) :=
| returns (a : A)
| falls_off_the_end.

(** [std::swap(m_medium, medium.m_medium)] on the [m_medium] fields of two
    live [StorageMedium] objects. *)
Definition std_swap (a b : loc) (st : gmap loc STGMEDIUM)
  : option (gmap loc STGMEDIUM) :=
  match st !! a, st !! b with
  | Some x, Some y => Some (<[b := x]> (<[a := y]> st))
  | _, _ => None
  end.

(** [StorageMedium& operator=(StorageMedium medium) throw()
     { std::swap(m_medium, medium.m_medium); }]
    The parameter [medium] is the copy the caller has made. *)
Definition assign (this medium : loc) (st : gmap loc STGMEDIUM)
  : option (completion loc * gmap loc STGMEDIUM) :=
  match std_swap this medium st with
  | Some st' => Some (falls_off_the_end loc, st')
  | None => None
  end.

(** [bool empty() const { return m_medium.tymed == NULL; }] *)
Definition empty (this : loc) (st : gmap loc STGMEDIUM)
  : option (completion bool) :=
  match st !! this with
  | Some m => Some (returns bool (tymed m =? 0))
  | None => None
  end.

Section Access.
Context `{Target}.

(** The address of a string literal: a character array in static storage,
    which lives in block [text]; never the null pointer. *)
Definition string_literal (text : block) : pointer := Ptr text 0.

(** A pointer where a [bool] is expected is true when it is not null. *)
Definition pointer_to_bool (p : pointer) : bool := negb (is_null p).

(** [STGMEDIUM* out()
     { assert(empty() || "Taking address of non-empty STGMEDIUM");
       return &m_medium; }] *)
Definition out (text : block) (this : loc) (st : gmap loc STGMEDIUM)
  : outcome loc :=
  if NDEBUG then Ret this
  else
    match empty this st with
    | Some (returns _ e) =>
        if e || pointer_to_bool (string_literal text) then Ret this
        else Abort
    | _ => Undef
    end.

(** [const STGMEDIUM& get() const
     { assert(!empty() || "Accessing empty STGMEDIUM.");
       return m_medium; }] *)
Definition get (text : block) (this : loc) (st : gmap loc STGMEDIUM)
  : outcome loc :=
  if NDEBUG then Ret this
  else
    match empty this st with
    | Some (returns _ e) =>
        if negb e || pointer_to_bool (string_literal text) then Ret this
        else Abort
    | _ => Undef
    end.
End Access.

End Medium.
End StorageMedium.

(** * The vocabulary of the properties *)

(** ** Walks and sizes *)

(** The record length fields met from [pidl] on by following [next] until
    a record whose [cb] is zero. *)
Inductive walk (h : gmap block (pool * list byte))
  : pointer -> list Z -> Prop :=
| walk_terminator pidl :
    load_cb h pidl = Some 0 -> walk h pidl [0]
| walk_record pidl cb cbs :
    load_cb h pidl = Some cb -> cb <> 0 ->
    walk h (skip pidl cb) cbs -> walk h pidl (cb :: cbs).

Definition sum_cb (cbs : list Z) : Z := foldr Z.add 0 cbs.

(** No live object is larger than [PTRDIFF_MAX]. *)
Definition heap_ok `{Target} (s : state) : Prop :=
  forall b k data,
    heap s !! b = Some (k, data) -> Z.of_nat (length data) <= PTRDIFF_MAX.

Definition decode_cb (bs : list byte) : option Z :=
  match bs with
  | lo :: hi :: _ => Some (byte_val lo + 256 * byte_val hi)
  | _ => None
  end.

(** [m] keeps [P], however it ends. *)
Definition preserves {A} (P : state -> Prop) (m : M A) : Prop :=
  forall s o s', P s -> m s = (o, s') -> P s'.

(** ** Allocation *)

(** The allocator can provide [n] bytes in state [s]. *)
Definition has_room `{Target} (s : state) (n : Z) : Prop :=
  n <= avail s /\ n <= PTRDIFF_MAX.

(** The state after block [b] of pool [k] with contents [data] has been
    taken from the pools. *)
Definition with_block (s : state) (b : block) (k : pool) (data : list byte)
  : state :=
  {| heap := <[b := (k, data)]> (heap s);
     avail := avail s - Z.of_nat (length data);
     objs := objs s |}.

Definition fresh_block (s : state) : block := fresh (dom (heap s)).

(** An allocator that takes its memory from pool [k]: [allocate] gives a
    fresh block or throws, [deallocate] gives the block back. *)
Class PoolAllocator `{Target} (Alloc : idlist -> Type) `{!Allocator Alloc}
  (k : pool) : Prop := {
  allocate_pool : forall T n s,
    allocate Alloc T n s
    = match sys_alloc k n s with
      | Some (p, s') => (Ret p, s')
      | None => (Throw, s)
      end;
  deallocate_pool : forall T p s,
    deallocate Alloc T p s = sys_free k p s
}.

(** ** The bytes of a PIDL *)

(** [bs] are the bytes of the PIDL at [pidl], up to and including its
    terminator: none for a null pointer, else the [size] bytes a walk
    covers. *)
Definition pidl_bytes (h : gmap block (pool * list byte)) (pidl : pointer)
  (bs : list byte) : Prop :=
  match pidl with
  | NULL => bs = []
  | Ptr _ _ =>
      exists cbs,
        walk h pidl cbs /\ read_bytes h pidl (sum_cb cbs + sizeof_cb) = Some bs
  end.

(** What [combine] leaves in the new block: the left bytes without their
    last two, followed by the right bytes, when both sides have bytes; the
    bytes of the side that has some otherwise. *)
Definition combined (lbs rbs : list byte) : list byte :=
  match lbs, rbs with
  | [], _ => rbs
  | _, [] => lbs
  | _, _ => take (length lbs - 2) lbs ++ rbs
  end.

(** Both calls return, and the PIDLs they return have the same bytes. *)
Definition byte_equivalent (r1 r2 : outcome pointer * state) : Prop :=
  exists p1 s1 p2 s2 bs,
    r1 = (Ret p1, s1) /\ r2 = (Ret p2, s2) /\
    pidl_bytes (heap s1) p1 bs /\ pidl_bytes (heap s2) p2 bs.

(** ** The data model of the specification *)

(** The specification describes a list as a sequence of records, each a
    2-byte little-endian length (its own two bytes included) followed by
    its payload, closed by a terminator whose length field is zero.  A
    record is given here by its payload. *)
Definition byte_of_Z (z : Z) : byte :=
  match Byte.of_N (Z.to_N z) with
  | Some x => x
  | None => x00
  end.

Definition length_field (cb : Z) : list byte :=
  [byte_of_Z (cb mod 256); byte_of_Z (cb / 256)].

Definition record_cb (payload : list byte) : Z :=
  2 + Z.of_nat (length payload).

Definition record_bytes (payload : list byte) : list byte :=
  length_field (record_cb payload) ++ payload.

Definition terminator : list byte := [x00; x00].

Definition records_bytes (recs : list (list byte)) : list byte :=
  concat (map record_bytes recs).

Definition idlist_bytes (recs : list (list byte)) : list byte :=
  records_bytes recs ++ terminator.

(** A record's length must fit its 16-bit length field. *)
Definition record_ok (payload : list byte) : Prop := record_cb payload < 65536.

(** The list with records [recs] is stored at [pidl]. *)
Definition holds (h : gmap block (pool * list byte)) (pidl : pointer)
  (recs : list (list byte)) : Prop :=
  Forall record_ok recs /\
  read_bytes h pidl (Z.of_nat (length (idlist_bytes recs)))
  = Some (idlist_bytes recs).

(** ** Ownership *)

(** [p] is null or the start of a live block of pool [k]: what a wrapper
    over an allocator of that pool may hold. *)
Definition owned (k : pool) (s : state) (p : pointer) : Prop :=
  match p with
  | NULL => True
  | Ptr b off => off = 0 /\ exists data, heap s !! b = Some (k, data)
  end.

(** The state once the block at [p] has gone back to its pool. *)
Definition released (p : pointer) (s : state) : state :=
  match p with
  | NULL => s
  | Ptr b _ =>
      match heap s !! b with
      | Some (_, data) =>
          {| heap := delete b (heap s);
             avail := avail s + Z.of_nat (length data);
             objs := objs s |}
      | None => s
      end
  end.

Definition fresh_loc (s : state) : loc := fresh (dom (objs s)).

(** The pools can provide [copies] blocks of [n] bytes each, one after the
    other. *)
Definition has_room_for `{Target} (s : state) (copies n : Z) : Prop :=
  copies * n <= avail s /\ n <= PTRDIFF_MAX.

(** The state in which wrapper [w] has been added, holding the new block
    [b] of pool [k] with contents [data]. *)
Definition with_wrapper (k : pool) (s : state) (w : loc) (b : block)
  (data : list byte) : state :=
  set_objs (<[w := Ptr b 0]> (objs s)) (with_block s b k data).

(** ** Recursion budgets *)


(** ** An allocator whose instances differ *)

(** Not an allocator of the sources: one a client can pass to
    [basic_pidl] as [Alloc].  It allocates as [newdelete_alloc] does and
    its comparison answers unequal for every pair of instances,
    [template<typename T, typename U> bool operator==(const arena_alloc<T>&,
     const arena_alloc<U>&) { return false; }], which is what sends [swap]
    into its else branch. *)
Inductive arena_alloc (T : idlist) := arena_alloc_object.

Global Instance arena_Allocator `{Target} : Allocator arena_alloc := {|
  construct T := arena_alloc_object T;
  allocate := newdelete_allocate;
  deallocate := newdelete_deallocate;
  alloc_eq T U _ _ := false;
  alloc_ne T U _ _ := true
|}.

(** ** The body of operator+ *)

Section JoinBody.
Context `{Target}.
Context (Alloc : idlist -> Type) `{!Allocator Alloc}.

(** The statements of [operator+] between the declaration of the local
    [pidl] and its [return]. *)
Definition join_body (T U : idlist) (lhs_pidl rhs_pidl : loc)
  (dummy : enable_if_c (raw_pidl.is_appendable U)) (pidl : loc) : M unit :=
  lhs <- basic_pidl.get lhs_pidl ;;
  rhs <- basic_pidl.get rhs_pidl ;;
  mem <- raw_pidl.combine Alloc T U lhs rhs dummy ;;
  basic_pidl.attach (raw_pidl.combine_type T) Alloc pidl mem ;;
  ret tt.
End JoinBody.

(** ** The end-to-end example of the specification *)

(** Two single-segment lists, ["host1"] and ["path1"], and an empty list,
    each in a block of the COM task allocator; wrapper 1 owns the first
    and wrapper 2 the second. *)
Definition host1 : list (list byte) := [[x68; x6f; x73; x74; x31]].
Definition path1 : list (list byte) := [[x70; x61; x74; x68; x31]].

Definition C1_pidl : pointer := Ptr 1%positive 0.
Definition C2_pidl : pointer := Ptr 2%positive 0.
Definition empty_pidl : pointer := Ptr 3%positive 0.

Definition demo : state :=
  {| heap := <[3%positive := (com_task_memory, idlist_bytes [])]>
               (<[2%positive := (com_task_memory, idlist_bytes path1)]>
                  {[1%positive := (com_task_memory, idlist_bytes host1)]});
     avail := 4096;
     objs := <[2%positive := C2_pidl]> {[1%positive := C1_pidl]} |}.

(** The same heap with a third wrapper, which is null. *)
Definition demo_null : state :=
  set_objs (<[3%positive := NULL]> (objs demo)) demo.

(** The same heap and wrappers when the pools have 20 bytes left. *)
Definition tight : state :=
  {| heap := heap demo; avail := 20; objs := objs demo |}.

(** A block that holds the record ["host1"] and no terminator. *)
Definition unterminated : state :=
  {| heap := {[1%positive := (com_task_memory, records_bytes host1)]};
     avail := 4096;
     objs := ∅ |}.


(** The heap and the wrappers of [demo] when the pools have nothing
    left. *)
Definition exhausted : state :=
  {| heap := heap demo; avail := 0; objs := objs demo |}.

(** A check that decides [heap_ok] on states with small blocks. *)
Definition small_blocks (s : state) : bool :=
  forallb (fun e => Z.of_nat (length (snd (snd e))) <=? 65536)
    (map_to_list (heap s)).

(** * Properties *)

(** ** The monad *)

Lemma bind_Ret {A B} (m : M A) (k : A -> M B) s a s' :
  m s = (Ret a, s') -> (x <- m ;; k x) s = k a s'.
Proof. intros E. unfold bind. rewrite E. reflexivity. Qed.

Lemma bind_Throw {A B} (m : M A) (k : A -> M B) s s' :
  m s = (Throw, s') -> (x <- m ;; k x) s = (Throw, s').
Proof. intros E. unfold bind. rewrite E. reflexivity. Qed.

Lemma bind_inv_Ret {A B} (m : M A) (k : A -> M B) s b s' :
  (x <- m ;; k x) s = (Ret b, s') ->
  exists a s1, m s = (Ret a, s1) /\ k a s1 = (Ret b, s').
Proof.
  unfold bind. destruct (m s) as [[a| | | |] s1]; intros E; try discriminate.
  eauto.
Qed.

Lemma bind_inv_Throw {A B} (m : M A) (k : A -> M B) s s' :
  (x <- m ;; k x) s = (Throw, s') ->
  m s = (Throw, s') \/ exists a s1, m s = (Ret a, s1) /\ k a s1 = (Throw, s').
Proof.
  unfold bind. destruct (m s) as [[a| | | |] s1]; intros E; try discriminate.
  - right. eauto.
  - left. congruence.
Qed.

(** ** Walking a PIDL *)

Lemma byte_val_range x : 0 <= byte_val x < 256.
Proof.
  unfold byte_val. pose proof (Byte.to_N_bounded x). lia.
Qed.

Lemma byte_at_Some h b off x :
  byte_at h (Ptr b off) = Some x ->
  exists k data,
    h !! b = Some (k, data) /\ 0 <= off /\ off < Z.of_nat (length data) /\
    data !! Z.to_nat off = Some x.
Proof.
  unfold byte_at. destruct (Z.ltb_spec off 0); [discriminate|].
  destruct (h !! b) as [[k data]|]; [|discriminate].
  intros E. exists k, data. repeat split; try assumption.
  apply lookup_lt_Some in E. lia.
Qed.

Lemma load_cb_Some h b off cb :
  load_cb h (Ptr b off) = Some cb ->
  exists k data,
    h !! b = Some (k, data) /\ 0 <= off /\
    off + 2 <= Z.of_nat (length data) /\ 0 <= cb < 65536.
Proof.
  unfold load_cb. simpl skip.
  destruct (byte_at h (Ptr b off)) as [lo|] eqn:Elo; [|discriminate].
  destruct (byte_at h (Ptr b (off + 1))) as [hi|] eqn:Ehi; [|discriminate].
  intros [= <-].
  apply byte_at_Some in Elo as (k & data & Hb & ? & ? & _).
  apply byte_at_Some in Ehi as (k' & data' & Hb' & ? & ? & _).
  rewrite Hb in Hb'. injection Hb' as <- <-.
  exists k, data. pose proof (byte_val_range lo). pose proof (byte_val_range hi).
  repeat split; try assumption; lia.
Qed.

Lemma load_cb_NULL h : load_cb h NULL = None.
Proof. reflexivity. Qed.

Lemma walk_not_NULL h cbs : ~ walk h NULL cbs.
Proof. intros W. inversion W; subst; discriminate. Qed.

Lemma walk_bounds h pidl cbs :
  walk h pidl cbs ->
  forall b off, pidl = Ptr b off ->
  exists k data,
    h !! b = Some (k, data) /\ 0 <= off /\
    off + sum_cb cbs + 2 <= Z.of_nat (length data) /\
    Z.of_nat (length cbs) <= sum_cb cbs + 1 /\
    Forall (fun cb => 0 <= cb < 65536) cbs /\
    list.last cbs = Some 0.
Proof.
  induction 1 as [pidl Hcb | pidl cb cbs Hcb Hnz W IH]; intros b off ->.
  - apply load_cb_Some in Hcb as (k & data & Hb & ? & ? & ?).
    exists k, data. simpl. repeat split; try assumption; try lia.
    repeat constructor; lia.
  - apply load_cb_Some in Hcb as (k & data & Hb & ? & ? & ?).
    destruct (IH b (off + cb) eq_refl) as (k' & data' & Hb' & ? & ? & ? & ? & Hl).
    rewrite Hb in Hb'. injection Hb' as <- <-.
    exists k, data. simpl sum_cb. simpl length.
    repeat split; try assumption; try lia.
    + constructor; [lia | assumption].
    + destruct cbs; [discriminate | exact Hl].
Qed.

Lemma sum_cb_nonneg cbs :
  Forall (fun cb => 0 <= cb < 65536) cbs -> 0 <= sum_cb cbs.
Proof. induction 1; simpl; lia. Qed.

Lemma walk_deterministic h pidl cbs1 :
  walk h pidl cbs1 -> forall cbs2, walk h pidl cbs2 -> cbs1 = cbs2.
Proof.
  induction 1 as [pidl Hcb | pidl cb cbs Hcb Hnz W IH]; intros cbs2 W2;
    inversion W2; subst; try congruence.
  assert (cb0 = cb) by congruence. subst. f_equal. apply IH. assumption.
Qed.

Section SizeProperties.
Context `{Target}.

Lemma mkid_cb_Some s pidl cb :
  load_cb (heap s) pidl = Some cb -> raw_pidl.mkid_cb pidl s = (Ret cb, s).
Proof. intros E. unfold raw_pidl.mkid_cb. rewrite E. reflexivity. Qed.

Lemma size_loop_walk s pidl cbs :
  walk (heap s) pidl cbs ->
  forall fuel acc,
    (length cbs <= fuel)%nat -> 0 <= acc ->
    Forall (fun cb => 0 <= cb < 65536) cbs ->
    acc + sum_cb cbs < size_t_mod ->
    raw_pidl.size_loop fuel pidl acc s = (Ret (acc + sum_cb cbs), s).
Proof.
  induction 1 as [pidl Hcb | pidl cb cbs Hcb Hnz W IH];
    intros fuel acc Hfuel Hacc Hpos Hfit.
  - destruct fuel as [|fuel]; [simpl in Hfuel; lia|].
    simpl. rewrite (bind_Ret _ _ _ _ _ (mkid_cb_Some _ _ _ Hcb)).
    simpl. unfold ret. do 2 f_equal. lia.
  - destruct fuel as [|fuel]; [simpl in Hfuel; lia|].
    inversion Hpos as [|? ? Hcb0 Hpos']; subst.
    pose proof (sum_cb_nonneg _ Hpos').
    simpl raw_pidl.size_loop.
    rewrite (bind_Ret _ _ _ _ _ (mkid_cb_Some _ _ _ Hcb)).
    destruct (Z.eqb_spec cb 0); [contradiction|].
    rewrite (bind_Ret _ _ _ _ _ (mkid_cb_Some _ _ _ Hcb)).
    unfold raw_pidl.next.
    rewrite (bind_Ret _ _ s (skip pidl cb) s);
      [|rewrite (bind_Ret _ _ _ _ _ (mkid_cb_Some _ _ _ Hcb)); reflexivity].
    simpl sum_cb in *. simpl length in Hfuel.
    rewrite size_t_add_small by lia.
    rewrite IH; try assumption; try lia.
    do 2 f_equal. lia.
Qed.

Lemma size_walk s pidl cbs :
  heap_ok s -> walk (heap s) pidl cbs ->
  raw_pidl.size pidl s = (Ret (sum_cb cbs + 2), s).
Proof.
  intros Hok W. destruct pidl as [|b off]; [exfalso; eapply walk_not_NULL; eauto|].
  destruct (walk_bounds _ _ _ W b off eq_refl)
    as (k & data & Hb & Hoff & Hlen & Hcnt & Hpos & _).
  pose proof (Hok _ _ _ Hb) as Hmax.
  pose proof size_t_mod_double. pose proof PTRDIFF_MAX_big.
  unfold raw_pidl.size, raw_pidl.walk_budget. cbn [is_null]. cbv beta iota.
  rewrite Hb.
  rewrite (size_loop_walk s (Ptr b off) cbs W); try assumption;
    unfold sizeof_cb; try lia.
  do 2 f_equal. lia.
Qed.

Lemma size_NULL s : raw_pidl.size NULL s = (Ret 0, s).
Proof. reflexivity. Qed.
End SizeProperties.

(** ** Reading a range of bytes *)

Lemma read_bytes_Some h b off n bs :
  read_bytes h (Ptr b off) n = Some bs ->
  exists k data,
    h !! b = Some (k, data) /\ 0 <= off /\ 0 <= n /\
    off + n <= Z.of_nat (length data) /\
    bs = take (Z.to_nat n) (drop (Z.to_nat off) data) /\
    Z.of_nat (length bs) = n.
Proof.
  unfold read_bytes. destruct (h !! b) as [[k data]|]; [|discriminate].
  destruct (Z.leb_spec 0 off); [|discriminate].
  destruct (Z.leb_spec 0 n); [|discriminate].
  destruct (Z.leb_spec (off + n) (Z.of_nat (length data))); [|discriminate].
  simpl. intros [= <-]. exists k, data.
  repeat split; try assumption.
  rewrite length_take, length_drop. lia.
Qed.

Lemma read_bytes_intro h b off n k data :
  h !! b = Some (k, data) -> 0 <= off -> 0 <= n ->
  off + n <= Z.of_nat (length data) ->
  read_bytes h (Ptr b off) n
  = Some (take (Z.to_nat n) (drop (Z.to_nat off) data)).
Proof.
  intros Hb ? ? ?. unfold read_bytes. rewrite Hb.
  destruct (Z.leb_spec 0 off); [|lia].
  destruct (Z.leb_spec 0 n); [|lia].
  destruct (Z.leb_spec (off + n) (Z.of_nat (length data))); [|lia].
  reflexivity.
Qed.

Lemma read_bytes_byte_at h b off n bs i :
  read_bytes h (Ptr b off) n = Some bs -> 0 <= i < n ->
  byte_at h (Ptr b (off + i)) = bs !! Z.to_nat i.
Proof.
  intros R Hi.
  apply read_bytes_Some in R as (k & data & Hb & ? & ? & ? & -> & _).
  unfold byte_at. destruct (Z.ltb_spec (off + i) 0); [lia|].
  rewrite Hb. rewrite lookup_take_lt by lia. rewrite lookup_drop.
  f_equal. lia.
Qed.

Lemma load_cb_of_read h pidl n bs :
  read_bytes h pidl n = Some bs -> 2 <= n -> load_cb h pidl = decode_cb bs.
Proof.
  intros R Hn. destruct pidl as [|b off]; [discriminate|].
  pose proof (read_bytes_byte_at _ _ _ _ _ 0 R ltac:(lia)) as H0.
  pose proof (read_bytes_byte_at _ _ _ _ _ 1 R ltac:(lia)) as H1.
  apply read_bytes_Some in R as (_ & _ & _ & _ & _ & _ & _ & Hlen).
  unfold load_cb. simpl skip. rewrite Z.add_0_r in H0. rewrite H0, H1.
  destruct bs as [|lo [|hi bs]]; simpl in Hlen; try lia.
  reflexivity.
Qed.

Lemma read_bytes_skip h pidl n bs k :
  read_bytes h pidl n = Some bs -> 0 <= k <= n ->
  read_bytes h (skip pidl k) (n - k) = Some (drop (Z.to_nat k) bs).
Proof.
  intros R Hk. destruct pidl as [|b off]; [discriminate|].
  apply read_bytes_Some in R as (kd & data & Hb & ? & ? & ? & -> & _).
  simpl skip. rewrite (read_bytes_intro _ _ _ _ kd data) by (try assumption; lia).
  f_equal. rewrite !take_drop_commute, drop_drop.
  f_equal; [lia|]. f_equal. lia.
Qed.

Lemma read_bytes_prefix h pidl n bs m :
  read_bytes h pidl n = Some bs -> 0 <= m <= n ->
  read_bytes h pidl m = Some (take (Z.to_nat m) bs).
Proof.
  intros R Hm. destruct pidl as [|b off]; [discriminate|].
  apply read_bytes_Some in R as (kd & data & Hb & ? & ? & ? & -> & _).
  rewrite (read_bytes_intro _ _ _ _ kd data) by (try assumption; lia).
  f_equal. rewrite take_take. f_equal. lia.
Qed.

(** A walk only looks at the bytes up to the end of its terminator: the
    same bytes anywhere else give the same walk. *)
Lemma walk_transfer h pidl cbs :
  walk h pidl cbs ->
  forall bs h' pidl',
    read_bytes h pidl (sum_cb cbs + 2) = Some bs ->
    read_bytes h' pidl' (sum_cb cbs + 2) = Some bs ->
    walk h' pidl' cbs.
Proof.
  intros W. pose proof W as W0.
  induction W as [pidl Hcb | pidl cb cbs Hcb Hnz W IH]; intros bs h' pidl' R R'.
  - simpl in R, R'. apply walk_terminator.
    rewrite (load_cb_of_read _ _ _ _ R') by lia.
    rewrite <- (load_cb_of_read _ _ _ _ R) by lia. assumption.
  - destruct pidl as [|b off]; [discriminate|].
    destruct (walk_bounds _ _ _ W0 b off eq_refl)
      as (_ & _ & _ & _ & _ & _ & Hpos & _).
    inversion Hpos as [|? ? Hcb0 Hpos']; subst.
    pose proof (sum_cb_nonneg _ Hpos') as Hs. simpl sum_cb in R, R'.
    apply walk_record; try assumption.
    + rewrite (load_cb_of_read _ _ _ _ R') by lia.
      rewrite <- (load_cb_of_read _ _ _ _ R) by lia. assumption.
    + apply (IH W (drop (Z.to_nat cb) bs)).
      * replace (sum_cb cbs + 2) with (cb + sum_cb cbs + 2 - cb) by lia.
        apply read_bytes_skip; [assumption | lia].
      * replace (sum_cb cbs + 2) with (cb + sum_cb cbs + 2 - cb) by lia.
        apply read_bytes_skip; [assumption | lia].
Qed.

(** The bytes a walk covers can be read. *)
Lemma walk_readable h pidl cbs :
  walk h pidl cbs ->
  exists bs, read_bytes h pidl (sum_cb cbs + 2) = Some bs.
Proof.
  intros W. destruct pidl as [|b off]; [exfalso; eapply walk_not_NULL; eauto|].
  destruct (walk_bounds _ _ _ W b off eq_refl)
    as (k & data & Hb & ? & ? & ? & Hpos & _).
  pose proof (sum_cb_nonneg _ Hpos).
  eexists. apply (read_bytes_intro _ _ _ _ k data); try assumption; lia.
Qed.

Section SizeConverse.
Context `{Target}.

Lemma mkid_cb_inv s pidl cb s' :
  raw_pidl.mkid_cb pidl s = (Ret cb, s') ->
  load_cb (heap s) pidl = Some cb /\ s' = s.
Proof.
  unfold raw_pidl.mkid_cb. destruct (load_cb (heap s) pidl); intros [= <- <-].
  split; reflexivity.
Qed.

(** When the loop of [size] ends, it has walked to a terminator and has
    left the state alone. *)
Lemma size_loop_inv fuel :
  forall s pidl acc n s',
    raw_pidl.size_loop fuel pidl acc s = (Ret n, s') ->
    s' = s /\ exists cbs, walk (heap s) pidl cbs.
Proof.
  induction fuel as [|fuel IH]; intros s pidl acc n s' E; [discriminate|].
  simpl in E.
  apply bind_inv_Ret in E as (cb & s1 & E1 & E).
  apply mkid_cb_inv in E1 as [Hcb ->].
  destruct (Z.eqb_spec cb 0) as [->|Hnz].
  - injection E as <- <-. split; [reflexivity|].
    exists [0]. apply walk_terminator. assumption.
  - apply bind_inv_Ret in E as (cb' & s1 & E1 & E).
    apply mkid_cb_inv in E1 as [Hcb' ->].
    apply bind_inv_Ret in E as (pidl' & s1 & E1 & E).
    unfold raw_pidl.next in E1.
    apply bind_inv_Ret in E1 as (cb'' & s2 & E1 & E2).
    apply mkid_cb_inv in E1 as [Hcb'' ->].
    injection E2 as <- <-.
    apply IH in E as [-> [cbs W]]. split; [reflexivity|].
    assert (cb'' = cb) by congruence. subst.
    exists (cb :: cbs). apply walk_record; assumption.
Qed.

Lemma size_inv s pidl n s' :
  raw_pidl.size pidl s = (Ret n, s') ->
  s' = s /\ (pidl = NULL /\ n = 0 \/ exists cbs, walk (heap s) pidl cbs).
Proof.
  unfold raw_pidl.size. destruct pidl as [|b off]; simpl is_null; cbv iota.
  - intros [= <- <-]. split; [reflexivity|]. left. split; reflexivity.
  - intros E. apply size_loop_inv in E as [-> W]. split; [reflexivity|].
    right. exact W.
Qed.
End SizeConverse.

(** C3: [size] gives 0 for a null PIDL.  For a PIDL whose walk reaches a
    terminator, [size] returns the sum of the record length fields met plus
    the 2 bytes of the terminator and leaves the state as it was; the last
    record met has a zero length field; and the result depends on nothing
    beyond the terminator: wherever the same [size] bytes are found, [size]
    gives the same answer. *)
Theorem size_sums_record_lengths `{Target} (s : state) (pidl : pointer)
  (cbs : list Z) :
  heap_ok s ->
  walk (heap s) pidl cbs ->
  raw_pidl.size NULL s = (Ret 0, s) /\
  raw_pidl.size pidl s = (Ret (sum_cb cbs + sizeof_cb), s) /\
  list.last cbs = Some 0 /\
  Forall (fun cb => cb <> 0) (removelast cbs) /\
  (forall s2 pidl2,
     heap_ok s2 ->
     read_bytes (heap s2) pidl2 (sum_cb cbs + sizeof_cb)
     = read_bytes (heap s) pidl (sum_cb cbs + sizeof_cb) ->
     raw_pidl.size pidl2 s2 = (Ret (sum_cb cbs + sizeof_cb), s2)).
Proof.
  intros Hok W. unfold sizeof_cb.
  split; [reflexivity|].
  split; [apply size_walk; assumption|].
  split.
  { destruct pidl as [|b off]; [exfalso; eapply walk_not_NULL; eauto|].
    destruct (walk_bounds _ _ _ W b off eq_refl) as (_ & _ & _ & _ & _ & _ & _ & L).
    exact L. }
  split.
  { clear Hok. induction W as [pidl Hcb | pidl cb cbs Hcb Hnz W IH].
    - constructor.
    - destruct cbs as [|c cbs']; [inversion W|].
      change (removelast (cb :: c :: cbs')) with (cb :: removelast (c :: cbs')).
      constructor; assumption. }
  intros s2 pidl2 Hok2 R.
  destruct (walk_readable _ _ _ W) as [bs Hbs].
  rewrite Hbs in R.
  apply size_walk; [assumption|].
  eapply walk_transfer; eauto.
Qed.

(** ** Allocation succeeds or throws *)

Lemma fresh_block_free s : heap s !! fresh_block s = None.
Proof.
  unfold fresh_block. apply (not_elem_of_dom (D := gset block)).
  exact (is_fresh (dom (heap s))).
Qed.

Section AllocatorProperties.
Context `{Target}.

Lemma sys_alloc_room k n s :
  0 <= n -> has_room s n ->
  sys_alloc k n s
  = Some (Ptr (fresh_block s) 0,
          with_block s (fresh_block s) k (replicate (Z.to_nat n) uninitialised)).
Proof.
  intros Hn [Ha Hp]. unfold sys_alloc.
  destruct (Z.leb_spec n (avail s)); [|lia].
  destruct (Z.leb_spec n PTRDIFF_MAX); [|lia].
  simpl. unfold with_block, fresh_block. rewrite length_replicate.
  repeat f_equal. lia.
Qed.

Lemma sys_alloc_no_room k n s :
  ~ has_room s n -> sys_alloc k n s = None.
Proof.
  intros Hn. unfold sys_alloc, has_room in *.
  destruct (Z.leb_spec n (avail s)); [|reflexivity].
  destruct (Z.leb_spec n PTRDIFF_MAX); [lia|reflexivity].
Qed.

Lemma sys_free_never_throws k p s s' : sys_free k p s <> (Throw, s').
Proof.
  unfold sys_free. destruct p as [|b off]; [discriminate|].
  destruct (heap s !! b) as [[k' data]|]; [|discriminate].
  destruct (bool_decide (k' = k) && (off =? 0)); discriminate.
Qed.

Lemma nothrow_id {A} (m : M A) s :
  (forall s', m s <> (Throw, s')) -> nothrow m s = m s.
Proof.
  intros Hn. unfold nothrow. destruct (m s) as [[a| | | |] s1]; try reflexivity.
  exfalso. apply (Hn s1). reflexivity.
Qed.

Global Instance newdelete_PoolAllocator
  : PoolAllocator newdelete_alloc free_store.
Proof.
  split.
  - intros T n s. reflexivity.
  - intros T p s. simpl. unfold newdelete_deallocate, operator_delete_array.
    apply nothrow_id. intros s'. apply sys_free_never_throws.
Qed.

Global Instance cotaskmem_PoolAllocator
  : PoolAllocator cotaskmem_alloc com_task_memory.
Proof.
  split.
  - intros T n s. simpl. unfold cotaskmem_allocate, bind, CoTaskMemAlloc.
    unfold sys_alloc.
    destruct ((n <=? avail s) && (n <=? PTRDIFF_MAX)); reflexivity.
  - intros T p s. simpl. unfold cotaskmem_deallocate, CoTaskMemFree.
    apply nothrow_id. intros s'. apply sys_free_never_throws.
Qed.

Context (Alloc : idlist -> Type) `{!Allocator Alloc}.
Context (k : pool) `{!PoolAllocator Alloc k}.

Lemma allocate_room T n s :
  0 <= n -> has_room s n ->
  allocate Alloc T n s
  = (Ret (Ptr (fresh_block s) 0),
     with_block s (fresh_block s) k (replicate (Z.to_nat n) uninitialised)).
Proof.
  intros Hn Hr. rewrite allocate_pool, sys_alloc_room by assumption.
  reflexivity.
Qed.

Lemma allocate_no_room T n s :
  ~ has_room s n -> allocate Alloc T n s = (Throw, s).
Proof.
  intros Hr. rewrite allocate_pool, sys_alloc_no_room by assumption.
  reflexivity.
Qed.
End AllocatorProperties.

(** ** memcpy *)

Lemma memcpy_zero dst src s : memcpy dst src 0 s = (Ret tt, s).
Proof. reflexivity. Qed.

Lemma memcpy_blocks s b off src_b src_off n bs k data :
  read_bytes (heap s) (Ptr src_b src_off) n = Some bs ->
  heap s !! b = Some (k, data) ->
  src_b <> b -> 0 <= off -> off + n <= Z.of_nat (length data) ->
  memcpy (Ptr b off) (Ptr src_b src_off) n s
  = (Ret tt, set_heap (<[b := (k, splice data (Z.to_nat off) bs)]> (heap s)) s).
Proof.
  intros R Hb Hne Hoff Hfit. unfold memcpy.
  destruct (Z.eqb_spec n 0) as [->|Hn].
  - apply read_bytes_Some in R as (k' & data' & Hb' & ? & ? & ? & -> & Hl).
    f_equal. unfold set_heap. destruct s as [h a o]. simpl in *. f_equal.
    rewrite take_0. unfold splice. simpl. rewrite Nat.add_0_r, take_drop.
    symmetry. apply insert_id. assumption.
  - unfold ranges_overlap. rewrite bool_decide_eq_false_2 by congruence.
    cbn [andb]. rewrite R.
    pose proof R as R0.
    apply read_bytes_Some in R0 as (_ & _ & _ & _ & _ & _ & _ & Hl).
    unfold write_bytes. rewrite Hb.
    destruct (Z.leb_spec 0 off); [|lia].
    destruct (Z.leb_spec (off + Z.of_nat (length bs)) (Z.of_nat (length data)));
      [|lia].
    reflexivity.
Qed.

Lemma splice_length data off bs :
  (off + length bs <= length data)%nat ->
  length (splice data off bs) = length data.
Proof.
  intros Hfit. unfold splice.
  rewrite !length_app, length_take, length_drop. lia.
Qed.

Lemma splice_fresh n x bs :
  (length bs <= n)%nat ->
  splice (replicate n x) 0 bs = bs ++ replicate (n - length bs) x.
Proof.
  intros Hn. unfold splice. rewrite take_0, drop_replicate. reflexivity.
Qed.

Lemma splice_tail lbs m x rbs :
  (2 <= length lbs)%nat -> (length rbs = m + 2)%nat ->
  splice (lbs ++ replicate m x) (length lbs - 2) rbs
  = take (length lbs - 2) lbs ++ rbs.
Proof.
  intros Hl Hr. unfold splice.
  rewrite take_app_le by lia.
  rewrite drop_ge by (rewrite length_app, length_replicate; lia).
  rewrite app_nil_r. reflexivity.
Qed.

Lemma read_bytes_insert_fresh h b x pidl n bs :
  h !! b = None ->
  read_bytes h pidl n = Some bs ->
  read_bytes (<[b := x]> h) pidl n = Some bs.
Proof.
  intros Hb R. destruct pidl as [|pb off]; [discriminate|].
  unfold read_bytes in *.
  destruct (decide (b = pb)) as [->|Hne].
  - rewrite Hb in R. discriminate.
  - rewrite lookup_insert_ne by assumption. exact R.
Qed.

Lemma memcpy_into_fresh s b k data off src n bs :
  heap s !! b = None ->
  read_bytes (heap s) src n = Some bs ->
  0 <= off -> off + n <= Z.of_nat (length data) ->
  memcpy (Ptr b off) src n (with_block s b k data)
  = (Ret tt, with_block s b k (splice data (Z.to_nat off) bs)).
Proof.
  intros Hb R Hoff Hfit. destruct src as [|sb soff]; [discriminate|].
  pose proof R as R0.
  apply read_bytes_Some in R0 as (k' & data' & Hsb & ? & ? & ? & _ & Hl).
  assert (sb <> b) by congruence.
  rewrite (memcpy_blocks _ b off sb soff n bs k data); try assumption.
  - f_equal. unfold with_block, set_heap. simpl.
    rewrite insert_insert_eq, splice_length by lia. reflexivity.
  - unfold with_block. cbn [heap]. apply read_bytes_insert_fresh; assumption.
  - unfold with_block. cbn [heap]. apply lookup_insert_eq.
Qed.

(** ** The bytes of a PIDL and its size *)

Lemma pidl_bytes_walk h pidl cbs :
  walk h pidl cbs -> exists bs, pidl_bytes h pidl bs.
Proof.
  intros W. destruct (walk_readable _ _ _ W) as [bs R].
  destruct pidl as [|b off]; [exfalso; eapply walk_not_NULL; eauto|].
  exists bs, cbs. split; assumption.
Qed.

Lemma pidl_bytes_deterministic h pidl bs1 bs2 :
  pidl_bytes h pidl bs1 -> pidl_bytes h pidl bs2 -> bs1 = bs2.
Proof.
  destruct pidl as [|b off]; simpl.
  - congruence.
  - intros (cbs1 & W1 & R1) (cbs2 & W2 & R2).
    rewrite (walk_deterministic _ _ _ W1 _ W2) in R1. congruence.
Qed.

Section PidlBytes.
Context `{Target}.

Lemma pidl_bytes_size s pidl bs :
  heap_ok s -> pidl_bytes (heap s) pidl bs ->
  raw_pidl.size pidl s = (Ret (Z.of_nat (length bs)), s) /\
  Z.of_nat (length bs) <= PTRDIFF_MAX /\
  (pidl <> NULL -> 2 <= Z.of_nat (length bs)) /\
  (pidl <> NULL ->
   read_bytes (heap s) pidl (Z.of_nat (length bs)) = Some bs).
Proof.
  intros Hok Hb. pose proof PTRDIFF_MAX_big.
  destruct pidl as [|b off]; simpl in Hb.
  - subst. simpl. repeat split; try reflexivity; try lia; congruence.
  - destruct Hb as (cbs & W & R).
    rewrite (size_walk _ _ _ Hok W).
    destruct (walk_bounds _ _ _ W b off eq_refl)
      as (k & data & Hbk & ? & ? & ? & Hpos & _).
    pose proof (sum_cb_nonneg _ Hpos). pose proof (Hok _ _ _ Hbk).
    pose proof R as R0.
    apply read_bytes_Some in R0 as (_ & _ & _ & _ & _ & _ & _ & Hl).
    unfold sizeof_cb in *. rewrite Hl.
    repeat split; try assumption; try lia.
    intros _. assumption.
Qed.
End PidlBytes.

Lemma memcpy_zero_bind {B} dst src (m : M B) s :
  (memcpy dst src 0 ;; m) s = m s.
Proof. reflexivity. Qed.

(** ** clone and combine, byte by byte *)

Section RawProperties.
Context `{Target}.
Context (Alloc : idlist -> Type) `{!Allocator Alloc}.
Context (k : pool) `{!PoolAllocator Alloc k}.

Lemma clone_NULL T s : raw_pidl.clone Alloc T NULL s = (Ret NULL, s).
Proof. reflexivity. Qed.

Lemma clone_room T s pidl bs :
  heap_ok s -> pidl <> NULL -> pidl_bytes (heap s) pidl bs ->
  has_room s (Z.of_nat (length bs)) ->
  raw_pidl.clone Alloc T pidl s
  = (Ret (Ptr (fresh_block s) 0), with_block s (fresh_block s) k bs).
Proof.
  intros Hok Hnn Hb Hroom.
  destruct (pidl_bytes_size _ _ _ Hok Hb) as (Hsz & _ & _ & R).
  specialize (R Hnn).
  unfold raw_pidl.clone. destruct pidl as [|b off]; [congruence|].
  cbn [is_null]. cbv iota.
  rewrite (bind_Ret _ _ _ _ _ Hsz).
  rewrite (bind_Ret _ _ _ _ _
             (allocate_room Alloc k T _ s (Nat2Z.is_nonneg _) Hroom)).
  rewrite (bind_Ret _ _ _ tt
             (with_block s (fresh_block s) k
                (splice (replicate (Z.to_nat (Z.of_nat (length bs))) uninitialised)
                   (Z.to_nat 0) bs))).
  - unfold ret. do 2 f_equal.
    change (Z.to_nat 0) with 0%nat. rewrite splice_fresh by lia.
    replace (Z.to_nat (Z.of_nat (length bs)) - length bs)%nat with 0%nat by lia.
    apply app_nil_r.
  - apply memcpy_into_fresh; try assumption.
    + apply fresh_block_free.
    + lia.
    + rewrite length_replicate. lia.
Qed.

Lemma clone_no_room T s pidl bs :
  heap_ok s -> pidl <> NULL -> pidl_bytes (heap s) pidl bs ->
  ~ has_room s (Z.of_nat (length bs)) ->
  raw_pidl.clone Alloc T pidl s = (Throw, s).
Proof.
  intros Hok Hnn Hb Hroom.
  destruct (pidl_bytes_size _ _ _ Hok Hb) as (Hsz & _ & _ & _).
  unfold raw_pidl.clone. destruct pidl as [|b off]; [congruence|].
  cbn [is_null]. cbv iota.
  rewrite (bind_Ret _ _ _ _ _ Hsz).
  apply bind_Throw. apply (allocate_no_room Alloc k). assumption.
Qed.

Lemma combined_length lbs rbs :
  (lbs = [] \/ 2 <= length lbs)%nat -> (rbs = [] \/ 2 <= length rbs)%nat ->
  Z.of_nat (length (combined lbs rbs))
  = if negb (Z.of_nat (length lbs) =? 0) && negb (Z.of_nat (length rbs) =? 0)
    then Z.of_nat (length lbs) + Z.of_nat (length rbs) - 2
    else Z.of_nat (length lbs) + Z.of_nat (length rbs).
Proof.
  intros Hl Hr. unfold combined.
  destruct lbs as [|l0 lbs]; [simpl; lia|].
  destruct rbs as [|r0 rbs].
  - simpl length. rewrite andb_false_r. lia.
  - destruct Hl as [|Hl]; [discriminate|]. destruct Hr as [|Hr]; [discriminate|].
    rewrite length_app, length_take.
    destruct (Z.eqb_spec (Z.of_nat (length (l0 :: lbs))) 0); [simpl in *; lia|].
    destruct (Z.eqb_spec (Z.of_nat (length (r0 :: rbs))) 0); [simpl in *; lia|].
    simpl negb. simpl andb. cbv iota. lia.
Qed.

(** The length computed by [combine], the allocation and the two copies. *)
Lemma combine_run T U s lhs rhs lbs rbs dummy :
  heap_ok s ->
  pidl_bytes (heap s) lhs lbs -> pidl_bytes (heap s) rhs rbs ->
  ~ (lhs = NULL /\ rhs = NULL) ->
  (has_room s (Z.of_nat (length (combined lbs rbs))) ->
   raw_pidl.combine Alloc T U lhs rhs dummy s
   = (Ret (Ptr (fresh_block s) 0),
      with_block s (fresh_block s) k (combined lbs rbs))) /\
  (~ has_room s (Z.of_nat (length (combined lbs rbs))) ->
   raw_pidl.combine Alloc T U lhs rhs dummy s = (Throw, s)).
Proof.
  intros Hok Hl Hr Hnn.
  destruct (pidl_bytes_size _ _ _ Hok Hl) as (Hsl & Hml & H2l & Rl).
  destruct (pidl_bytes_size _ _ _ Hok Hr) as (Hsr & Hmr & H2r & Rr).
  pose proof size_t_mod_double as Hmod. pose proof PTRDIFF_MAX_big as Hbig.
  assert (Hlz : lbs = [] \/ (2 <= length lbs)%nat).
  { destruct lhs; [left; exact Hl | right]. specialize (H2l ltac:(congruence)). lia. }
  assert (Hrz : rbs = [] \/ (2 <= length rbs)%nat).
  { destruct rhs; [left; exact Hr | right]. specialize (H2r ltac:(congruence)). lia. }
  assert (Hsum : 2 <= Z.of_nat (length lbs) + Z.of_nat (length rbs)).
  { destruct lhs; destruct rhs; try (exfalso; apply Hnn; split; reflexivity);
      try specialize (H2l ltac:(congruence));
      try specialize (H2r ltac:(congruence)); lia. }
  pose proof (combined_length lbs rbs Hlz Hrz) as Hlen.
  set (ll := Z.of_nat (length lbs)) in *.
  set (rl := Z.of_nat (length rbs)) in *.
  assert (Hlz' : ll = 0 \/ 2 <= ll)
    by (destruct Hlz as [->|]; [left; reflexivity | right; subst ll; lia]).
  assert (Hrz' : rl = 0 \/ 2 <= rl)
    by (destruct Hrz as [->|]; [left; reflexivity | right; subst rl; lia]).
  assert (Hprefix :
    raw_pidl.combine Alloc T U lhs rhs dummy s
    = (mem <- allocate Alloc (raw_pidl.combine_type T)
                (Z.of_nat (length (combined lbs rbs))) ;;
       memcpy mem lhs ll ;;
       memcpy (skip mem (if negb (ll =? 0) then ll - 2 else ll)) rhs rl ;;
       ret mem) s).
  { unfold raw_pidl.combine.
    replace (is_null lhs && is_null rhs) with false
      by (destruct lhs, rhs; try reflexivity; exfalso; apply Hnn; auto).
    rewrite (bind_Ret _ _ _ _ _ Hsl). rewrite (bind_Ret _ _ _ _ _ Hsr).
    rewrite (size_t_add_small ll rl) by lia.
    rewrite (bind_Ret _ _ s tt s).
    2:{ unfold assert, sizeof_cb. destruct NDEBUG; [reflexivity|].
        destruct (Z.leb_spec 2 (ll + rl)); [reflexivity | lia]. }
    unfold rebind, sizeof_cb. rewrite Hlen.
    destruct (Z.eqb_spec ll 0) as [E0|E0]; destruct (Z.eqb_spec rl 0) as [E1|E1];
      cbn [negb andb]; cbv iota;
      rewrite ?size_t_sub_small by lia; rewrite ?Z.sub_0_r; reflexivity. }
  rewrite Hprefix. clear Hprefix. split.
  2:{ intros Hroom. apply bind_Throw. apply (allocate_no_room Alloc k).
      assumption. }
  intros Hroom.
  rewrite (bind_Ret _ _ _ _ _
             (allocate_room Alloc k _ _ s (Nat2Z.is_nonneg _) Hroom)).
  rewrite Nat2Z.id.
  pose proof (fresh_block_free s) as Hfresh.
  set (b := fresh_block s) in *.
  set (n := length (combined lbs rbs)) in *.
  destruct lhs as [|lb loff].
  - (* no left operand *)
    simpl in Hl. subst lbs. destruct rhs as [|rb roff]; [exfalso; auto|].
    specialize (Rr ltac:(congruence)). specialize (H2r ltac:(congruence)).
    change ll with 0 in *. rewrite memcpy_zero_bind.
    change (negb (0 =? 0)) with false. cbv iota. cbn [skip].
    rewrite (bind_Ret _ _ _ tt
               (with_block s b k
                  (splice (replicate n uninitialised) (Z.to_nat (0 + 0)) rbs))).
    + unfold ret. do 2 f_equal. change (Z.to_nat (0 + 0)) with 0%nat.
      unfold combined in *. rewrite splice_fresh by (subst n; lia).
      subst n. rewrite Nat.sub_diag. apply app_nil_r.
    + apply memcpy_into_fresh; try assumption; try lia.
      rewrite length_replicate. unfold combined in n. subst n rl. lia.
  - specialize (Rl ltac:(congruence)). specialize (H2l ltac:(congruence)).
    assert (Hn : (length lbs <= n)%nat).
    { subst n. apply Nat2Z.inj_le. rewrite Hlen.
      destruct (negb (ll =? 0) && negb (rl =? 0)) eqn:Eboth; [|lia].
      apply andb_prop in Eboth as [_ Er].
      destruct rhs; [simpl in Hr; subst rbs; discriminate|].
      specialize (H2r ltac:(congruence)). lia. }
    rewrite (bind_Ret _ _ _ tt
               (with_block s b k
                  (splice (replicate n uninitialised) (Z.to_nat 0) lbs))).
    2:{ apply memcpy_into_fresh; try assumption; try lia.
        rewrite length_replicate. lia. }
    change (Z.to_nat 0) with 0%nat. rewrite splice_fresh by assumption.
    destruct (Z.eqb_spec ll 0) as [E0|_]; [lia|]. simpl negb. cbv iota.
    cbn [skip].
    destruct rhs as [|rb roff].
    + (* no right operand *)
      simpl in Hr. subst rbs. change rl with 0 in *.
      rewrite memcpy_zero_bind. unfold ret. do 2 f_equal.
      assert (n = length lbs) as ->.
      { subst n. unfold combined. destruct lbs; reflexivity. }
      rewrite Nat.sub_diag. unfold combined. simpl replicate.
      rewrite app_nil_r. destruct lbs; reflexivity.
    + specialize (Rr ltac:(congruence)). specialize (H2r ltac:(congruence)).
      assert (Hn2 : Z.of_nat n = ll + rl - 2).
      { subst n. rewrite Hlen.
        destruct (Z.eqb_spec ll 0); [lia|].
        destruct (Z.eqb_spec rl 0); [lia|]. reflexivity. }
      rewrite (bind_Ret _ _ _ tt
                 (with_block s b k
                    (splice (lbs ++ replicate (n - length lbs) uninitialised)
                       (Z.to_nat (0 + (ll - 2))) rbs))).
      * unfold ret. do 2 f_equal.
        replace (Z.to_nat (0 + (ll - 2))) with (length lbs - 2)%nat by lia.
        rewrite splice_tail by lia.
        unfold combined. destruct lbs as [|l0 lbs]; [simpl in *; lia|].
        destruct rbs as [|r0 rbs]; [simpl in *; lia|]. reflexivity.
      * apply memcpy_into_fresh; try assumption; try lia.
        rewrite length_app, length_replicate. lia.
Qed.
End RawProperties.

(** ** Stored lists and their walks *)

Lemma byte_val_of_Z z : 0 <= z < 256 -> byte_val (byte_of_Z z) = z.
Proof.
  intros Hz. unfold byte_val, byte_of_Z.
  destruct (Byte.of_N (Z.to_N z)) as [x|] eqn:E.
  - apply Byte.to_of_N in E. lia.
  - apply Byte.of_N_None_iff in E. lia.
Qed.

Lemma decode_length_field cb rest :
  0 <= cb < 65536 -> decode_cb (length_field cb ++ rest) = Some cb.
Proof.
  intros Hcb. unfold length_field, decode_cb. simpl.
  rewrite !byte_val_of_Z.
  - f_equal. pose proof (Z.div_mod cb 256). lia.
  - split; [apply Z.div_pos; lia | apply Z.div_lt_upper_bound; lia].
  - apply Z.mod_pos_bound. lia.
Qed.

Lemma record_bytes_length payload :
  Z.of_nat (length (record_bytes payload)) = record_cb payload.
Proof.
  unfold record_bytes, record_cb, length_field. rewrite length_app. simpl. lia.
Qed.

Lemma idlist_bytes_cons r recs :
  idlist_bytes (r :: recs) = record_bytes r ++ idlist_bytes recs.
Proof.
  unfold idlist_bytes, records_bytes. simpl. rewrite app_assoc. reflexivity.
Qed.

Lemma records_bytes_app recs1 recs2 :
  records_bytes (recs1 ++ recs2) = records_bytes recs1 ++ records_bytes recs2.
Proof. unfold records_bytes. rewrite map_app, concat_app. reflexivity. Qed.

Lemma idlist_bytes_length recs :
  Z.of_nat (length (idlist_bytes recs))
  = sum_cb (map record_cb recs ++ [0]) + 2.
Proof.
  induction recs as [|r recs IH].
  - reflexivity.
  - rewrite idlist_bytes_cons, length_app, Nat2Z.inj_add, IH.
    rewrite record_bytes_length. simpl. lia.
Qed.

(** A stored list is walked record by record. *)
Lemma holds_walk h pidl recs :
  holds h pidl recs -> walk h pidl (map record_cb recs ++ [0]).
Proof.
  intros [Hok R]. revert pidl R.
  induction Hok as [|r recs Hr Hok IH]; intros pidl R.
  - apply walk_terminator. rewrite (load_cb_of_read _ _ _ _ R); [reflexivity|].
    simpl. lia.
  - rewrite idlist_bytes_cons in R.
    assert (Hcb : 0 <= record_cb r < 65536)
      by (unfold record_ok, record_cb in *; lia).
    pose proof (idlist_bytes_length recs) as Hlen.
    assert (0 <= sum_cb (map record_cb recs ++ [0])).
    { apply sum_cb_nonneg. apply Forall_app. split.
      - apply Forall_map. eapply List.Forall_impl; [|exact Hok].
        intros x Hx. unfold record_ok, record_cb in *. simpl. lia.
      - repeat constructor; lia. }
    simpl. apply walk_record.
    + rewrite (load_cb_of_read _ _ _ _ R).
      * unfold record_bytes. rewrite <- app_assoc. apply decode_length_field.
        assumption.
      * rewrite length_app, Nat2Z.inj_add, record_bytes_length. lia.
    + unfold record_cb. lia.
    + apply IH.
      pose proof (read_bytes_skip _ _ _ _ (record_cb r) R) as Rs.
      rewrite length_app, Nat2Z.inj_add, record_bytes_length in Rs.
      replace (record_cb r + Z.of_nat (length (idlist_bytes recs)) - record_cb r)
        with (Z.of_nat (length (idlist_bytes recs))) in Rs by lia.
      rewrite Rs by lia. f_equal.
      rewrite <- record_bytes_length, Nat2Z.id. apply drop_app_length.
Qed.

Lemma holds_not_NULL h recs : ~ holds h NULL recs.
Proof. intros [_ R]. discriminate. Qed.

Lemma holds_pidl_bytes h pidl recs :
  holds h pidl recs -> pidl_bytes h pidl (idlist_bytes recs).
Proof.
  intros Hh. pose proof (holds_walk _ _ _ Hh) as W. destruct Hh as [Hok R].
  destruct pidl as [|b off]; [discriminate|].
  exists (map record_cb recs ++ [0]). split; [assumption|].
  unfold sizeof_cb. rewrite <- idlist_bytes_length. assumption.
Qed.

Lemma combined_idlist recs1 recs2 :
  combined (idlist_bytes recs1) (idlist_bytes recs2)
  = idlist_bytes (recs1 ++ recs2).
Proof.
  unfold idlist_bytes at 3. rewrite records_bytes_app, <- app_assoc.
  fold (idlist_bytes recs2).
  assert (E : take (length (idlist_bytes recs1) - 2) (idlist_bytes recs1)
              = records_bytes recs1).
  { unfold idlist_bytes. rewrite length_app. simpl.
    replace (length (records_bytes recs1) + 2 - 2)%nat
      with (length (records_bytes recs1)) by lia.
    apply take_app_length. }
  rewrite <- E. unfold combined.
  destruct (idlist_bytes recs1) as [|l0 l1] eqn:E1.
  - unfold idlist_bytes in E1. destruct (records_bytes recs1); discriminate.
  - destruct (idlist_bytes recs2) as [|r0 r1] eqn:E2; [|reflexivity].
    unfold idlist_bytes in E2. destruct (records_bytes recs2); discriminate.
Qed.

Lemma byte_val_zero x : byte_val x = 0 -> x = x00.
Proof.
  unfold byte_val. intros E.
  assert (E0 : Byte.to_N x = 0%N) by lia.
  pose proof (Byte.of_to_N x) as E1. rewrite E0 in E1.
  simpl in E1. congruence.
Qed.

Lemma decode_cb_zero bs :
  length bs = 2%nat -> decode_cb bs = Some 0 -> bs = terminator.
Proof.
  destruct bs as [|lo [|hi [|? ?]]]; try discriminate. intros _.
  unfold decode_cb. intros E.
  assert (E' : byte_val lo + 256 * byte_val hi = 0) by congruence.
  pose proof (byte_val_range lo). pose proof (byte_val_range hi).
  rewrite (byte_val_zero lo) by lia. rewrite (byte_val_zero hi) by lia.
  reflexivity.
Qed.

(** The bytes of a PIDL end with a terminator. *)
Lemma walk_ends_with_terminator h pidl cbs :
  walk h pidl cbs ->
  forall bs,
    read_bytes h pidl (sum_cb cbs + 2) = Some bs ->
    drop (Z.to_nat (sum_cb cbs)) bs = terminator.
Proof.
  intros W. pose proof W as W0.
  induction W as [pidl Hcb | pidl cb cbs Hcb Hnz W IH]; intros bs R.
  - change (sum_cb [0]) with 0 in *. change (0 + 2) with 2 in R.
    change (Z.to_nat 0) with 0%nat. rewrite drop_0.
    rewrite (load_cb_of_read _ _ _ _ R) in Hcb by lia.
    destruct pidl as [|b off]; [discriminate|].
    apply read_bytes_Some in R as (_ & _ & _ & _ & _ & _ & _ & Hl).
    apply decode_cb_zero; [lia | assumption].
  - destruct pidl as [|b off]; [discriminate|].
    destruct (walk_bounds _ _ _ W0 b off eq_refl)
      as (_ & _ & _ & _ & _ & _ & Hpos & _).
    inversion Hpos as [|? ? Hcb0 Hpos']; subst.
    pose proof (sum_cb_nonneg _ Hpos') as Hs. simpl sum_cb in *.
    pose proof (read_bytes_skip _ _ _ _ cb R ltac:(lia)) as Rs.
    replace (cb + sum_cb cbs + 2 - cb) with (sum_cb cbs + 2) in Rs by lia.
    specialize (IH W _ Rs). rewrite drop_drop in IH.
    rewrite <- IH. f_equal. lia.
Qed.

Lemma pidl_bytes_ends_with_terminator h pidl bs :
  pidl <> NULL -> pidl_bytes h pidl bs ->
  exists body, bs = body ++ terminator.
Proof.
  intros Hnn Hb. destruct pidl as [|b off]; [congruence|].
  destruct Hb as (cbs & W & R). unfold sizeof_cb in R.
  exists (take (Z.to_nat (sum_cb cbs)) bs).
  rewrite <- (walk_ends_with_terminator _ _ _ W _ R).
  symmetry. apply take_drop.
Qed.

Lemma combined_nil_r lbs : combined lbs [] = lbs.
Proof. destruct lbs; reflexivity. Qed.

Lemma combined_nil_l rbs : combined [] rbs = rbs.
Proof. reflexivity. Qed.

Lemma combined_terminator_r body :
  combined (body ++ terminator) terminator = body ++ terminator.
Proof.
  unfold combined.
  destruct (body ++ terminator) as [|x l] eqn:E;
    [destruct body; discriminate|].
  rewrite <- E. unfold terminator at 2 3. f_equal.
  rewrite length_app. simpl.
  replace (length body + 2 - 2)%nat with (length body) by lia.
  apply take_app_length.
Qed.

Lemma combined_terminator_l body :
  combined terminator (body ++ terminator) = body ++ terminator.
Proof.
  unfold combined, terminator at 1.
  destruct (body ++ terminator) as [|x l] eqn:E;
    [destruct body; discriminate|].
  reflexivity.
Qed.

Lemma has_room_dec `{Target} s n : {has_room s n} + {~ has_room s n}.
Proof.
  unfold has_room.
  destruct (Z_le_dec n (avail s)); destruct (Z_le_dec n PTRDIFF_MAX);
    (left; split; assumption) || (right; intros [? ?]; contradiction).
Defined.

Lemma with_block_heap_ok `{Target} s b k data :
  heap_ok s -> Z.of_nat (length data) <= PTRDIFF_MAX ->
  heap_ok (with_block s b k data).
Proof.
  intros Hok Hd b' k' data'. unfold with_block. cbn [heap].
  rewrite lookup_insert. case_decide.
  - intros [= <- <-]. assumption.
  - apply Hok.
Qed.

Lemma read_whole_block h b k data :
  h !! b = Some (k, data) ->
  read_bytes h (Ptr b 0) (Z.of_nat (length data)) = Some data.
Proof.
  intros Hb. rewrite (read_bytes_intro _ _ _ _ k data) by (try assumption; lia).
  f_equal. change (Z.to_nat 0) with 0%nat. rewrite drop_0.
  apply take_ge. lia.
Qed.

(** C1: for lists stored at [lhs_pidl] and [rhs_pidl], with room to
    allocate, [combine] returns a fresh block of exactly
    [size(lhs) + size(rhs) - 2] bytes that holds the records of the left
    list followed by the records of the right list and one terminator.
    Its bytes are those of copying the [size(lhs)] left bytes to the front
    and then the [size(rhs)] right bytes to offset [size(lhs) - 2], over
    the left terminator. *)
Theorem combine_joins_records `{Target} (Alloc : idlist -> Type)
  `{!Allocator Alloc} (k : pool) `{!PoolAllocator Alloc k} (T U : idlist)
  (dummy : enable_if_c (raw_pidl.is_appendable U)) (s : state)
  (lhs_pidl rhs_pidl : pointer) (recs_l recs_r : list (list byte)) :
  heap_ok s ->
  holds (heap s) lhs_pidl recs_l ->
  holds (heap s) rhs_pidl recs_r ->
  has_room s (Z.of_nat (length (idlist_bytes (recs_l ++ recs_r)))) ->
  let lhs_len := Z.of_nat (length (idlist_bytes recs_l)) in
  let rhs_len := Z.of_nat (length (idlist_bytes recs_r)) in
  let mem := Ptr (fresh_block s) 0 in
  let s' := with_block s (fresh_block s) k (idlist_bytes (recs_l ++ recs_r)) in
  raw_pidl.size lhs_pidl s = (Ret lhs_len, s) /\
  raw_pidl.size rhs_pidl s = (Ret rhs_len, s) /\
  heap s !! fresh_block s = None /\
  raw_pidl.combine Alloc T U lhs_pidl rhs_pidl dummy s = (Ret mem, s') /\
  Z.of_nat (length (idlist_bytes (recs_l ++ recs_r))) = lhs_len + rhs_len - 2 /\
  idlist_bytes (recs_l ++ recs_r)
  = splice
      (idlist_bytes recs_l ++ replicate (Z.to_nat (rhs_len - 2)) uninitialised)
      (Z.to_nat (lhs_len - 2)) (idlist_bytes recs_r) /\
  drop (Z.to_nat (lhs_len - 2)) (idlist_bytes recs_l) = terminator /\
  holds (heap s') mem (recs_l ++ recs_r) /\
  raw_pidl.size mem s' = (Ret (lhs_len + rhs_len - 2), s').
Proof.
  intros Hok Hl Hr Hroom lhs_len rhs_len mem s'.
  pose proof (holds_pidl_bytes _ _ _ Hl) as Bl.
  pose proof (holds_pidl_bytes _ _ _ Hr) as Br.
  destruct (pidl_bytes_size _ _ _ Hok Bl) as (Hsl & _ & _ & _).
  destruct (pidl_bytes_size _ _ _ Hok Br) as (Hsr & _ & _ & _).
  assert (Hnn : ~ (lhs_pidl = NULL /\ rhs_pidl = NULL)).
  { intros [-> _]. eapply holds_not_NULL; eauto. }
  destruct (combine_run Alloc k T U s _ _ _ _ dummy Hok Bl Br Hnn) as [Hrun _].
  rewrite combined_idlist in Hrun. specialize (Hrun Hroom).
  assert (Hlen : Z.of_nat (length (idlist_bytes (recs_l ++ recs_r)))
                 = lhs_len + rhs_len - 2).
  { subst lhs_len rhs_len. unfold idlist_bytes.
    rewrite records_bytes_app, !length_app. simpl. lia. }
  assert (Hl2 : (length (idlist_bytes recs_l) - 2)%nat
                = length (records_bytes recs_l)).
  { unfold idlist_bytes. rewrite length_app. simpl. lia. }
  assert (Hs' : heap s' !! fresh_block s
                = Some (k, idlist_bytes (recs_l ++ recs_r))).
  { subst s'. unfold with_block. cbn [heap]. apply lookup_insert_eq. }
  assert (Hholds : holds (heap s') mem (recs_l ++ recs_r)).
  { split.
    - apply Forall_app. split; [apply Hl | apply Hr].
    - apply (read_whole_block _ _ k). assumption. }
  repeat split; try assumption.
  - apply fresh_block_free.
  - replace (Z.to_nat (lhs_len - 2)) with (length (idlist_bytes recs_l) - 2)%nat
      by (subst lhs_len; lia).
    rewrite splice_tail.
    + rewrite Hl2. unfold idlist_bytes at 2.
      rewrite take_app_length. unfold idlist_bytes at 1.
      rewrite records_bytes_app, <- app_assoc. reflexivity.
    + unfold idlist_bytes. rewrite length_app. simpl. lia.
    + subst rhs_len. unfold idlist_bytes. rewrite length_app. simpl. lia.
  - replace (Z.to_nat (lhs_len - 2)) with (length (records_bytes recs_l))
      by (subst lhs_len; lia).
    unfold idlist_bytes. apply drop_app_length.
  - apply Hholds.
  - apply Hholds.
  - rewrite <- Hlen.
    apply (pidl_bytes_size s' mem (idlist_bytes (recs_l ++ recs_r))).
    + subst s'. apply with_block_heap_ok; [assumption | apply Hroom].
    + apply holds_pidl_bytes. assumption.
Qed.

(** The same bytes somewhere else are the same PIDL. *)
Lemma pidl_bytes_copy h pidl bs h' pidl' :
  pidl <> NULL -> pidl_bytes h pidl bs ->
  read_bytes h' pidl' (Z.of_nat (length bs)) = Some bs ->
  pidl_bytes h' pidl' bs.
Proof.
  intros Hnn Hb R'. destruct pidl as [|b off]; [congruence|].
  destruct Hb as (cbs & W & R).
  assert (Hlen : Z.of_nat (length bs) = sum_cb cbs + sizeof_cb).
  { apply read_bytes_Some in R as (_ & _ & _ & _ & _ & _ & _ & Hl). exact Hl. }
  rewrite Hlen in R'.
  destruct pidl' as [|b' off']; [discriminate|].
  exists cbs. split; [|exact R'].
  exact (walk_transfer _ _ _ W bs h' (Ptr b' off') R R').
Qed.

Lemma clone_copies_in_place `{Target} (Alloc : idlist -> Type)
  `{!Allocator Alloc} (k : pool) `{!PoolAllocator Alloc k} T s pidl bs :
  heap_ok s -> pidl <> NULL -> pidl_bytes (heap s) pidl bs ->
  has_room s (Z.of_nat (length bs)) ->
  raw_pidl.clone Alloc T pidl s
  = (Ret (Ptr (fresh_block s) 0), with_block s (fresh_block s) k bs) /\
  pidl_bytes (heap (with_block s (fresh_block s) k bs))
    (Ptr (fresh_block s) 0) bs.
Proof.
  intros Hok Hnn Hb Hroom.
  split; [apply (clone_room Alloc k); assumption|].
  apply (pidl_bytes_copy (heap s) pidl); try assumption.
  apply (read_whole_block _ _ k). unfold with_block. cbn [heap].
  apply lookup_insert_eq.
Qed.

(** C6: [clone] of a null pointer is null and allocates nothing.  For a
    PIDL at a non-null pointer, [clone] allocates a block of exactly
    [size] bytes whose contents are the first [size] bytes of the source,
    whichever pool the source lives in and whichever allocator is used;
    when the allocator cannot provide the bytes, [std::bad_alloc] leaves
    and nothing has changed. *)
Theorem clone_copies_size_bytes `{Target} (Alloc : idlist -> Type)
  `{!Allocator Alloc} (k : pool) `{!PoolAllocator Alloc k} (T : idlist)
  (s : state) (pidl : pointer) (bs : list byte) :
  heap_ok s ->
  pidl <> NULL ->
  pidl_bytes (heap s) pidl bs ->
  let len := Z.of_nat (length bs) in
  let mem := Ptr (fresh_block s) 0 in
  raw_pidl.clone Alloc T NULL s = (Ret NULL, s) /\
  raw_pidl.size pidl s = (Ret len, s) /\
  read_bytes (heap s) pidl len = Some bs /\
  heap s !! fresh_block s = None /\
  (has_room s len ->
   raw_pidl.clone Alloc T pidl s
   = (Ret mem, with_block s (fresh_block s) k bs) /\
   heap (with_block s (fresh_block s) k bs) !! fresh_block s = Some (k, bs) /\
   read_bytes (heap (with_block s (fresh_block s) k bs)) mem len = Some bs /\
   pidl_bytes (heap (with_block s (fresh_block s) k bs)) mem bs) /\
  (~ has_room s len -> raw_pidl.clone Alloc T pidl s = (Throw, s)).
Proof.
  intros Hok Hnn Hb len mem.
  destruct (pidl_bytes_size _ _ _ Hok Hb) as (Hsz & _ & _ & R).
  split; [reflexivity|].
  split; [assumption|].
  split; [apply R; assumption|].
  split; [apply fresh_block_free|].
  split.
  - intros Hroom.
    assert (Hnew : heap (with_block s (fresh_block s) k bs) !! fresh_block s
                   = Some (k, bs))
      by (unfold with_block; cbn [heap]; apply lookup_insert_eq).
    split; [apply (clone_room Alloc k); assumption|].
    split; [assumption|].
    assert (Hread : read_bytes (heap (with_block s (fresh_block s) k bs)) mem len
                    = Some bs)
      by (apply (read_whole_block _ _ k); assumption).
    split; [assumption|].
    apply (pidl_bytes_copy (heap s) pidl); assumption.
  - intros Hroom. apply (clone_no_room Alloc k _ _ _ bs); assumption.
Qed.

(** C2, as the code has it: [combine(null, null)] is null and allocates
    nothing.  For every [L], null or not, [combine(L, null)] and
    [combine(null, L)] behave exactly as [clone(L)]; for every non-null [L]
    and every empty list [X], [combine(L, X)] and [combine(X, L)] behave
    exactly as [clone(L)]: same outcome, same new block, same bytes. *)
Theorem combine_identities `{Target} (Alloc : idlist -> Type)
  `{!Allocator Alloc} (k : pool) `{!PoolAllocator Alloc k} (TL TX : idlist)
  (dummyL : enable_if_c (raw_pidl.is_appendable TL))
  (dummyX : enable_if_c (raw_pidl.is_appendable TX))
  (s : state) (L X : pointer) (lbs : list byte) :
  heap_ok s ->
  pidl_bytes (heap s) L lbs ->
  X = NULL \/ (L <> NULL /\ pidl_bytes (heap s) X terminator) ->
  raw_pidl.combine Alloc TL TX NULL NULL dummyX s = (Ret NULL, s) /\
  raw_pidl.combine Alloc TL TX L X dummyX s = raw_pidl.clone Alloc TL L s /\
  raw_pidl.combine Alloc TX TL X L dummyL s = raw_pidl.clone Alloc TL L s /\
  (has_room s (Z.of_nat (length lbs)) ->
   byte_equivalent (raw_pidl.combine Alloc TL TX L X dummyX s)
     (raw_pidl.clone Alloc TL L s) /\
   byte_equivalent (raw_pidl.combine Alloc TX TL X L dummyL s)
     (raw_pidl.clone Alloc TL L s)).
Proof.
  intros Hok Hl HX. split; [reflexivity|].
  assert (Hclone : has_room s (Z.of_nat (length lbs)) ->
                   byte_equivalent (raw_pidl.clone Alloc TL L s)
                     (raw_pidl.clone Alloc TL L s)).
  { intros Hroom. destruct (decide (L = NULL)) as [->|Hnn].
    - simpl in Hl. subst lbs.
      exists NULL, s, NULL, s, []. repeat split; reflexivity.
    - destruct (clone_copies_in_place Alloc k TL s L lbs Hok Hnn Hl Hroom)
        as [E B].
      exists (Ptr (fresh_block s) 0), (with_block s (fresh_block s) k lbs),
        (Ptr (fresh_block s) 0), (with_block s (fresh_block s) k lbs), lbs.
      repeat split; assumption. }
  cut (raw_pidl.combine Alloc TL TX L X dummyX s = raw_pidl.clone Alloc TL L s /\
       raw_pidl.combine Alloc TX TL X L dummyL s = raw_pidl.clone Alloc TL L s).
  { intros [E1 E2]. split; [exact E1|]. split; [exact E2|].
    intros Hroom. rewrite E1, E2. split; apply Hclone; assumption. }
  clear Hclone.
  destruct (decide (L = NULL)) as [->|Hnn].
  - destruct HX as [->|[Hc _]]; [|congruence]. split; reflexivity.
  - assert (exists xbs, pidl_bytes (heap s) X xbs /\
                        combined lbs xbs = lbs /\ combined xbs lbs = lbs)
      as (xbs & Hx & E1 & E2).
    { destruct HX as [->|[_ Hx]].
      - exists []. split; [reflexivity|]. split; [apply combined_nil_r|].
        apply combined_nil_l.
      - exists terminator. split; [assumption|].
        destruct (pidl_bytes_ends_with_terminator _ _ _ Hnn Hl) as [body ->].
        split; [apply combined_terminator_r | apply combined_terminator_l]. }
    destruct (combine_run Alloc k TL TX s L X lbs xbs dummyX Hok Hl Hx)
      as [R1 N1]; [intros [? _]; contradiction|].
    destruct (combine_run Alloc k TX TL s X L xbs lbs dummyL Hok Hx Hl)
      as [R2 N2]; [intros [_ ?]; contradiction|].
    rewrite E1 in R1, N1. rewrite E2 in R2, N2.
    destruct (has_room_dec s (Z.of_nat (length lbs))) as [Hroom|Hroom].
    + rewrite (R1 Hroom), (R2 Hroom).
      rewrite (clone_room Alloc k TL s L lbs) by assumption.
      split; reflexivity.
    + rewrite (N1 Hroom), (N2 Hroom).
      rewrite (clone_no_room Alloc k TL s L lbs) by assumption.
      split; reflexivity.
Qed.

(** ** Wrappers: fields, construction, destruction *)

Lemma load_field_Some s l p :
  objs s !! l = Some p -> load_field l s = (Ret p, s).
Proof. intros E. unfold load_field. rewrite E. reflexivity. Qed.

Lemma store_field_Some s l p q :
  objs s !! l = Some p ->
  store_field l q s = (Ret tt, set_objs (<[l := q]> (objs s)) s).
Proof. intros E. unfold store_field. rewrite E. reflexivity. Qed.

Lemma load_field_inv s l p s' :
  load_field l s = (Ret p, s') -> objs s !! l = Some p /\ s' = s.
Proof.
  unfold load_field. destruct (objs s !! l); intros [= <- <-].
  split; reflexivity.
Qed.


Lemma nothrow_never_throws {A} (m : M A) s s' : nothrow m s <> (Throw, s').
Proof.
  unfold nothrow. destruct (m s) as [[x| | | |] s1]; discriminate.
Qed.

Lemma nothrow_Ret {A} (m : M A) s a s' :
  m s = (Ret a, s') -> nothrow m s = (Ret a, s').
Proof. intros E. unfold nothrow. rewrite E. reflexivity. Qed.

Lemma unwind_inv_Ret {A} (m : M A) cleanup s a s' :
  unwind m cleanup s = (Ret a, s') -> m s = (Ret a, s').
Proof.
  unfold unwind. destruct (m s) as [[x| | | |] s1]; intros E;
    try discriminate; try exact E.
  unfold bind in E. destruct (cleanup s1) as [[[]| | | |] s2]; discriminate.
Qed.

Lemma unwind_Ret {A} (m : M A) cleanup s a s' :
  m s = (Ret a, s') -> unwind m cleanup s = (Ret a, s').
Proof. intros E. unfold unwind. rewrite E. reflexivity. Qed.

Section WrapperBasics.
Context `{Target}.
Context (T : idlist) (Alloc : idlist -> Type) `{!Allocator Alloc}.


(** The pointer exchange of [swap]. *)
Lemma std_swap_exchanges s a b pa pb :
  objs s !! a = Some pa -> objs s !! b = Some pb ->
  basic_pidl.std_swap a b s
  = (Ret tt, set_objs (<[b := pa]> (<[a := pb]> (objs s))) s).
Proof.
  intros Ha Hb. unfold basic_pidl.std_swap.
  rewrite (bind_Ret _ _ _ _ _ (load_field_Some _ _ _ Ha)).
  rewrite (bind_Ret _ _ _ _ _ (load_field_Some _ _ _ Hb)).
  rewrite (bind_Ret _ _ _ _ _ (store_field_Some _ _ _ pb Ha)).
  assert (Hb' : objs (set_objs (<[a := pb]> (objs s)) s) !! b
                = Some (if decide (a = b) then pb else pb)).
  { cbn [objs set_objs]. rewrite lookup_insert. case_decide; [reflexivity|].
    assumption. }
  rewrite (store_field_Some _ _ _ pa Hb'). reflexivity.
Qed.

Lemma swap_same_allocator fuel this pidl s p1 p2 :
  alloc_eq (construct Alloc T) (construct Alloc T) = true ->
  objs s !! this = Some p1 -> objs s !! pidl = Some p2 ->
  basic_pidl.swap T Alloc (S fuel) this pidl s
  = (Ret tt, set_objs (<[this := p2]> (<[pidl := p1]> (objs s))) s).
Proof.
  intros Heq H1 H2. cbn [basic_pidl.swap]. unfold basic_pidl.m_allocator.
  rewrite Heq. apply nothrow_Ret. apply std_swap_exchanges; assumption.
Qed.

Lemma swap_twice fuel fuel' this pidl s p1 p2 :
  alloc_eq (construct Alloc T) (construct Alloc T) = true ->
  objs s !! this = Some p1 -> objs s !! pidl = Some p2 ->
  (basic_pidl.swap T Alloc (S fuel) this pidl ;;
   basic_pidl.swap T Alloc (S fuel') this pidl) s = (Ret tt, s).
Proof.
  intros Heq H1 H2.
  rewrite (bind_Ret _ _ _ _ _
             (swap_same_allocator fuel this pidl s p1 p2 Heq H1 H2)).
  set (s1 := set_objs (<[this := p2]> (<[pidl := p1]> (objs s))) s).
  assert (H1' : objs s1 !! this = Some p2)
    by (subst s1; cbn [objs set_objs]; apply lookup_insert_eq).
  assert (H2' : objs s1 !! pidl = Some (if decide (this = pidl) then p2 else p1)).
  { subst s1. cbn [objs set_objs]. rewrite lookup_insert. case_decide.
    - reflexivity.
    - apply lookup_insert_eq. }
  rewrite (swap_same_allocator fuel' this pidl s1 _ _ Heq H1' H2').
  f_equal. destruct s as [h a o]. subst s1. unfold set_objs.
  cbn [heap avail objs] in *. f_equal.
  apply map_eq. intros i. rewrite !lookup_insert.
  repeat case_decide; subst; congruence.
Qed.

End WrapperBasics.

(** X23: two allocators of the same kind compare equal whatever their
    element types (no comparison between kinds is defined),
    so for two wrappers of one wrapper type over [newdelete_alloc] or over
    [cotaskmem_alloc], [swap] exchanges the two [m_pidl] pointers, cannot
    fail, touches neither the heap nor the allocation budget, and applied
    twice restores the state. *)
Theorem swap_exchanges_pointers `{Target} (T U : idlist) (fuel fuel' : nat)
  (this pidl : loc) (s : state) (p1 p2 : pointer) :
  objs s !! this = Some p1 ->
  objs s !! pidl = Some p2 ->
  let s' := set_objs (<[this := p2]> (<[pidl := p1]> (objs s))) s in
  alloc_eq (newdelete_alloc_object T) (newdelete_alloc_object U) = true /\
  alloc_eq (cotaskmem_alloc_object T) (cotaskmem_alloc_object U) = true /\
  alloc_ne (newdelete_alloc_object T) (newdelete_alloc_object U) = false /\
  alloc_ne (cotaskmem_alloc_object T) (cotaskmem_alloc_object U) = false /\
  basic_pidl.swap T newdelete_alloc (S fuel) this pidl s = (Ret tt, s') /\
  basic_pidl.swap T cotaskmem_alloc (S fuel) this pidl s = (Ret tt, s') /\
  heap s' = heap s /\ avail s' = avail s /\
  objs s' !! this = Some p2 /\ objs s' !! pidl = Some p1 /\
  (forall l, l <> this -> l <> pidl -> objs s' !! l = objs s !! l) /\
  (basic_pidl.swap T newdelete_alloc (S fuel) this pidl ;;
   basic_pidl.swap T newdelete_alloc (S fuel') this pidl) s = (Ret tt, s) /\
  (basic_pidl.swap T cotaskmem_alloc (S fuel) this pidl ;;
   basic_pidl.swap T cotaskmem_alloc (S fuel') this pidl) s = (Ret tt, s).
Proof.
  intros H1 H2 s'.
  split; [reflexivity|]. split; [reflexivity|].
  split; [reflexivity|]. split; [reflexivity|].
  split; [apply swap_same_allocator; [reflexivity | assumption..]|].
  split; [apply swap_same_allocator; [reflexivity | assumption..]|].
  split; [reflexivity|]. split; [reflexivity|].
  split; [subst s'; cbn [objs set_objs]; apply lookup_insert_eq|].
  split.
  { subst s'. cbn [objs set_objs]. rewrite lookup_insert. case_decide.
    - subst. congruence.
    - apply lookup_insert_eq. }
  split.
  { intros l Hl1 Hl2. subst s'. cbn [objs set_objs].
    rewrite !lookup_insert_ne by congruence. reflexivity. }
  split; apply (swap_twice _ _ _ _ _ _ _ p1 p2); try assumption; reflexivity.
Qed.

(** ** Where an exception can come from *)

Section ThrowProperties.
Context `{Target}.

Lemma mkid_cb_never_throws pidl s s' :
  raw_pidl.mkid_cb pidl s = (Throw, s') -> False.
Proof.
  unfold raw_pidl.mkid_cb. destruct (load_cb (heap s) pidl); discriminate.
Qed.

Lemma size_loop_never_throws fuel :
  forall pidl acc s s', raw_pidl.size_loop fuel pidl acc s <> (Throw, s').
Proof.
  induction fuel as [|fuel IH]; intros pidl acc s s' E; [discriminate|].
  simpl in E.
  apply bind_inv_Throw in E as [E|(cb & s1 & E1 & E)];
    [apply mkid_cb_never_throws in E; contradiction|].
  destruct (cb =? 0); [discriminate|].
  apply bind_inv_Throw in E as [E|(cb' & s2 & E2 & E)];
    [apply mkid_cb_never_throws in E; contradiction|].
  apply bind_inv_Throw in E as [E|(pidl' & s3 & E3 & E)].
  - unfold raw_pidl.next in E.
    apply bind_inv_Throw in E as [E|(cb2 & s4 & E4 & E)];
      [apply mkid_cb_never_throws in E; contradiction | discriminate].
  - exact (IH _ _ _ _ E).
Qed.

Lemma size_never_throws pidl s s' : raw_pidl.size pidl s <> (Throw, s').
Proof.
  unfold raw_pidl.size. destruct pidl; [discriminate|].
  apply size_loop_never_throws.
Qed.

Lemma memcpy_never_throws dst src n s s' : memcpy dst src n s <> (Throw, s').
Proof.
  unfold memcpy. destruct (n =? 0); [discriminate|].
  destruct (ranges_overlap dst src n); [discriminate|].
  destruct (read_bytes (heap s) src n); [|discriminate].
  destruct (write_bytes (heap s) dst l); discriminate.
Qed.

Lemma load_field_never_throws l s s' : load_field l s <> (Throw, s').
Proof. unfold load_field. destruct (objs s !! l); discriminate. Qed.

Context (Alloc : idlist -> Type) `{!Allocator Alloc}.
Context (k : pool) `{!PoolAllocator Alloc k}.

Lemma allocate_throw_unchanged T n s s' :
  allocate Alloc T n s = (Throw, s') -> s' = s.
Proof.
  rewrite allocate_pool. destruct (sys_alloc k n s) as [[p s1]|].
  - discriminate.
  - intros [= <-]. reflexivity.
Qed.

(** A [clone] that throws has changed nothing. *)
Lemma clone_throw_unchanged T pidl s s' :
  raw_pidl.clone Alloc T pidl s = (Throw, s') -> s' = s.
Proof.
  unfold raw_pidl.clone. destruct (is_null pidl); [discriminate|].
  intros E. apply bind_inv_Throw in E as [E|(len & s1 & E1 & E)].
  { exfalso. eapply size_never_throws; eauto. }
  apply size_inv in E1 as [-> _].
  apply bind_inv_Throw in E as [E|(mem & s1 & E1 & E)].
  { eapply allocate_throw_unchanged; eauto. }
  exfalso.
  apply bind_inv_Throw in E as [E|([] & s2 & E2 & E)].
  - eapply memcpy_never_throws; eauto.
  - discriminate.
Qed.

Lemma ctor_raw_throw_unchanged T raw s s' :
  basic_pidl.ctor_raw T Alloc raw s = (Throw, s') -> s' = s.
Proof.
  unfold basic_pidl.ctor_raw. intros E.
  apply bind_inv_Throw in E as [E|(mem & s1 & E1 & E)].
  - eapply clone_throw_unchanged; eauto.
  - discriminate.
Qed.

Lemma ctor_copy_throw_unchanged T pidl s s' :
  basic_pidl.ctor_copy T Alloc pidl s = (Throw, s') -> s' = s.
Proof.
  unfold basic_pidl.ctor_copy. intros E.
  apply bind_inv_Throw in E as [E|(p & s1 & E1 & E)].
  - exfalso. eapply load_field_never_throws; eauto.
  - apply load_field_inv in E1 as [_ ->].
    apply (ctor_raw_throw_unchanged T p). exact E.
Qed.

Lemma dtor_never_throws T l s s' : basic_pidl.dtor T Alloc l s <> (Throw, s').
Proof.
  unfold basic_pidl.dtor. intros E.
  apply bind_inv_Throw in E as [E|([] & s1 & E1 & E)].
  - eapply nothrow_never_throws; eauto.
  - discriminate.
Qed.

Lemma swap_never_throws T fuel this pidl s s' :
  basic_pidl.swap T Alloc fuel this pidl s <> (Throw, s').
Proof.
  destruct fuel; [discriminate|]. cbn [basic_pidl.swap].
  apply nothrow_never_throws.
Qed.

(** A local whose body cannot throw: an exception out of the block comes
    from the local's construction. *)
Lemma with_local_throw {B} T init (body : loc -> M B) s s' :
  (forall l s1 s2, body l s1 <> (Throw, s2)) ->
  basic_pidl.with_local T Alloc init body s = (Throw, s') ->
  init s = (Throw, s').
Proof.
  intros Hbody E. unfold basic_pidl.with_local in E.
  apply bind_inv_Throw in E as [E|(l & s1 & E1 & E)]; [exact E|].
  exfalso.
  apply bind_inv_Throw in E as [E|(b & s2 & E2 & E)].
  - unfold unwind in E. destruct (body l s1) as [[x| | | |] s2] eqn:Eb;
      try discriminate.
    eapply Hbody; eauto.
  - apply bind_inv_Throw in E as [E|([] & s3 & E3 & E)].
    + eapply dtor_never_throws; eauto.
    + discriminate.
Qed.

(** The strong guarantee of both assignment operators: when an exception
    leaves, the state is the one the assignment started from. *)
Lemma assign_raw_throw_unchanged T fuel this raw s s' :
  basic_pidl.assign_raw T Alloc fuel this raw s = (Throw, s') -> s' = s.
Proof.
  unfold basic_pidl.assign_raw, basic_pidl.assign_raw_with. intros E.
  apply bind_inv_Throw in E as [E|([] & s1 & E1 & E)]; [|discriminate].
  apply with_local_throw in E.
  - eapply ctor_raw_throw_unchanged; eauto.
  - intros l s1 s2. apply swap_never_throws.
Qed.

Lemma assign_throw_unchanged T fuel this pidl s s' :
  basic_pidl.assign T Alloc fuel this pidl s = (Throw, s') -> s' = s.
Proof.
  unfold basic_pidl.assign, basic_pidl.assign_with. intros E.
  apply bind_inv_Throw in E as [E|([] & s1 & E1 & E)]; [|discriminate].
  apply with_local_throw in E.
  - eapply ctor_copy_throw_unchanged; eauto.
  - intros l s1 s2. apply swap_never_throws.
Qed.

Lemma assign_as_assign_raw T fuel this pidl s src :
  objs s !! pidl = Some src ->
  basic_pidl.assign T Alloc fuel this pidl s
  = basic_pidl.assign_raw T Alloc fuel this src s.
Proof.
  intros Hsrc.
  unfold basic_pidl.assign, basic_pidl.assign_raw, basic_pidl.assign_with,
    basic_pidl.assign_raw_with, basic_pidl.with_local.
  unfold bind at 1 2. unfold bind at 3 4.
  unfold basic_pidl.ctor_copy.
  rewrite (bind_Ret _ _ _ _ _ (load_field_Some _ _ _ Hsrc)).
  reflexivity.
Qed.
End ThrowProperties.

(** ** The copying branch of swap *)





Section SwapBudget.
Context `{Target}.
Context (T : idlist) (Alloc : idlist -> Type) `{!Allocator Alloc}.




End SwapBudget.


(** ** Releasing what a wrapper owns *)

Lemma fresh_loc_free s : objs s !! fresh_loc s = None.
Proof.
  unfold fresh_loc. apply (not_elem_of_dom (D := gset loc)).
  exact (is_fresh (dom (objs s))).
Qed.

Lemma set_objs_set_objs o o' s : set_objs o (set_objs o' s) = set_objs o s.
Proof. reflexivity. Qed.

Lemma released_set_objs p o s :
  released p (set_objs o s) = set_objs o (released p s).
Proof.
  destruct p as [|b off]; [reflexivity|]. unfold released. cbn [heap set_objs].
  destruct (heap s !! b) as [[k data]|]; reflexivity.
Qed.

Lemma heap_released s b off k data :
  heap s !! b = Some (k, data) ->
  heap (released (Ptr b off) s) = delete b (heap s).
Proof. intros Hb. unfold released. rewrite Hb. reflexivity. Qed.

Lemma sys_free_owned k s p :
  owned k s p -> sys_free k p s = (Ret tt, released p s).
Proof.
  destruct p as [|b off]; [reflexivity|]. intros [-> [data Hb]].
  unfold sys_free, released. rewrite Hb.
  rewrite bool_decide_eq_true_2 by reflexivity. reflexivity.
Qed.

Lemma owned_with_block k s p b k' data :
  heap s !! b = None -> owned k s p -> owned k (with_block s b k' data) p.
Proof.
  intros Hb. destruct p as [|pb off]; [trivial|]. intros [-> [d Hp]].
  split; [reflexivity|]. exists d. unfold with_block. cbn [heap].
  rewrite lookup_insert_ne by congruence. assumption.
Qed.

Section WrapperProperties.
Context `{Target}.
Context (Alloc : idlist -> Type) `{!Allocator Alloc}.
Context (k : pool) `{!PoolAllocator Alloc k}.

Lemma dtor_owned T l s p :
  objs s !! l = Some p -> owned k s p ->
  basic_pidl.dtor T Alloc l s
  = (Ret tt, set_objs (delete l (objs s)) (released p s)).
Proof.
  intros Hl Ho. unfold basic_pidl.dtor.
  rewrite (bind_Ret _ _ s tt (released p s)).
  - unfold delete_object. f_equal. f_equal.
    destruct p as [|b off]; [reflexivity|]. unfold released.
    destruct (heap s !! b) as [[k' data]|]; reflexivity.
  - apply nothrow_Ret.
    rewrite (bind_Ret _ _ _ _ _ (load_field_Some _ _ _ Hl)).
    rewrite deallocate_pool. apply sys_free_owned. assumption.
Qed.

Lemma ctor_raw_room T s raw bs :
  heap_ok s -> raw <> NULL -> pidl_bytes (heap s) raw bs ->
  has_room s (Z.of_nat (length bs)) ->
  basic_pidl.ctor_raw T Alloc raw s
  = (Ret (fresh_loc s),
     set_objs (<[fresh_loc s := Ptr (fresh_block s) 0]> (objs s))
       (with_block s (fresh_block s) k bs)).
Proof.
  intros Hok Hnn Hb Hroom. unfold basic_pidl.ctor_raw.
  rewrite (bind_Ret _ _ _ _ _ (clone_room Alloc k T s raw bs Hok Hnn Hb Hroom)).
  reflexivity.
Qed.

Lemma ctor_raw_NULL T s :
  basic_pidl.ctor_raw T Alloc NULL s
  = (Ret (fresh_loc s), set_objs (<[fresh_loc s := NULL]> (objs s)) s).
Proof. reflexivity. Qed.

Lemma ctor_raw_no_room T s raw bs :
  heap_ok s -> raw <> NULL -> pidl_bytes (heap s) raw bs ->
  ~ has_room s (Z.of_nat (length bs)) ->
  basic_pidl.ctor_raw T Alloc raw s = (Throw, s).
Proof.
  intros Hok Hnn Hb Hroom. unfold basic_pidl.ctor_raw.
  apply bind_Throw. apply (clone_no_room Alloc k T s raw bs); assumption.
Qed.

(** Installing a freshly constructed copy [l] that holds [new] into
    [this] and destroying the copy. *)
Lemma install_copy T fuel this old new s0 :
  alloc_eq (construct Alloc T) (construct Alloc T) = true ->
  objs s0 !! this = Some old ->
  objs s0 !! fresh_loc s0 = None ->
  forall s1,
    owned k s1 old ->
    (b <- unwind
            (basic_pidl.swap T Alloc (S fuel) this (fresh_loc s0))
            (basic_pidl.dtor T Alloc (fresh_loc s0)) ;;
     basic_pidl.dtor T Alloc (fresh_loc s0) ;;
     ret b)
      (set_objs (<[fresh_loc s0 := new]> (objs s0)) s1)
    = (Ret tt, set_objs (<[this := new]> (objs s0)) (released old s1)).
Proof.
  intros Heq Hthis Hfresh s1 Hown.
  set (l := fresh_loc s0) in *.
  assert (Hne : l <> this) by congruence.
  set (sa := set_objs (<[l := new]> (objs s0)) s1).
  assert (Ha1 : objs sa !! this = Some old)
    by (subst sa; cbn [objs set_objs]; rewrite lookup_insert_ne; assumption).
  assert (Ha2 : objs sa !! l = Some new)
    by (subst sa; cbn [objs set_objs]; apply lookup_insert_eq).
  rewrite (bind_Ret _ _ _ _ _
             (unwind_Ret _ _ _ _ _
                (swap_same_allocator T Alloc fuel this l sa old new Heq Ha1 Ha2))).
  set (sb := set_objs (<[this := new]> (<[l := old]> (objs sa))) sa).
  assert (Hb1 : objs sb !! l = Some old).
  { subst sb. cbn [objs set_objs]. rewrite lookup_insert_ne by congruence.
    apply lookup_insert_eq. }
  assert (Hb2 : owned k sb old).
  { subst sb sa. destruct old as [|ob off]; [exact I|].
    destruct Hown as [-> Hd]. split; [reflexivity|]. exact Hd. }
  rewrite (bind_Ret _ _ _ _ _ (dtor_owned T l sb old Hb1 Hb2)).
  unfold ret. f_equal. subst sb sa.
  rewrite !released_set_objs, !set_objs_set_objs. cbn [objs set_objs].
  f_equal.
  rewrite delete_insert_ne by assumption.
  rewrite insert_insert_eq. rewrite delete_insert_id by assumption.
  reflexivity.
Qed.

Lemma assign_raw_installs T fuel this raw s old bs :
  alloc_eq (construct Alloc T) (construct Alloc T) = true ->
  heap_ok s -> objs s !! this = Some old -> owned k s old ->
  raw <> NULL -> pidl_bytes (heap s) raw bs ->
  has_room s (Z.of_nat (length bs)) ->
  basic_pidl.assign_raw T Alloc (S fuel) this raw s
  = (Ret this,
     set_objs (<[this := Ptr (fresh_block s) 0]> (objs s))
       (released old (with_block s (fresh_block s) k bs))).
Proof.
  intros Heq Hok Hthis Hown Hnn Hb Hroom.
  unfold basic_pidl.assign_raw, basic_pidl.assign_raw_with,
    basic_pidl.with_local.
  rewrite (bind_Ret _ _ s tt
             (set_objs (<[this := Ptr (fresh_block s) 0]> (objs s))
                (released old (with_block s (fresh_block s) k bs))));
    [reflexivity|].
  rewrite (bind_Ret _ _ _ _ _ (ctor_raw_room T s raw bs Hok Hnn Hb Hroom)).
  apply (install_copy T fuel this old _ s); try assumption.
  - apply fresh_loc_free.
  - apply owned_with_block; [apply fresh_block_free | assumption].
Qed.

Lemma assign_raw_NULL T fuel this s old :
  alloc_eq (construct Alloc T) (construct Alloc T) = true ->
  objs s !! this = Some old -> owned k s old ->
  basic_pidl.assign_raw T Alloc (S fuel) this NULL s
  = (Ret this, set_objs (<[this := NULL]> (objs s)) (released old s)).
Proof.
  intros Heq Hthis Hown.
  unfold basic_pidl.assign_raw, basic_pidl.assign_raw_with,
    basic_pidl.with_local.
  rewrite (bind_Ret _ _ s tt
             (set_objs (<[this := NULL]> (objs s)) (released old s)));
    [reflexivity|].
  rewrite (bind_Ret _ _ _ _ _ (ctor_raw_NULL T s)).
  apply (install_copy T fuel this old _ s); try assumption.
  apply fresh_loc_free.
Qed.

Lemma assign_raw_no_room T fuel this raw s bs :
  heap_ok s -> raw <> NULL -> pidl_bytes (heap s) raw bs ->
  ~ has_room s (Z.of_nat (length bs)) ->
  basic_pidl.assign_raw T Alloc fuel this raw s = (Throw, s).
Proof.
  intros Hok Hnn Hb Hroom.
  unfold basic_pidl.assign_raw, basic_pidl.assign_raw_with,
    basic_pidl.with_local.
  apply bind_Throw. apply bind_Throw.
  apply (ctor_raw_no_room T s raw bs); assumption.
Qed.
End WrapperProperties.

(** C8: both assignment operators build the copy first and swap it in
    afterwards.  Whatever the state, an exception that leaves an
    assignment leaves the state exactly as it was.  When the allocator
    cannot provide the bytes of the source, [std::bad_alloc] leaves and
    nothing has changed; when it can, the destination ends up holding a
    fresh block with the bytes of the source, and its old block has gone
    back to the pool. *)
Theorem assignment_copies_then_swaps `{Target} (Alloc : idlist -> Type)
  `{!Allocator Alloc} (k : pool) `{!PoolAllocator Alloc k} (T : idlist)
  (fuel : nat) (this pidl : loc) (s : state) (old src : pointer)
  (bs : list byte) :
  alloc_eq (construct Alloc T) (construct Alloc T) = true ->
  heap_ok s ->
  objs s !! this = Some old -> owned k s old ->
  objs s !! pidl = Some src -> src <> NULL -> pidl_bytes (heap s) src bs ->
  let len := Z.of_nat (length bs) in
  let b := fresh_block s in
  let s' := set_objs (<[this := Ptr b 0]> (objs s))
              (released old (with_block s b k bs)) in
  (forall f s1,
     basic_pidl.assign T Alloc f this pidl s = (Throw, s1) -> s1 = s) /\
  (forall f s1,
     basic_pidl.assign_raw T Alloc f this src s = (Throw, s1) -> s1 = s) /\
  (~ has_room s len ->
   basic_pidl.assign T Alloc (S fuel) this pidl s = (Throw, s) /\
   basic_pidl.assign_raw T Alloc (S fuel) this src s = (Throw, s)) /\
  (has_room s len ->
   basic_pidl.assign T Alloc (S fuel) this pidl s = (Ret this, s') /\
   basic_pidl.assign_raw T Alloc (S fuel) this src s = (Ret this, s') /\
   heap s !! b = None /\
   objs s' !! this = Some (Ptr b 0) /\
   heap s' !! b = Some (k, bs) /\
   (forall l, l <> this -> objs s' !! l = objs s !! l)).
Proof.
  intros Heq Hok Hthis Hown Hpidl Hnn Hb len b s'.
  split; [intros f s1; apply (assign_throw_unchanged Alloc k)|].
  split; [intros f s1; apply (assign_raw_throw_unchanged Alloc k)|].
  split.
  - intros Hroom. rewrite (assign_as_assign_raw Alloc T _ this pidl s src Hpidl).
    split; apply (assign_raw_no_room Alloc k T _ this src s bs); assumption.
  - intros Hroom. rewrite (assign_as_assign_raw Alloc T _ this pidl s src Hpidl).
    pose proof (fresh_block_free s) as Hfresh. fold b in Hfresh.
    split; [apply (assign_raw_installs Alloc k); assumption|].
    split; [apply (assign_raw_installs Alloc k); assumption|].
    split; [assumption|].
    split; [subst s'; cbn [objs set_objs]; apply lookup_insert_eq|].
    split.
    + subst s'. cbn [heap set_objs].
      destruct old as [|ob off].
      * unfold released, with_block. cbn [heap]. apply lookup_insert_eq.
      * destruct Hown as [-> [odata Hob]].
        assert (ob <> b) by congruence.
        unfold released, with_block. cbn [heap].
        rewrite lookup_insert_ne by congruence. rewrite Hob. cbn [heap].
        rewrite lookup_delete_ne by congruence. apply lookup_insert_eq.
    + intros l Hl. subst s'. cbn [objs set_objs].
      rewrite lookup_insert_ne by congruence. reflexivity.
Qed.

(** ** operator+ *)

Section JoinProperties.
Context `{Target}.
Context (Alloc : idlist -> Type) `{!Allocator Alloc}.
Context (k : pool) `{!PoolAllocator Alloc k}.

Lemma join_unfold T U lw rw dummy :
  join Alloc T U lw rw dummy
  = basic_pidl.return_local (raw_pidl.combine_type T) Alloc
      basic_pidl.ctor (join_body Alloc T U lw rw dummy).
Proof. reflexivity. Qed.

Lemma attach_fresh T l mem s :
  objs s !! l = Some NULL -> mem <> NULL ->
  basic_pidl.attach T Alloc l mem s
  = (Ret l, set_objs (<[l := mem]> (objs s)) s).
Proof.
  intros Hl Hnn. unfold basic_pidl.attach.
  rewrite (bind_Ret _ _ _ _ _ (load_field_Some _ _ _ Hl)).
  rewrite (bind_Ret _ _ s tt s).
  2:{ unfold assert. destruct NDEBUG; [reflexivity|].
      rewrite bool_decide_eq_false_2 by congruence. reflexivity. }
  rewrite (bind_Ret _ _ s tt s)
    by (rewrite deallocate_pool; reflexivity).
  rewrite (bind_Ret _ _ _ _ _ (store_field_Some _ _ _ mem Hl)).
  reflexivity.
Qed.

(** The body on a local [l] that was just default-constructed. *)
Lemma join_body_run T U lw rw dummy s lhs rhs lbs rbs :
  heap_ok s ->
  objs s !! lw = Some lhs -> objs s !! rw = Some rhs ->
  pidl_bytes (heap s) lhs lbs -> pidl_bytes (heap s) rhs rbs ->
  ~ (lhs = NULL /\ rhs = NULL) ->
  let l := fresh_loc s in
  let s1 := set_objs (<[l := NULL]> (objs s)) s in
  let data := combined lbs rbs in
  (has_room s (Z.of_nat (length data)) ->
   join_body Alloc T U lw rw dummy l s1
   = (Ret tt,
      set_objs (<[l := Ptr (fresh_block s) 0]> (objs s))
        (with_block s (fresh_block s) k data))) /\
  (~ has_room s (Z.of_nat (length data)) ->
   join_body Alloc T U lw rw dummy l s1 = (Throw, s1)).
Proof.
  intros Hok Hlw Hrw Hl Hr Hnn l s1 data.
  pose proof (fresh_loc_free s) as Hfresh. fold l in Hfresh.
  assert (Hlw1 : objs s1 !! lw = Some lhs).
  { subst s1. cbn [objs set_objs]. rewrite lookup_insert_ne by congruence.
    assumption. }
  assert (Hrw1 : objs s1 !! rw = Some rhs).
  { subst s1. cbn [objs set_objs]. rewrite lookup_insert_ne by congruence.
    assumption. }
  assert (Hok1 : heap_ok s1) by exact Hok.
  destruct (combine_run Alloc k T U s1 lhs rhs lbs rbs dummy Hok1 Hl Hr Hnn)
    as [Hrun Hthrow].
  unfold join_body, basic_pidl.get.
  rewrite (bind_Ret _ _ _ _ _ (load_field_Some _ _ _ Hlw1)).
  rewrite (bind_Ret _ _ _ _ _ (load_field_Some _ _ _ Hrw1)).
  split; intros Hroom.
  - rewrite (bind_Ret _ _ _ _ _ (Hrun Hroom)).
    rewrite (bind_Ret _ _ _ l
               (set_objs (<[l := Ptr (fresh_block s) 0]> (objs s))
                  (with_block s (fresh_block s) k data))); [reflexivity|].
    rewrite attach_fresh.
    + f_equal. subst s1. unfold with_block, set_objs, fresh_block.
      cbn [heap avail objs]. rewrite insert_insert_eq. reflexivity.
    + unfold with_block. cbn [objs]. subst s1. cbn [objs set_objs].
      apply lookup_insert_eq.
    + discriminate.
  - apply bind_Throw. apply Hthrow. exact Hroom.
Qed.
End JoinProperties.

(** ** What a returning clone, combine or operator+ has done *)

Section Returns.
Context `{Target}.
Context (Alloc : idlist -> Type) `{!Allocator Alloc}.
Context (k : pool) `{!PoolAllocator Alloc k}.

Lemma size_returns_bytes s pidl n s' :
  raw_pidl.size pidl s = (Ret n, s') ->
  exists bs, pidl_bytes (heap s) pidl bs.
Proof.
  intros E. apply size_inv in E as [_ [[-> _]|[cbs W]]].
  - exists []. reflexivity.
  - eapply pidl_bytes_walk; eauto.
Qed.

Lemma clone_returns T s pidl mem s' :
  heap_ok s -> pidl <> NULL ->
  raw_pidl.clone Alloc T pidl s = (Ret mem, s') ->
  exists bs,
    pidl_bytes (heap s) pidl bs /\
    has_room s (Z.of_nat (length bs)) /\
    mem = Ptr (fresh_block s) 0 /\
    s' = with_block s (fresh_block s) k bs.
Proof.
  intros Hok Hnn E.
  assert (exists bs, pidl_bytes (heap s) pidl bs) as [bs Hb].
  { unfold raw_pidl.clone in E. destruct pidl as [|b off]; [congruence|].
    cbn [is_null] in E. cbv iota in E.
    apply bind_inv_Ret in E as (len & s1 & E1 & _).
    eapply size_returns_bytes; eauto. }
  exists bs. split; [assumption|].
  destruct (has_room_dec s (Z.of_nat (length bs))) as [Hroom|Hroom].
  - rewrite (clone_room Alloc k T s pidl bs Hok Hnn Hb Hroom) in E.
    injection E as <- <-. split; [assumption|]. split; reflexivity.
  - rewrite (clone_no_room Alloc k T s pidl bs Hok Hnn Hb Hroom) in E.
    discriminate.
Qed.

Lemma combine_returns T U dummy s lhs rhs mem s' :
  heap_ok s ->
  raw_pidl.combine Alloc T U lhs rhs dummy s = (Ret mem, s') ->
  mem <> NULL ->
  exists lbs rbs,
    pidl_bytes (heap s) lhs lbs /\ pidl_bytes (heap s) rhs rbs /\
    ~ (lhs = NULL /\ rhs = NULL) /\
    has_room s (Z.of_nat (length (combined lbs rbs))) /\
    mem = Ptr (fresh_block s) 0 /\
    s' = with_block s (fresh_block s) k (combined lbs rbs).
Proof.
  intros Hok E Hmem.
  assert (Hnn : ~ (lhs = NULL /\ rhs = NULL)).
  { intros [-> ->]. cbn in E. injection E as <- _. congruence. }
  assert (exists lbs rbs,
             pidl_bytes (heap s) lhs lbs /\ pidl_bytes (heap s) rhs rbs)
    as (lbs & rbs & Hl & Hr).
  { unfold raw_pidl.combine in E.
    replace (is_null lhs && is_null rhs) with false in E
      by (destruct lhs, rhs; try reflexivity; exfalso; apply Hnn; auto).
    apply bind_inv_Ret in E as (ll & s1 & E1 & E).
    pose proof E1 as E1'. apply size_inv in E1' as [-> _].
    apply bind_inv_Ret in E as (rl & s2 & E2 & _).
    apply size_returns_bytes in E1 as [lbs Hl].
    apply size_returns_bytes in E2 as [rbs Hr].
    eauto. }
  exists lbs, rbs.
  destruct (combine_run Alloc k T U s lhs rhs lbs rbs dummy Hok Hl Hr Hnn)
    as [Hrun Hthrow].
  destruct (has_room_dec s (Z.of_nat (length (combined lbs rbs))))
    as [Hroom|Hroom].
  - rewrite (Hrun Hroom) in E. injection E as <- <-.
    repeat (split; [assumption|]). split; reflexivity.
  - rewrite (Hthrow Hroom) in E. discriminate.
Qed.

(** A pointer into a block that is live in [s] is not the fresh block. *)
Lemma pidl_bytes_not_fresh s pidl bs :
  pidl_bytes (heap s) pidl bs -> pidl <> Ptr (fresh_block s) 0.
Proof.
  intros Hb ->. destruct Hb as (cbs & W & _).
  destruct (walk_bounds _ _ _ W _ _ eq_refl) as (k' & data & Hlive & _).
  rewrite fresh_block_free in Hlive. discriminate.
Qed.

(** [operator+] on operands of which at least one is not null. *)
Lemma join_returns T U dummy s lw rw lhs rhs lbs rbs w sj :
  heap_ok s ->
  objs s !! lw = Some lhs -> objs s !! rw = Some rhs ->
  pidl_bytes (heap s) lhs lbs -> pidl_bytes (heap s) rhs rbs ->
  ~ (lhs = NULL /\ rhs = NULL) ->
  has_room s (Z.of_nat (length (combined lbs rbs))) ->
  join Alloc T U lw rw dummy s = (Ret w, sj) ->
  objs s !! w = None /\
  objs sj !! lw = Some lhs /\ objs sj !! rw = Some rhs /\
  (forall b', is_Some (heap s !! b') -> heap sj !! b' = heap s !! b') /\
  exists bw dataw,
    objs sj !! w = Some (Ptr bw 0) /\
    heap s !! bw = None /\
    heap sj !! bw = Some (k, dataw) /\
    (return_elided = true ->
     bw = fresh_block s /\ dataw = combined lbs rbs).
Proof.
  intros Hok Hlw Hrw Hl Hr Hnn Hroom E.
  rewrite (join_unfold Alloc) in E.
  destruct (join_body_run Alloc k T U lw rw dummy s lhs rhs lbs rbs
              Hok Hlw Hrw Hl Hr Hnn) as [Hbody _].
  specialize (Hbody Hroom).
  pose proof (fresh_loc_free s) as Hl_free.
  pose proof (fresh_block_free s) as Hb_free.
  set (l := fresh_loc s) in *. set (b := fresh_block s) in *.
  set (data := combined lbs rbs) in *.
  set (s2 := set_objs (<[l := Ptr b 0]> (objs s)) (with_block s b k data)) in *.
  assert (Hlw_l : lw <> l) by congruence.
  assert (Hrw_l : rw <> l) by congruence.
  unfold basic_pidl.return_local in E.
  destruct return_elided eqn:Helide.
  - (* the local is the result *)
    unfold basic_pidl.ctor in E.
    rewrite (bind_Ret _ _ s l (set_objs (<[l := NULL]> (objs s)) s))
      in E by reflexivity.
    rewrite (bind_Ret _ _ _ _ _ (unwind_Ret _ _ _ _ _ Hbody)) in E.
    injection E as <- <-.
    split; [assumption|].
    split; [subst s2; cbn [objs set_objs]; rewrite lookup_insert_ne by congruence;
            assumption|].
    split; [subst s2; cbn [objs set_objs]; rewrite lookup_insert_ne by congruence;
            assumption|].
    split.
    { intros b' [x Hx]. subst s2. unfold with_block. cbn [heap set_objs].
      rewrite lookup_insert_ne by congruence. reflexivity. }
    exists b, data.
    split; [subst s2; cbn [objs set_objs]; apply lookup_insert_eq|].
    split; [assumption|].
    split; [subst s2; unfold with_block; cbn [heap set_objs];
            apply lookup_insert_eq|].
    intros _. split; reflexivity.
  - (* the result is copy-constructed from the local *)
    unfold basic_pidl.with_local, basic_pidl.ctor in E.
    rewrite (bind_Ret _ _ s l (set_objs (<[l := NULL]> (objs s)) s))
      in E by reflexivity.
    apply bind_inv_Ret in E as (w' & sx & E1 & E).
    apply unwind_inv_Ret in E1.
    rewrite (bind_Ret _ _ _ _ _ Hbody) in E1.
    assert (Hl2 : objs s2 !! l = Some (Ptr b 0))
      by (subst s2; cbn [objs set_objs]; apply lookup_insert_eq).
    unfold basic_pidl.ctor_copy in E1.
    rewrite (bind_Ret _ _ _ _ _ (load_field_Some _ _ _ Hl2)) in E1.
    apply bind_inv_Ret in E1 as (m2 & sy & E1 & E2).
    assert (Hok2 : heap_ok s2).
    { apply (with_block_heap_ok s b k data Hok). apply Hroom. }
    apply clone_returns in E1 as (bs' & _ & _ & -> & ->);
      [|assumption|discriminate].
    pose proof (fresh_block_free s2) as Hb2_free.
    set (b2 := fresh_block s2) in *.
    set (sy := with_block s2 b2 k bs') in *.
    change (new_object (Ptr b2 0) sy)
      with (Ret (fresh_loc sy),
            set_objs (<[fresh_loc sy := Ptr b2 0]> (objs sy)) sy) in E2.
    injection E2 as <- <-.
    pose proof (fresh_loc_free sy) as Hw_free.
    set (w' := fresh_loc sy) in *.
    change (heap s2) with (<[b := (k, data)]> (heap s)) in Hb2_free.
    apply lookup_insert_None in Hb2_free as [Hb2_s Hb2_b].
    change (objs sy) with (<[l := Ptr b 0]> (objs s)) in Hw_free.
    apply lookup_insert_None in Hw_free as [Hw_s Hw_l].
    set (sx := set_objs (<[w' := Ptr b2 0]> (objs sy)) sy) in *.
    assert (Hlx : objs sx !! l = Some (Ptr b 0)).
    { subst sx sy s2. unfold with_block. cbn [objs set_objs].
      rewrite lookup_insert_ne by congruence. apply lookup_insert_eq. }
    assert (Hbx : heap sx !! b = Some (k, data)).
    { subst sx sy s2. unfold with_block. cbn [heap set_objs].
      rewrite lookup_insert_ne by congruence. apply lookup_insert_eq. }
    assert (Hox : owned k sx (Ptr b 0)).
    { split; [reflexivity|]. exists data. assumption. }
    rewrite (bind_Ret _ _ _ _ _
               (dtor_owned Alloc k _ l sx (Ptr b 0) Hlx Hox)) in E.
    apply pair_equal_spec in E as [Ew Es]. injection Ew as <-.
    assert (Hlw_w : lw <> w') by congruence.
    assert (Hrw_w : rw <> w') by congruence.
    assert (Hobjs : objs sj
                    = delete l (<[w' := Ptr b2 0]> (<[l := Ptr b 0]> (objs s))))
      by (rewrite <- Es; reflexivity).
    assert (Hheap : heap sj
                    = delete b (<[b2 := (k, bs')]> (<[b := (k, data)]> (heap s))))
      by (rewrite <- Es; exact (heap_released sx b 0 k data Hbx)).
    clear Es. rewrite Hobjs, Hheap.
    split; [assumption|].
    split.
    { rewrite lookup_delete_ne by congruence.
      rewrite !lookup_insert_ne by congruence. assumption. }
    split.
    { rewrite lookup_delete_ne by congruence.
      rewrite !lookup_insert_ne by congruence. assumption. }
    split.
    { intros b' [x Hx]. rewrite lookup_delete_ne by congruence.
      rewrite !lookup_insert_ne by congruence. reflexivity. }
    exists b2, bs'.
    split.
    { rewrite lookup_delete_ne by congruence. apply lookup_insert_eq. }
    split; [assumption|].
    split.
    { rewrite lookup_delete_ne by congruence. apply lookup_insert_eq. }
    intros Habs. discriminate.
Qed.
End Returns.

(** C10: a [combine] that returns a non-null pointer returns the start of
    a block that was not live before, so a pointer different from both
    operands; every block that was live keeps its contents and no wrapper
    changes.  The wrapper that [operator+] returns is a new object whose
    [m_pidl] is the start of a block that was not live before (the block
    of [combine] itself when the local is returned in place); both operand
    wrappers and every block that was live are as they were. *)
Theorem combine_never_aliases `{Target} (Alloc : idlist -> Type)
  `{!Allocator Alloc} (k : pool) `{!PoolAllocator Alloc k} (T U : idlist)
  (dummy : enable_if_c (raw_pidl.is_appendable U)) (s : state)
  (lhs rhs : pointer) (lw rw : loc) (mem : pointer) (s' : state) :
  heap_ok s ->
  objs s !! lw = Some lhs ->
  objs s !! rw = Some rhs ->
  raw_pidl.combine Alloc T U lhs rhs dummy s = (Ret mem, s') ->
  mem <> NULL ->
  (exists b data,
     mem = Ptr b 0 /\ heap s !! b = None /\
     heap s' = <[b := (k, data)]> (heap s)) /\
  mem <> lhs /\ mem <> rhs /\
  objs s' = objs s /\
  (forall b', is_Some (heap s !! b') -> heap s' !! b' = heap s !! b') /\
  (forall w sj,
     join Alloc T U lw rw dummy s = (Ret w, sj) ->
     objs s !! w = None /\
     objs sj !! lw = Some lhs /\ objs sj !! rw = Some rhs /\
     (forall b', is_Some (heap s !! b') -> heap sj !! b' = heap s !! b') /\
     exists bw dataw,
       objs sj !! w = Some (Ptr bw 0) /\
       heap s !! bw = None /\
       heap sj !! bw = Some (k, dataw) /\
       (return_elided = true -> Ptr bw 0 = mem /\ heap sj = heap s')).
Proof.
  intros Hok Hlw Hrw E Hmem.
  destruct (combine_returns Alloc k T U dummy s lhs rhs mem s' Hok E Hmem)
    as (lbs & rbs & Hl & Hr & Hnn & Hroom & -> & ->).
  pose proof (fresh_block_free s) as Hfresh.
  split.
  { exists (fresh_block s), (combined lbs rbs).
    split; [reflexivity|]. split; [assumption|]. reflexivity. }
  split.
  { destruct lhs as [|lb loff]; [discriminate|].
    intros Eq. symmetry in Eq. revert Eq.
    apply (pidl_bytes_not_fresh _ _ _ Hl). }
  split.
  { destruct rhs as [|rb roff]; [discriminate|].
    intros Eq. symmetry in Eq. revert Eq.
    apply (pidl_bytes_not_fresh _ _ _ Hr). }
  split; [reflexivity|].
  split.
  { intros b' [x Hx]. unfold with_block. cbn [heap].
    rewrite lookup_insert_ne by congruence. reflexivity. }
  intros w sj Ej.
  destruct (join_returns Alloc k T U dummy s lw rw lhs rhs lbs rbs w sj
              Hok Hlw Hrw Hl Hr Hnn Hroom Ej)
    as (Hw & Hlw' & Hrw' & Hframe & bw & dataw & Hwp & Hbw & Hbw' & Helide).
  repeat (split; [assumption|]).
  exists bw, dataw. repeat (split; [assumption|]).
  intros He. destruct (Helide He) as [-> ->].
  split; [reflexivity|].
  (* with the local returned in place, the heap is the one combine left *)
  clear - Ej He Hok Hlw Hrw Hl Hr Hnn Hroom PoolAllocator0.
  rewrite (join_unfold Alloc) in Ej.
  destruct (join_body_run Alloc k T U lw rw dummy s lhs rhs lbs rbs
              Hok Hlw Hrw Hl Hr Hnn) as [Hbody _].
  specialize (Hbody Hroom).
  unfold basic_pidl.return_local in Ej. rewrite He in Ej.
  unfold basic_pidl.ctor in Ej.
  rewrite (bind_Ret _ _ s (fresh_loc s)
             (set_objs (<[fresh_loc s := NULL]> (objs s)) s))
    in Ej by reflexivity.
  rewrite (bind_Ret _ _ _ _ _ (unwind_Ret _ _ _ _ _ Hbody)) in Ej.
  apply pair_equal_spec in Ej as [_ <-]. reflexivity.
Qed.

(** ** Result types and legality *)

(** C4, as the code has it: the result type of [combine], and of
    [operator+], is the [combine_type] of the left operand whatever the
    right operand is: Relative for a Child or Relative left operand,
    Absolute for an Absolute one. *)
Theorem combine_result_follows_left_operand (T U : idlist)
  (dummy : enable_if_c (raw_pidl.is_appendable U)) :
  raw_pidl.combine_return_type T U dummy = raw_pidl.combine_type T /\
  join_return_type T U dummy = raw_pidl.combine_type T /\
  raw_pidl.combine_type T
  = match T with
    | ITEMID_CHILD => ITEMIDLIST_RELATIVE
    | ITEMIDLIST_RELATIVE => ITEMIDLIST_RELATIVE
    | ITEMIDLIST_ABSOLUTE => ITEMIDLIST_ABSOLUTE
    end.
Proof. repeat split; destruct T; reflexivity. Qed.

(** C5: the last parameter of [combine], and of [operator+], which hands
    it on, has the type [enable_if_c<traits<U>::is_appendable>::type],
    which does not exist for an Absolute right operand.  So for every left
    operand, every pair of arguments and every state there is no call of
    [combine] or of [operator+] with an Absolute right operand, hence no
    outcome and no allocation; every call that exists has a Child or a
    Relative right operand; and for those two the guard exists, is unique,
    and the call runs. *)
Theorem absolute_right_operand_rejected `{Target} (Alloc : idlist -> Type)
  `{!Allocator Alloc} (T : idlist) (lhs_pidl rhs_pidl : pointer)
  (lhs rhs : loc) (s : state) :
  (forall dummy r,
     raw_pidl.combine Alloc T ITEMIDLIST_ABSOLUTE lhs_pidl rhs_pidl dummy s
     <> r) /\
  (forall dummy r, join Alloc T ITEMIDLIST_ABSOLUTE lhs rhs dummy s <> r) /\
  (forall U dummy r,
     raw_pidl.combine Alloc T U lhs_pidl rhs_pidl dummy s = r ->
     U = ITEMID_CHILD \/ U = ITEMIDLIST_RELATIVE) /\
  (forall U dummy r,
     join Alloc T U lhs rhs dummy s = r ->
     U = ITEMID_CHILD \/ U = ITEMIDLIST_RELATIVE) /\
  (forall U,
     U <> ITEMIDLIST_ABSOLUTE ->
     exists dummy : enable_if_c (raw_pidl.is_appendable U),
       (forall dummy', dummy' = dummy) /\
       raw_pidl.combine Alloc T U NULL NULL dummy s = (Ret NULL, s) /\
       join Alloc T U lhs rhs dummy
       = basic_pidl.return_local (raw_pidl.combine_type T) Alloc
           basic_pidl.ctor (join_body Alloc T U lhs rhs dummy)) /\
  raw_pidl.is_appendable ITEMIDLIST_ABSOLUTE = false /\
  raw_pidl.is_appendable ITEMID_CHILD = true /\
  raw_pidl.is_appendable ITEMIDLIST_RELATIVE = true /\
  (enable_if_c (raw_pidl.is_appendable ITEMIDLIST_ABSOLUTE) -> False) /\
  (forall U : idlist,
     inhabited (enable_if_c (raw_pidl.is_appendable U))
     <-> U <> ITEMIDLIST_ABSOLUTE) /\
  (forall U : idlist,
     raw_pidl.is_appendable U = true <-> U <> ITEMIDLIST_ABSOLUTE).
Proof.
  split; [intros []|]. split; [intros []|].
  split.
  { intros U dummy r _. destruct U; [left | right | destruct dummy];
      reflexivity. }
  split.
  { intros U dummy r _. destruct U; [left | right | destruct dummy];
      reflexivity. }
  split.
  { intros U HU. destruct U; try congruence; exists tt;
      (split; [intros []; reflexivity|]); split; reflexivity. }
  split; [reflexivity|]. split; [reflexivity|]. split; [reflexivity|].
  split; [intros []|].
  split.
  - intros U. split.
    + intros [d] ->. destruct d.
    + intros HU. destruct U; try congruence; constructor; exact tt.
  - intros U. destruct U; simpl; split; congruence.
Qed.

(** C9: the copy assignment of [StorageMedium] swaps the state of its
    by-value argument into the object, and its body ends at the closing
    brace: for no input does it return the assigned-to object, or any
    value. *)
Theorem StorageMedium_assign_returns_nothing (STGMEDIUM : Type)
  (this medium : loc) (st : gmap loc STGMEDIUM) (mine copied : STGMEDIUM) :
  this <> medium ->
  st !! this = Some mine ->
  st !! medium = Some copied ->
  let st' := <[medium := mine]> (<[this := copied]> st) in
  StorageMedium.assign STGMEDIUM this medium st
  = Some (StorageMedium.falls_off_the_end loc, st') /\
  st' !! this = Some copied /\
  st' !! medium = Some mine /\
  (forall r st2,
     StorageMedium.assign STGMEDIUM this medium st = Some (r, st2) ->
     r <> StorageMedium.returns loc this) /\
  (forall a b st0 l st2,
     StorageMedium.assign STGMEDIUM a b st0
     <> Some (StorageMedium.returns loc l, st2)).
Proof.
  intros Hne Hthis Hmedium st'.
  assert (E : StorageMedium.assign STGMEDIUM this medium st
              = Some (StorageMedium.falls_off_the_end loc, st')).
  { unfold StorageMedium.assign, StorageMedium.std_swap.
    rewrite Hthis, Hmedium. reflexivity. }
  split; [exact E|].
  split.
  { subst st'. rewrite lookup_insert_ne by congruence. apply lookup_insert_eq. }
  split; [subst st'; apply lookup_insert_eq|].
  split.
  - intros r st2 E2. rewrite E in E2. injection E2 as <- _. discriminate.
  - intros a b st0 l st2. unfold StorageMedium.assign.
    destruct (StorageMedium.std_swap STGMEDIUM a b st0); discriminate.
Qed.

(** ** empty and out *)

Section WrapperQueries.
Context `{Target}.
Context (Alloc : idlist -> Type) `{!Allocator Alloc}.
Context (k : pool) `{!PoolAllocator Alloc k}.

(** [empty()] holds exactly when [m_pidl] is null or points at a record
    whose length field is zero. *)
Lemma empty_iff this s p :
  objs s !! this = Some p ->
  basic_pidl.empty this s = (Ret true, s)
  <-> p = NULL \/ load_cb (heap s) p = Some 0.
Proof.
  intros Hp. unfold basic_pidl.empty.
  rewrite (bind_Ret _ _ _ _ _ (load_field_Some _ _ _ Hp)).
  destruct p as [|b off]; cbn [is_null]; cbv iota.
  - split; [intros _; left; reflexivity | reflexivity].
  - unfold bind, raw_pidl.mkid_cb.
    destruct (load_cb (heap s) (Ptr b off)) as [cb|].
    + unfold ret. split.
      * intros [= E]. right. apply Z.eqb_eq in E. congruence.
      * intros [?|[= ->]]; [discriminate | reflexivity].
    + split; [discriminate | intros [?|?]; discriminate].
Qed.

(** [out()] gives the owned block back to its pool and leaves the wrapper
    null. *)
Lemma out_releases T this s p :
  objs s !! this = Some p -> owned k s p ->
  basic_pidl.out T Alloc this s
  = (Ret this, set_objs (<[this := NULL]> (objs s)) (released p s)).
Proof.
  intros Hp Ho. unfold basic_pidl.out.
  rewrite (bind_Ret _ _ _ _ _ (load_field_Some _ _ _ Hp)).
  rewrite (bind_Ret _ _ s tt (released p s))
    by (rewrite deallocate_pool; apply sys_free_owned; assumption).
  assert (Hp' : objs (released p s) !! this = Some p).
  { destruct p as [|b off]; [assumption|]. unfold released.
    destruct (heap s !! b) as [[k' data]|]; assumption. }
  rewrite (bind_Ret _ _ _ _ _ (store_field_Some _ _ _ NULL Hp')).
  unfold ret. f_equal. unfold set_objs. f_equal.
  destruct p as [|b off]; [reflexivity|]. unfold released.
  destruct (heap s !! b) as [[k' data]|]; reflexivity.
Qed.
End WrapperQueries.

(** ** [heap_ok] is an invariant *)

Create HintDb inv.

Lemma preserves_ret {A} P (a : A) : preserves P (ret a).
Proof. intros s o s' HP [= <- <-]. exact HP. Qed.

Lemma preserves_stop {A} P (o : outcome A) : preserves P (fun s => (o, s)).
Proof. intros s o' s' HP [= <- <-]. exact HP. Qed.

Lemma preserves_bind {A B} P (m : M A) (k : A -> M B) :
  preserves P m -> (forall a, preserves P (k a)) -> preserves P (bind m k).
Proof.
  intros Hm Hk s o s' HP E. unfold bind in E.
  destruct (m s) as [[a| | | |] s1] eqn:Em;
    try (injection E as <- <-; eapply Hm; eauto).
  eapply Hk; [|exact E]. eapply Hm; eauto.
Qed.

Lemma preserves_nothrow {A} P (m : M A) : preserves P m -> preserves P (nothrow m).
Proof.
  intros Hm s o s' HP E. unfold nothrow in E.
  destruct (m s) as [[a| | | |] s1] eqn:Em; injection E as <- <-;
    eapply Hm; eauto.
Qed.

Lemma preserves_unwind {A} P (m : M A) cleanup :
  preserves P m -> preserves P cleanup -> preserves P (unwind m cleanup).
Proof.
  intros Hm Hc s o s' HP E. unfold unwind in E.
  destruct (m s) as [[a| | | |] s1] eqn:Em;
    try (injection E as <- <-; eapply Hm; eauto).
  revert E. apply preserves_bind; [exact Hc | | eapply Hm; eauto].
  intros _. apply preserves_stop.
Qed.

Lemma preserves_if {A} P (c : bool) (m1 m2 : M A) :
  preserves P m1 -> preserves P m2 -> preserves P (if c then m1 else m2).
Proof. destruct c; trivial. Qed.

#[local] Hint Resolve preserves_ret preserves_stop preserves_bind
  preserves_nothrow preserves_unwind preserves_if : inv.

Section Invariant.
Context `{Target}.

Lemma heap_ok_same_heap s s' : heap s' = heap s -> heap_ok s -> heap_ok s'.
Proof. intros E Hok b k data. rewrite E. apply Hok. Qed.

Lemma preserves_assert c : preserves heap_ok (assert c).
Proof. unfold assert, abort. auto with inv. Qed.

Lemma preserves_mkid_cb P pidl : preserves P (raw_pidl.mkid_cb pidl).
Proof.
  intros s o s' HP E. unfold raw_pidl.mkid_cb in E.
  destruct (load_cb (heap s) pidl); injection E as <- <-; exact HP.
Qed.

Lemma preserves_memcpy dst src n : preserves heap_ok (memcpy dst src n).
Proof.
  intros s o s' HP E. unfold memcpy in E.
  destruct (n =? 0); [injection E as <- <-; exact HP|].
  destruct (ranges_overlap dst src n); [injection E as <- <-; exact HP|].
  destruct (read_bytes (heap s) src n) as [bytes|];
    [|injection E as <- <-; exact HP].
  destruct (write_bytes (heap s) dst bytes) as [h'|] eqn:Ew;
    injection E as <- <-; [|exact HP].
  unfold write_bytes in Ew. destruct dst as [|b off]; [discriminate|].
  destruct (heap s !! b) as [[k data]|] eqn:Eb; [|discriminate].
  destruct (Z.leb_spec 0 off); [|discriminate].
  destruct (Z.leb_spec (off + Z.of_nat (length bytes)) (Z.of_nat (length data)));
    [|discriminate].
  injection Ew as <-. intros b' k' data'. cbn [heap set_heap].
  rewrite lookup_insert. case_decide.
  - intros [= <- <-]. rewrite splice_length by lia. eapply HP; eauto.
  - apply HP.
Qed.

Lemma sys_alloc_heap_ok k n s p s' :
  heap_ok s -> sys_alloc k n s = Some (p, s') -> heap_ok s'.
Proof.
  intros HP E. unfold sys_alloc in E.
  destruct (Z.leb_spec n (avail s)); [|discriminate].
  destruct (Z.leb_spec n PTRDIFF_MAX); [|discriminate].
  injection E as <- <-. intros b' k' data'. cbn [heap].
  rewrite lookup_insert. case_decide.
  - intros [= <- <-]. rewrite length_replicate.
    pose proof PTRDIFF_MAX_big. lia.
  - apply HP.
Qed.

Lemma preserves_sys_free k p : preserves heap_ok (sys_free k p).
Proof.
  intros s o s' HP E. unfold sys_free in E.
  destruct p as [|b off]; [injection E as <- <-; exact HP|].
  destruct (heap s !! b) as [[k' data]|]; [|injection E as <- <-; exact HP].
  destruct (bool_decide (k' = k) && (off =? 0)); injection E as <- <-;
    [|exact HP].
  intros b' k'' data'. cbn [heap]. rewrite lookup_delete. case_decide.
  - discriminate.
  - apply HP.
Qed.

Lemma preserves_new_object p : preserves heap_ok (new_object p).
Proof. intros s o s' HP [= <- <-]. exact HP. Qed.

Lemma preserves_delete_object l : preserves heap_ok (delete_object l).
Proof. intros s o s' HP [= <- <-]. exact HP. Qed.

Lemma preserves_load_field l : preserves heap_ok (load_field l).
Proof.
  intros s o s' HP E. unfold load_field in E.
  destruct (objs s !! l); injection E as <- <-; exact HP.
Qed.

Lemma preserves_store_field l p : preserves heap_ok (store_field l p).
Proof.
  intros s o s' HP E. unfold store_field in E.
  destruct (objs s !! l); injection E as <- <-; exact HP.
Qed.

#[local] Hint Resolve preserves_assert preserves_mkid_cb preserves_memcpy
  preserves_sys_free preserves_new_object preserves_delete_object
  preserves_load_field preserves_store_field : inv.

Lemma preserves_size_loop P fuel :
  forall pidl acc, preserves P (raw_pidl.size_loop fuel pidl acc).
Proof.
  induction fuel as [|fuel IH]; intros pidl acc; simpl.
  - apply preserves_stop.
  - apply preserves_bind; [auto with inv|]. intros cb.
    apply preserves_if; [auto with inv|].
    unfold raw_pidl.next. auto 10 with inv.
Qed.

Lemma preserves_size P pidl : preserves P (raw_pidl.size pidl).
Proof.
  unfold raw_pidl.size. destruct pidl; simpl; [auto with inv|].
  intros s o s' HP E. eapply preserves_size_loop; eauto.
Qed.

Context (Alloc : idlist -> Type) `{!Allocator Alloc}.
Context (k : pool) `{!PoolAllocator Alloc k}.

Lemma preserves_allocate T n : preserves heap_ok (allocate Alloc T n).
Proof.
  intros s o s' HP E. rewrite allocate_pool in E.
  destruct (sys_alloc k n s) as [[p s1]|] eqn:Ea; injection E as <- <-.
  - eapply sys_alloc_heap_ok; eauto.
  - exact HP.
Qed.

Lemma preserves_deallocate T p : preserves heap_ok (deallocate Alloc T p).
Proof.
  intros s o s' HP E. rewrite deallocate_pool in E.
  eapply preserves_sys_free; eauto.
Qed.

#[local] Hint Resolve preserves_size preserves_allocate preserves_deallocate
  : inv.

Lemma preserves_clone T pidl : preserves heap_ok (raw_pidl.clone Alloc T pidl).
Proof. unfold raw_pidl.clone. auto 10 with inv. Qed.

Lemma preserves_combine T U lhs rhs dummy :
  preserves heap_ok (raw_pidl.combine Alloc T U lhs rhs dummy).
Proof. unfold raw_pidl.combine, rebind. cbv zeta. auto 12 with inv. Qed.

#[local] Hint Resolve preserves_clone preserves_combine : inv.

Lemma preserves_dtor T l : preserves heap_ok (basic_pidl.dtor T Alloc l).
Proof. unfold basic_pidl.dtor. auto 10 with inv. Qed.

Lemma preserves_ctor_copy T l :
  preserves heap_ok (basic_pidl.ctor_copy T Alloc l).
Proof. unfold basic_pidl.ctor_copy. auto 10 with inv. Qed.

Lemma preserves_ctor_raw T p :
  preserves heap_ok (basic_pidl.ctor_raw T Alloc p).
Proof. unfold basic_pidl.ctor_raw. auto 10 with inv. Qed.

#[local] Hint Resolve preserves_dtor preserves_ctor_copy preserves_ctor_raw
  : inv.

Lemma preserves_with_local {B} T init (body : loc -> M B) :
  preserves heap_ok init -> (forall l, preserves heap_ok (body l)) ->
  preserves heap_ok (basic_pidl.with_local T Alloc init body).
Proof. intros Hi Hb. unfold basic_pidl.with_local. auto 10 with inv. Qed.

Lemma preserves_swap T fuel :
  forall this pidl, preserves heap_ok (basic_pidl.swap T Alloc fuel this pidl).
Proof.
  induction fuel as [|fuel IH]; intros this pidl; cbn [basic_pidl.swap].
  - apply preserves_stop.
  - apply preserves_nothrow. apply preserves_if.
    + unfold basic_pidl.std_swap. auto 10 with inv.
    + apply preserves_with_local; [auto with inv|]. intros temp.
      unfold basic_pidl.assign_with.
      repeat (apply preserves_bind; [|intros ?]);
        try apply preserves_with_local; auto with inv.
Qed.

Lemma preserves_assign T fuel this pidl :
  preserves heap_ok (basic_pidl.assign T Alloc fuel this pidl).
Proof.
  unfold basic_pidl.assign, basic_pidl.assign_with.
  apply preserves_bind; [|auto with inv].
  apply preserves_with_local; [auto with inv|].
  intros l. apply preserves_swap.
Qed.

Lemma preserves_assign_raw T fuel this raw :
  preserves heap_ok (basic_pidl.assign_raw T Alloc fuel this raw).
Proof.
  unfold basic_pidl.assign_raw, basic_pidl.assign_raw_with.
  apply preserves_bind; [|auto with inv].
  apply preserves_with_local; [auto with inv|].
  intros l. apply preserves_swap.
Qed.

Lemma preserves_attach T this raw :
  preserves heap_ok (basic_pidl.attach T Alloc this raw).
Proof. unfold basic_pidl.attach. auto 12 with inv. Qed.

Lemma preserves_out T this : preserves heap_ok (basic_pidl.out T Alloc this).
Proof. unfold basic_pidl.out. auto 12 with inv. Qed.

Lemma preserves_join T U lw rw dummy :
  preserves heap_ok (join Alloc T U lw rw dummy).
Proof.
  rewrite join_unfold. unfold basic_pidl.return_local.
  assert (Hbody : forall l, preserves heap_ok (join_body Alloc T U lw rw dummy l)).
  { intros l. unfold join_body, basic_pidl.get.
    repeat (apply preserves_bind; [|intros ?]); auto with inv. }
  apply preserves_if.
  - unfold basic_pidl.ctor. auto 10 with inv.
  - apply preserves_with_local; [unfold basic_pidl.ctor; auto with inv|].
    intros l. auto with inv.
Qed.
End Invariant.

(** ** size always answers *)

Section SizeTotal.
Context `{Target}.

Lemma size_loop_answers fuel :
  forall b off acc s k data,
    heap s !! b = Some (k, data) ->
    (1 <= fuel)%nat ->
    off < 0 \/ Z.of_nat (length data) - off < Z.of_nat fuel ->
    fst (raw_pidl.size_loop fuel (Ptr b off) acc s) <> Timeout.
Proof.
  induction fuel as [|fuel IH]; intros b off acc s k data Hb Hfuel Hoff;
    [lia|].
  simpl. unfold bind at 1. unfold raw_pidl.mkid_cb at 1.
  destruct (load_cb (heap s) (Ptr b off)) as [cb|] eqn:Ecb; [|discriminate].
  destruct (Z.eqb_spec cb 0); [discriminate|].
  rewrite (bind_Ret _ _ _ _ _ (mkid_cb_Some _ _ _ Ecb)).
  unfold raw_pidl.next.
  rewrite (bind_Ret _ _ s (skip (Ptr b off) cb) s)
    by (rewrite (bind_Ret _ _ _ _ _ (mkid_cb_Some _ _ _ Ecb)); reflexivity).
  apply load_cb_Some in Ecb as (k' & data' & Hb' & ? & ? & ?).
  rewrite Hb in Hb'. injection Hb' as <- <-.
  cbn [skip]. apply (IH b (off + cb) _ s k data Hb); lia.
Qed.

(** [size] ends with a value or in undefined behaviour, never for want of
    budget, and leaves the state alone. *)
Lemma size_answers pidl s :
  fst (raw_pidl.size pidl s) <> Timeout /\
  fst (raw_pidl.size pidl s) <> Throw /\
  snd (raw_pidl.size pidl s) = s.
Proof.
  split; [|split].
  - unfold raw_pidl.size. destruct pidl as [|b off]; [discriminate|].
    cbn [is_null]. cbv iota. unfold raw_pidl.walk_budget.
    destruct (heap s !! b) as [[k data]|] eqn:Hb.
    + destruct (Z.ltb_spec off 0).
      * apply (size_loop_answers _ b off _ s k data Hb); lia.
      * apply (size_loop_answers _ b off _ s k data Hb); lia.
    + simpl. unfold bind, raw_pidl.mkid_cb, load_cb, byte_at.
      destruct (off <? 0); [discriminate|]. rewrite Hb. discriminate.
  - destruct (raw_pidl.size pidl s) as [o s'] eqn:E. simpl. intros ->.
    eapply size_never_throws; eauto.
  - destruct (raw_pidl.size pidl s) as [o s'] eqn:E. simpl. symmetry.
    exact (preserves_size (eq s) pidl s o s' eq_refl E).
Qed.
End SizeTotal.

(** * The rest of the interface *)

(** ** States *)

Lemma state_eq (s1 s2 : state) :
  heap s1 = heap s2 -> avail s1 = avail s2 -> objs s1 = objs s2 -> s1 = s2.
Proof. destruct s1, s2. simpl. intros -> -> ->. reflexivity. Qed.

Lemma released_with_block s b off k data :
  heap s !! b = None -> released (Ptr b off) (with_block s b k data) = s.
Proof.
  intros Hb. unfold released, with_block. cbn [heap avail objs].
  rewrite lookup_insert_eq. apply state_eq; cbn [heap avail objs].
  - apply delete_insert_id. assumption.
  - lia.
  - reflexivity.
Qed.

(** ** next *)

(** X1: on a stored list with a first record, [next] returns the address
    [cb] bytes further on, where the rest of the list is stored; on a stored
    empty list, [next] returns the address it was given: stepping does not
    leave the terminator.  [next] changes nothing. *)
Theorem next_steps_to_the_rest `{Target} (s : state) (pidl : pointer)
  (r : list byte) (recs : list (list byte)) :
  holds (heap s) pidl (r :: recs) ->
  raw_pidl.next pidl s = (Ret (skip pidl (record_cb r)), s) /\
  holds (heap s) (skip pidl (record_cb r)) recs /\
  (forall b off,
     holds (heap s) (Ptr b off) [] ->
     raw_pidl.next (Ptr b off) s = (Ret (Ptr b off), s)).
Proof.
  intros [Hok R]. inversion Hok as [|r' recs' Hr Hrecs]; subst.
  rewrite idlist_bytes_cons in R.
  assert (Hcb : 0 <= record_cb r < 65536)
    by (unfold record_ok, record_cb in *; lia).
  assert (Hload : load_cb (heap s) pidl = Some (record_cb r)).
  { rewrite (load_cb_of_read _ _ _ _ R).
    - unfold record_bytes. rewrite <- app_assoc. apply decode_length_field.
      assumption.
    - rewrite length_app, Nat2Z.inj_add, record_bytes_length.
      unfold record_cb. lia. }
  split; [|split].
  - unfold raw_pidl.next.
    rewrite (bind_Ret _ _ _ _ _ (mkid_cb_Some _ _ _ Hload)). reflexivity.
  - split; [assumption|].
    pose proof (read_bytes_skip _ _ _ _ (record_cb r) R) as Rs.
    rewrite length_app, Nat2Z.inj_add, record_bytes_length in Rs.
    replace (record_cb r + Z.of_nat (length (idlist_bytes recs)) - record_cb r)
      with (Z.of_nat (length (idlist_bytes recs))) in Rs by lia.
    rewrite Rs by lia. f_equal.
    rewrite <- record_bytes_length, Nat2Z.id. apply drop_app_length.
  - intros b off [_ R0].
    assert (Hload0 : load_cb (heap s) (Ptr b off) = Some 0).
    { rewrite (load_cb_of_read _ _ _ _ R0); [reflexivity | simpl; lia]. }
    unfold raw_pidl.next.
    rewrite (bind_Ret _ _ _ _ _ (mkid_cb_Some _ _ _ Hload0)).
    unfold ret. cbn [skip]. rewrite Z.add_0_r. reflexivity.
Qed.

(** ** size on a buffer without a terminator *)

Lemma records_bytes_cons r recs :
  records_bytes (r :: recs) = record_bytes r ++ records_bytes recs.
Proof. reflexivity. Qed.

Lemma records_bytes_length recs :
  (length recs <= length (records_bytes recs))%nat.
Proof.
  induction recs as [|r recs IH]; [simpl; lia|].
  rewrite records_bytes_cons, length_app.
  pose proof (record_bytes_length r). unfold record_cb in *. simpl length at 1.
  lia.
Qed.

(** The loop of [size] on records that fill their block to its end: it
    steps over every record and then reads the length field of a record
    that is not there. *)
Lemma size_loop_off_the_end `{Target} s b k recs :
  Forall record_ok recs ->
  forall pre fuel acc,
    heap s !! b = Some (k, pre ++ records_bytes recs) ->
    (length recs < fuel)%nat ->
    raw_pidl.size_loop fuel (Ptr b (Z.of_nat (length pre))) acc s = (Undef, s).
Proof.
  induction 1 as [|r recs Hr Hrecs IH]; intros pre fuel acc Hb Hfuel;
    (destruct fuel as [|fuel]; [simpl in Hfuel; lia|]).
  - cbn [raw_pidl.size_loop]. unfold bind at 1, raw_pidl.mkid_cb at 1.
    unfold load_cb, byte_at.
    destruct (Z.ltb_spec (Z.of_nat (length pre)) 0); [lia|].
    rewrite Hb, Nat2Z.id, app_nil_r.
    rewrite (lookup_ge_None_2 pre (length pre)) by lia. reflexivity.
  - assert (Hcb : 0 <= record_cb r < 65536)
      by (unfold record_ok, record_cb in *; lia).
    assert (Hne : record_cb r <> 0) by (unfold record_cb; lia).
    assert (Hload : load_cb (heap s) (Ptr b (Z.of_nat (length pre)))
                    = Some (record_cb r)).
    { rewrite (load_cb_of_read _ _ (record_cb r) (record_bytes r)).
      - unfold record_bytes. rewrite <- (app_nil_r (_ ++ r)), <- app_assoc.
        apply decode_length_field. assumption.
      - rewrite (read_bytes_intro _ _ _ _ k _ Hb).
        + rewrite Nat2Z.id, drop_app_length, records_bytes_cons.
          rewrite <- record_bytes_length, Nat2Z.id, take_app_length.
          reflexivity.
        + lia.
        + lia.
        + rewrite records_bytes_cons, !length_app, !Nat2Z.inj_add,
            record_bytes_length. lia.
      - unfold record_cb. lia. }
    cbn [raw_pidl.size_loop].
    rewrite (bind_Ret _ _ _ _ _ (mkid_cb_Some _ _ _ Hload)).
    destruct (Z.eqb_spec (record_cb r) 0); [contradiction|].
    rewrite (bind_Ret _ _ _ _ _ (mkid_cb_Some _ _ _ Hload)).
    unfold raw_pidl.next.
    rewrite (bind_Ret _ _ s (skip (Ptr b (Z.of_nat (length pre))) (record_cb r)) s)
      by (rewrite (bind_Ret _ _ _ _ _ (mkid_cb_Some _ _ _ Hload)); reflexivity).
    cbn [skip].
    replace (Z.of_nat (length pre) + record_cb r)
      with (Z.of_nat (length (pre ++ record_bytes r)))
      by (rewrite length_app, Nat2Z.inj_add, record_bytes_length; reflexivity).
    apply IH.
    + rewrite <- app_assoc. exact Hb.
    + simpl in Hfuel. lia.
Qed.

(** X2: when the records at the start of a block fill the block and no
    terminator follows them, [size] reads past the end of the block, which
    is undefined behaviour, and so is [clone], which starts by calling
    [size].  An empty block is the case of no records. *)
Theorem size_needs_a_terminator `{Target} (Alloc : idlist -> Type)
  `{!Allocator Alloc} (T : idlist) (s : state) (b : block) (k : pool)
  (recs : list (list byte)) :
  heap s !! b = Some (k, records_bytes recs) ->
  Forall record_ok recs ->
  raw_pidl.size (Ptr b 0) s = (Undef, s) /\
  raw_pidl.clone Alloc T (Ptr b 0) s = (Undef, s).
Proof.
  intros Hb Hok.
  assert (Hsize : raw_pidl.size (Ptr b 0) s = (Undef, s)).
  { unfold raw_pidl.size. cbn [is_null]. cbv iota.
    apply (size_loop_off_the_end s b k recs Hok []).
    - exact Hb.
    - unfold raw_pidl.walk_budget. rewrite Hb.
      pose proof (records_bytes_length recs). lia. }
  split; [exact Hsize|].
  unfold raw_pidl.clone. cbn [is_null]. cbv iota.
  unfold bind at 1. rewrite Hsize. reflexivity.
Qed.

(** ** The allocators *)

(** X3: both allocators answer a request for [n] bytes in the same way:
    with room, a pointer to the start of a block that was not live, of [n]
    bytes, from the allocator's own pool; without room,
    [std::bad_alloc] and no change.  Where [CoTaskMemAlloc] returns null,
    [cotaskmem_alloc::allocate] throws: neither allocator ever returns a
    null pointer. *)
Theorem allocate_returns_a_block_or_throws `{Target} (T : idlist) (n : Z)
  (s : state) :
  0 <= n ->
  let b := fresh_block s in
  let taken k := with_block s b k (replicate (Z.to_nat n) uninitialised) in
  heap s !! b = None /\
  (has_room s n ->
   allocate newdelete_alloc T n s = (Ret (Ptr b 0), taken free_store) /\
   CoTaskMemAlloc n s = (Ret (Ptr b 0), taken com_task_memory) /\
   allocate cotaskmem_alloc T n s = (Ret (Ptr b 0), taken com_task_memory)) /\
  (~ has_room s n ->
   allocate newdelete_alloc T n s = (Throw, s) /\
   CoTaskMemAlloc n s = (Ret NULL, s) /\
   allocate cotaskmem_alloc T n s = (Throw, s)).
Proof.
  intros Hn b taken. split; [apply fresh_block_free|]. split; intros Hroom.
  - split; [|split].
    + exact (allocate_room newdelete_alloc free_store T n s Hn Hroom).
    + unfold CoTaskMemAlloc. rewrite (sys_alloc_room _ _ _ Hn Hroom).
      reflexivity.
    + exact (allocate_room cotaskmem_alloc com_task_memory T n s Hn Hroom).
  - split; [|split].
    + exact (allocate_no_room newdelete_alloc free_store T n s Hroom).
    + unfold CoTaskMemAlloc. rewrite (sys_alloc_no_room _ _ _ Hroom).
      reflexivity.
    + exact (allocate_no_room cotaskmem_alloc com_task_memory T n s Hroom).
Qed.

Lemma owned_new_block k s b data : owned k (with_block s b k data) (Ptr b 0).
Proof.
  split; [reflexivity|]. exists data. unfold with_block. cbn [heap].
  apply lookup_insert_eq.
Qed.

(** X4: memory taken with [allocate] and given back with [deallocate] of
    the same allocator leaves the state exactly as it was: the block is
    gone and the bytes are available again.  [deallocate] of a null pointer
    does nothing. *)
Theorem deallocate_undoes_allocate `{Target} (Alloc : idlist -> Type)
  `{!Allocator Alloc} (k : pool) `{!PoolAllocator Alloc k} (T : idlist)
  (n : Z) (s : state) :
  0 <= n ->
  has_room s n ->
  (mem <- allocate Alloc T n ;; deallocate Alloc T mem) s = (Ret tt, s) /\
  deallocate Alloc T NULL s = (Ret tt, s).
Proof.
  intros Hn Hroom. split.
  - rewrite (bind_Ret _ _ _ _ _ (allocate_room Alloc k T n s Hn Hroom)).
    rewrite deallocate_pool.
    rewrite (sys_free_owned k _ _ (owned_new_block k s _ _)).
    rewrite released_with_block by apply fresh_block_free. reflexivity.
  - rewrite deallocate_pool. reflexivity.
Qed.

(** ** Wrappers: construction and destruction *)

Lemma new_object_run p s :
  new_object p s = (Ret (fresh_loc s), set_objs (<[fresh_loc s := p]> (objs s)) s).
Proof. reflexivity. Qed.

Lemma set_objs_same s : set_objs (objs s) s = s.
Proof. destruct s. reflexivity. Qed.

Lemma forget_new_object s s1 p :
  set_objs (delete (fresh_loc s) (<[fresh_loc s := p]> (objs s))) s1
  = set_objs (objs s) s1.
Proof. rewrite delete_insert_id by apply fresh_loc_free. reflexivity. Qed.

(** X5: a default-constructed wrapper is null: [operator!] is true, [get]
    gives the null pointer, [size] is 0 and [empty] is true.  It owns
    nothing: destroying it, at once or at the end of its scope, leaves the
    state as it was before the construction. *)
Theorem default_wrapper_is_null `{Target} (Alloc : idlist -> Type)
  `{!Allocator Alloc} (k : pool) `{!PoolAllocator Alloc k} (T : idlist)
  (s : state) :
  let w := fresh_loc s in
  let s1 := set_objs (<[w := NULL]> (objs s)) s in
  basic_pidl.ctor s = (Ret w, s1) /\
  objs s !! w = None /\
  basic_pidl.operator_not w s1 = (Ret true, s1) /\
  basic_pidl.get w s1 = (Ret NULL, s1) /\
  basic_pidl.size w s1 = (Ret 0, s1) /\
  basic_pidl.empty w s1 = (Ret true, s1) /\
  basic_pidl.dtor T Alloc w s1 = (Ret tt, s) /\
  basic_pidl.with_local T Alloc basic_pidl.ctor (fun _ => ret tt) s
  = (Ret tt, s).
Proof.
  intros w s1.
  assert (Hw : objs s1 !! w = Some NULL)
    by (subst s1; cbn [objs set_objs]; apply lookup_insert_eq).
  assert (Hd : basic_pidl.dtor T Alloc w s1 = (Ret tt, s)).
  { rewrite (dtor_owned Alloc k T w s1 NULL Hw I). cbn [released].
    subst s1 w. rewrite set_objs_set_objs. cbn [objs set_objs].
    rewrite forget_new_object. rewrite set_objs_same. reflexivity. }
  split; [reflexivity|]. split; [apply fresh_loc_free|].
  split.
  { unfold basic_pidl.operator_not.
    rewrite (bind_Ret _ _ _ _ _ (load_field_Some _ _ _ Hw)). reflexivity. }
  split; [exact (load_field_Some _ _ _ Hw)|].
  split.
  { unfold basic_pidl.size.
    rewrite (bind_Ret _ _ _ _ _ (load_field_Some _ _ _ Hw)). reflexivity. }
  split.
  { unfold basic_pidl.empty.
    rewrite (bind_Ret _ _ _ _ _ (load_field_Some _ _ _ Hw)). reflexivity. }
  split; [exact Hd|].
  unfold basic_pidl.with_local.
  rewrite (bind_Ret _ _ s w s1) by reflexivity.
  rewrite (bind_Ret _ _ s1 tt s1) by reflexivity.
  rewrite (bind_Ret _ _ _ _ _ Hd). reflexivity.
Qed.

(** ** The queries of a wrapper *)

(** X6: on a wrapper whose pointer is null or points at a well-formed list
    of [n] bytes, the four queries agree: [get] is the pointer, [size] is
    [n] (0 for null), [operator!] is true exactly when [size] is 0 and
    [empty] is true exactly when [size] is at most 2, the size of a lone
    terminator.  None of them changes the state. *)
Theorem wrapper_queries_agree `{Target} (this : loc) (s : state) (p : pointer)
  (bs : list byte) :
  heap_ok s ->
  objs s !! this = Some p ->
  pidl_bytes (heap s) p bs ->
  let n := Z.of_nat (length bs) in
  basic_pidl.get this s = (Ret p, s) /\
  basic_pidl.size this s = (Ret n, s) /\
  basic_pidl.operator_not this s = (Ret (n =? 0), s) /\
  basic_pidl.empty this s = (Ret (n <=? 2), s).
Proof.
  intros Hok Hthis Hb n.
  destruct (pidl_bytes_size s p bs Hok Hb) as (Hsize & _ & Hnn & _).
  split; [exact (load_field_Some _ _ _ Hthis)|].
  split.
  { unfold basic_pidl.size.
    rewrite (bind_Ret _ _ _ _ _ (load_field_Some _ _ _ Hthis)). exact Hsize. }
  split.
  { unfold basic_pidl.operator_not.
    rewrite (bind_Ret _ _ _ _ _ (load_field_Some _ _ _ Hthis)).
    unfold ret. f_equal. f_equal. destruct p as [|b off].
    - simpl in Hb. subst bs. reflexivity.
    - cbn [is_null]. symmetry. apply Z.eqb_neq.
      assert (2 <= n) by (apply Hnn; discriminate). lia. }
  unfold basic_pidl.empty.
  rewrite (bind_Ret _ _ _ _ _ (load_field_Some _ _ _ Hthis)).
  destruct p as [|b off].
  - simpl in Hb. subst bs. reflexivity.
  - cbn [is_null]. cbv iota. destruct Hb as (cbs & W & R).
    assert (Hlen : n = sum_cb cbs + 2).
    { apply read_bytes_Some in R as (_ & _ & _ & _ & _ & _ & _ & Hl).
      exact Hl. }
    inversion W as [pidl Hload|pidl cb cbs' Hload Hcb W']; subst.
    + rewrite (bind_Ret _ _ _ _ _ (mkid_cb_Some _ _ _ Hload)).
      unfold ret. f_equal. f_equal. change (sum_cb [0]) with 0 in Hlen.
      rewrite Hlen. reflexivity.
    + rewrite (bind_Ret _ _ _ _ _ (mkid_cb_Some _ _ _ Hload)).
      unfold ret. f_equal. f_equal.
      apply load_cb_Some in Hload as (_ & _ & _ & _ & _ & Hrange).
      destruct (walk_bounds _ _ _ W' _ _ eq_refl)
        as (_ & _ & _ & _ & _ & _ & Hpos & _).
      pose proof (sum_cb_nonneg _ Hpos).
      change (sum_cb (cb :: cbs')) with (cb + sum_cb cbs') in Hlen.
      destruct (Z.eqb_spec cb 0); [contradiction|].
      symmetry. apply Z.leb_gt. lia.
Qed.

(** ** Stored lists in a changing heap *)

Lemma holds_insert_fresh h b x pidl recs :
  h !! b = None -> holds h pidl recs -> holds (<[b := x]> h) pidl recs.
Proof.
  intros Hb [Hok R]. split; [assumption|].
  apply read_bytes_insert_fresh; assumption.
Qed.

Lemma holds_delete_other h b bp off recs :
  bp <> b -> holds h (Ptr bp off) recs -> holds (delete b h) (Ptr bp off) recs.
Proof.
  intros Hne [Hok R]. split; [assumption|].
  unfold read_bytes in *. rewrite lookup_delete_ne by congruence. exact R.
Qed.

Lemma holds_whole_block h b k recs :
  Forall record_ok recs -> h !! b = Some (k, idlist_bytes recs) ->
  holds h (Ptr b 0) recs.
Proof.
  intros Hok Hb. split; [assumption|]. apply (read_whole_block _ _ k).
  assumption.
Qed.

Lemma holds_live h b off recs :
  holds h (Ptr b off) recs -> is_Some (h !! b).
Proof.
  intros [_ R]. apply read_bytes_Some in R as (k & data & Hb & _). eauto.
Qed.

(** ** Copy construction *)

(** X7: copy construction is a deep copy.  From a wrapper that holds a
    stored list, and from the raw pointer itself, the copy constructors
    build a new wrapper over a block of its own with the same records,
    and leave the source as it was; without room they throw and nothing
    has changed.  The two wrappers have separate lifetimes: destroying
    the copy gives back the state before the copy, and destroying the
    source leaves the copy with its records. *)
Theorem copy_construction_is_deep `{Target} (Alloc : idlist -> Type)
  `{!Allocator Alloc} (k : pool) `{!PoolAllocator Alloc k} (T : idlist)
  (src : loc) (s : state) (p : pointer) (recs : list (list byte)) :
  heap_ok s ->
  objs s !! src = Some p ->
  owned k s p ->
  holds (heap s) p recs ->
  let w := fresh_loc s in
  let b := fresh_block s in
  let s1 := set_objs (<[w := Ptr b 0]> (objs s))
              (with_block s b k (idlist_bytes recs)) in
  (has_room s (Z.of_nat (length (idlist_bytes recs))) ->
   basic_pidl.ctor_copy T Alloc src s = (Ret w, s1) /\
   basic_pidl.ctor_raw T Alloc p s = (Ret w, s1) /\
   objs s !! w = None /\ heap s !! b = None /\ Ptr b 0 <> p /\
   holds (heap s1) (Ptr b 0) recs /\
   objs s1 !! src = Some p /\ holds (heap s1) p recs /\
   basic_pidl.dtor T Alloc w s1 = (Ret tt, s) /\
   exists s2,
     basic_pidl.dtor T Alloc src s1 = (Ret tt, s2) /\
     objs s2 !! w = Some (Ptr b 0) /\ holds (heap s2) (Ptr b 0) recs) /\
  (~ has_room s (Z.of_nat (length (idlist_bytes recs))) ->
   basic_pidl.ctor_copy T Alloc src s = (Throw, s) /\
   basic_pidl.ctor_raw T Alloc p s = (Throw, s)).
Proof.
  intros Hok Hsrc Hown Hh w b s1.
  pose proof (holds_pidl_bytes _ _ _ Hh) as Hb.
  assert (Hnn : p <> NULL) by (intros ->; eapply holds_not_NULL; eauto).
  pose proof (fresh_loc_free s) as Hw. fold w in Hw.
  pose proof (fresh_block_free s) as Hfb. fold b in Hfb.
  assert (Hcopy : forall r, basic_pidl.ctor_raw T Alloc p s = r ->
                            basic_pidl.ctor_copy T Alloc src s = r).
  { intros r <-. unfold basic_pidl.ctor_copy.
    rewrite (bind_Ret _ _ _ _ _ (load_field_Some _ _ _ Hsrc)). reflexivity. }
  split; intros Hroom.
  - pose proof (ctor_raw_room Alloc k T s p _ Hok Hnn Hb Hroom) as Hraw.
    fold w b s1 in Hraw.
    destruct p as [|bp off]; [congruence|]. destruct Hown as [-> [data Hbp]].
    assert (Hne : bp <> b) by congruence.
    assert (Hw1 : objs s1 !! w = Some (Ptr b 0))
      by (subst s1; cbn [objs set_objs]; apply lookup_insert_eq).
    assert (Hsrc1 : objs s1 !! src = Some (Ptr bp 0)).
    { subst s1. cbn [objs set_objs]. rewrite lookup_insert_ne by congruence.
      assumption. }
    assert (Hnew : holds (heap s1) (Ptr b 0) recs).
    { apply (holds_whole_block _ _ k); [apply Hh|]. subst s1.
      unfold with_block. cbn [heap set_objs]. apply lookup_insert_eq. }
    assert (Hbp1 : heap s1 !! bp = Some (k, data)).
    { subst s1. unfold with_block. cbn [heap set_objs].
      rewrite lookup_insert_ne by congruence. assumption. }
    split; [apply Hcopy; exact Hraw|]. split; [exact Hraw|].
    split; [assumption|]. split; [assumption|].
    split; [congruence|]. split; [exact Hnew|].
    split; [exact Hsrc1|].
    split.
    { subst s1. unfold with_block. cbn [heap set_objs].
      apply holds_insert_fresh; assumption. }
    split.
    { rewrite (dtor_owned Alloc k T w s1 (Ptr b 0) Hw1).
      - subst s1. rewrite released_set_objs, set_objs_set_objs.
        cbn [objs set_objs]. rewrite released_with_block by assumption.
        subst w. rewrite forget_new_object. rewrite set_objs_same.
        reflexivity.
      - subst s1. apply owned_new_block. }
    eexists. split.
    { apply (dtor_owned Alloc k T src s1 (Ptr bp 0) Hsrc1).
      split; [reflexivity|]. eauto. }
    split.
    { cbn [objs set_objs]. rewrite lookup_delete_ne by congruence.
      exact Hw1. }
    cbn [heap set_objs]. rewrite (heap_released s1 bp 0 k data Hbp1).
    apply holds_delete_other; [congruence | exact Hnew].
  - pose proof (ctor_raw_no_room Alloc k T s p _ Hok Hnn Hb Hroom) as Hraw.
    split; [apply Hcopy; exact Hraw | exact Hraw].
Qed.

(** ** out and attach *)

(** X8: [out()] gives the wrapper's block back to the pool, leaves the
    wrapper null and returns the address of its pointer field.  Afterwards
    [get] is null, [operator!] and [empty] are true and [size] is 0; the
    block is no longer live; on a wrapper that was null already nothing
    changes, so a second [out()] is harmless. *)
Theorem out_releases_and_nulls `{Target} (Alloc : idlist -> Type)
  `{!Allocator Alloc} (k : pool) `{!PoolAllocator Alloc k} (T : idlist)
  (this : loc) (s : state) (p : pointer) :
  objs s !! this = Some p ->
  owned k s p ->
  let s' := set_objs (<[this := NULL]> (objs s)) (released p s) in
  basic_pidl.out T Alloc this s = (Ret this, s') /\
  basic_pidl.get this s' = (Ret NULL, s') /\
  basic_pidl.operator_not this s' = (Ret true, s') /\
  basic_pidl.size this s' = (Ret 0, s') /\
  basic_pidl.empty this s' = (Ret true, s') /\
  (forall b off, p = Ptr b off -> heap s' !! b = None) /\
  (p = NULL -> s' = s) /\
  basic_pidl.out T Alloc this s' = (Ret this, s').
Proof.
  intros Hthis Hown s'.
  assert (Hn : objs s' !! this = Some NULL)
    by (subst s'; cbn [objs set_objs]; apply lookup_insert_eq).
  split; [exact (out_releases Alloc k T this s p Hthis Hown)|].
  split; [exact (load_field_Some _ _ _ Hn)|].
  split.
  { unfold basic_pidl.operator_not.
    rewrite (bind_Ret _ _ _ _ _ (load_field_Some _ _ _ Hn)). reflexivity. }
  split.
  { unfold basic_pidl.size.
    rewrite (bind_Ret _ _ _ _ _ (load_field_Some _ _ _ Hn)). reflexivity. }
  split.
  { unfold basic_pidl.empty.
    rewrite (bind_Ret _ _ _ _ _ (load_field_Some _ _ _ Hn)). reflexivity. }
  split.
  { intros b off ->. destruct Hown as [-> [data Hb]]. subst s'.
    cbn [heap set_objs]. rewrite (heap_released s b 0 k data Hb).
    apply lookup_delete_eq. }
  split.
  { intros ->. subst s'. cbn [released]. rewrite insert_id by assumption.
    apply set_objs_same. }
  rewrite (out_releases Alloc k T this s' NULL Hn I). cbn [released].
  rewrite insert_id by assumption. rewrite set_objs_same. reflexivity.
Qed.

(** X9: [attach] adopts a raw pointer without copying.  When the pointer
    differs from the one the wrapper holds, in debug and in release builds
    alike the old block goes back to the pool, the wrapper's pointer
    becomes the raw pointer itself, no memory is taken from the pools and
    no other wrapper changes; a block of the raw pointer that is not the
    old block is as it was.  The wrapper now owns the block: its
    destructor gives it back. *)
Theorem attach_adopts_without_copying `{Target} (Alloc : idlist -> Type)
  `{!Allocator Alloc} (k : pool) `{!PoolAllocator Alloc k} (T : idlist)
  (this : loc) (s : state) (old raw : pointer) :
  objs s !! this = Some old ->
  owned k s old ->
  raw <> old ->
  let s' := set_objs (<[this := raw]> (objs s)) (released old s) in
  basic_pidl.attach T Alloc this raw s = (Ret this, s') /\
  basic_pidl.get this s' = (Ret raw, s') /\
  avail s <= avail s' /\
  (forall l, l <> this -> objs s' !! l = objs s !! l) /\
  (forall b off, raw = Ptr b off -> (forall off', old <> Ptr b off') ->
     heap s' !! b = heap s !! b) /\
  (owned k s' raw ->
   basic_pidl.dtor T Alloc this s'
   = (Ret tt, set_objs (delete this (objs s)) (released raw (released old s)))).
Proof.
  intros Hthis Hown Hne s'.
  assert (Hr : objs s' !! this = Some raw)
    by (subst s'; cbn [objs set_objs]; apply lookup_insert_eq).
  split.
  { unfold basic_pidl.attach.
    rewrite (bind_Ret _ _ _ _ _ (load_field_Some _ _ _ Hthis)).
    rewrite (bind_Ret _ _ s tt s).
    2:{ unfold assert. destruct NDEBUG; [reflexivity|].
        rewrite bool_decide_eq_false_2 by congruence. reflexivity. }
    rewrite (bind_Ret _ _ s tt (released old s))
      by (rewrite deallocate_pool; apply sys_free_owned; assumption).
    assert (Hthis' : objs (released old s) !! this = Some old).
    { destruct old as [|b off]; [assumption|]. unfold released.
      destruct (heap s !! b) as [[k' d]|]; assumption. }
    rewrite (bind_Ret _ _ _ _ _ (store_field_Some _ _ _ raw Hthis')).
    unfold ret. f_equal. subst s'. apply state_eq; try reflexivity.
    cbn [objs set_objs]. f_equal.
    destruct old as [|b off]; [reflexivity|]. unfold released.
    destruct (heap s !! b) as [[k' d]|]; reflexivity. }
  split; [exact (load_field_Some _ _ _ Hr)|].
  split.
  { subst s'. cbn [avail set_objs]. destruct old as [|b off]; [simpl; lia|].
    destruct Hown as [-> [data Hb]]. unfold released. rewrite Hb.
    cbn [avail]. lia. }
  split.
  { intros l Hl. subst s'. cbn [objs set_objs].
    apply lookup_insert_ne. congruence. }
  split.
  { intros b off -> Hother. subst s'. cbn [heap set_objs].
    destruct old as [|bo offo]; [reflexivity|].
    destruct Hown as [-> [data Hb]]. rewrite (heap_released s bo 0 k data Hb).
    apply lookup_delete_ne. intros ->. exact (Hother 0 eq_refl). }
  intros Hown'.
  rewrite (dtor_owned Alloc k T this s' raw Hr Hown').
  f_equal. subst s'. rewrite released_set_objs, set_objs_set_objs.
  cbn [objs set_objs]. rewrite delete_insert_eq. reflexivity.
Qed.

(** X10: attaching the pointer a wrapper already holds.  A debug build
    stops at the assertion before anything is released.  A release build
    gives the block back to the pool and stores the same pointer again:
    the wrapper is left holding the address of a block that is no longer
    live, so that its [size] and its destructor are undefined
    behaviour. *)
Theorem attach_of_own_pointer `{Target} (Alloc : idlist -> Type)
  `{!Allocator Alloc} (k : pool) `{!PoolAllocator Alloc k} (T : idlist)
  (this : loc) (s : state) (b : block) (data : list byte) :
  objs s !! this = Some (Ptr b 0) ->
  heap s !! b = Some (k, data) ->
  (NDEBUG = false ->
   basic_pidl.attach T Alloc this (Ptr b 0) s = (Abort, s)) /\
  (NDEBUG = true ->
   let s' := released (Ptr b 0) s in
   basic_pidl.attach T Alloc this (Ptr b 0) s = (Ret this, s') /\
   objs s' !! this = Some (Ptr b 0) /\
   heap s' !! b = None /\
   basic_pidl.size this s' = (Undef, s') /\
   basic_pidl.dtor T Alloc this s' = (Undef, s')).
Proof.
  intros Hthis Hb. split; intros Hdebug.
  - unfold basic_pidl.attach.
    rewrite (bind_Ret _ _ _ _ _ (load_field_Some _ _ _ Hthis)).
    unfold bind at 1, assert. rewrite Hdebug.
    rewrite bool_decide_eq_true_2 by reflexivity. reflexivity.
  - intros s'.
    assert (Hown : owned k s (Ptr b 0)) by (split; eauto).
    assert (Hthis' : objs s' !! this = Some (Ptr b 0)).
    { subst s'. unfold released. rewrite Hb. exact Hthis. }
    assert (Hgone : heap s' !! b = None).
    { subst s'. rewrite (heap_released s b 0 k data Hb).
      apply lookup_delete_eq. }
    split.
    { unfold basic_pidl.attach.
      rewrite (bind_Ret _ _ _ _ _ (load_field_Some _ _ _ Hthis)).
      rewrite (bind_Ret _ _ s tt s)
        by (unfold assert; rewrite Hdebug; reflexivity).
      rewrite (bind_Ret _ _ s tt s')
        by (rewrite deallocate_pool; apply sys_free_owned; assumption).
      rewrite (bind_Ret _ _ _ _ _ (store_field_Some _ _ _ (Ptr b 0) Hthis')).
      unfold ret. f_equal. rewrite insert_id by assumption.
      apply set_objs_same. }
    split; [exact Hthis'|]. split; [exact Hgone|].
    split.
    { unfold basic_pidl.size.
      rewrite (bind_Ret _ _ _ _ _ (load_field_Some _ _ _ Hthis')).
      unfold raw_pidl.size. cbn [is_null]. cbv iota.
      unfold raw_pidl.walk_budget. rewrite Hgone.
      cbn [raw_pidl.size_loop]. unfold bind at 1, raw_pidl.mkid_cb at 1.
      unfold load_cb, byte_at. rewrite Hgone. reflexivity. }
    unfold basic_pidl.dtor. unfold bind at 1. unfold nothrow.
    rewrite (bind_Ret _ _ _ _ _ (load_field_Some _ _ _ Hthis')).
    rewrite deallocate_pool. unfold sys_free. rewrite Hgone. reflexivity.
Qed.

(** X11: [attach] performs no check of where a block comes from.  A block
    of the other pool is adopted like any other, and the mismatch shows
    only later, as undefined behaviour, when the wrapper gives the block
    to its own allocator: in its destructor, in [out()], or in the next
    [attach]. *)
Theorem attach_does_not_check_the_pool `{Target} (Alloc : idlist -> Type)
  `{!Allocator Alloc} (k : pool) `{!PoolAllocator Alloc k} (T : idlist)
  (this : loc) (s : state) (b : block) (k' : pool) (data : list byte)
  (raw : pointer) :
  objs s !! this = Some NULL ->
  heap s !! b = Some (k', data) ->
  k' <> k ->
  raw <> Ptr b 0 ->
  let s' := set_objs (<[this := Ptr b 0]> (objs s)) s in
  basic_pidl.attach T Alloc this (Ptr b 0) s = (Ret this, s') /\
  basic_pidl.dtor T Alloc this s' = (Undef, s') /\
  basic_pidl.out T Alloc this s' = (Undef, s') /\
  basic_pidl.attach T Alloc this raw s' = (Undef, s').
Proof.
  intros Hthis Hb Hk Hraw s'.
  assert (Hthis' : objs s' !! this = Some (Ptr b 0))
    by (subst s'; cbn [objs set_objs]; apply lookup_insert_eq).
  assert (Hfree : deallocate Alloc T (Ptr b 0) s' = (Undef, s')).
  { rewrite deallocate_pool. unfold sys_free. subst s'. cbn [heap set_objs].
    rewrite Hb. rewrite bool_decide_eq_false_2 by assumption. reflexivity. }
  split.
  { apply (attach_fresh Alloc k T this (Ptr b 0) s Hthis). discriminate. }
  split.
  { unfold basic_pidl.dtor. unfold bind at 1. unfold nothrow.
    rewrite (bind_Ret _ _ _ _ _ (load_field_Some _ _ _ Hthis')).
    rewrite Hfree. reflexivity. }
  split.
  { unfold basic_pidl.out.
    rewrite (bind_Ret _ _ _ _ _ (load_field_Some _ _ _ Hthis')).
    unfold bind at 1. rewrite Hfree. reflexivity. }
  unfold basic_pidl.attach.
  rewrite (bind_Ret _ _ _ _ _ (load_field_Some _ _ _ Hthis')).
  rewrite (bind_Ret _ _ s' tt s').
  2:{ unfold assert. destruct NDEBUG; [reflexivity|].
      rewrite bool_decide_eq_false_2 by congruence. reflexivity. }
  unfold bind at 1. rewrite Hfree. reflexivity.
Qed.

(** ** operator+, run forward *)

Lemma has_room_for_one `{Target} s n : has_room_for s 1 n <-> has_room s n.
Proof. unfold has_room_for, has_room. rewrite Z.mul_1_l. reflexivity. Qed.

Lemma has_room_for_two `{Target} s b k data :
  has_room_for s 2 (Z.of_nat (length data))
  <-> has_room s (Z.of_nat (length data)) /\
      has_room (with_block s b k data) (Z.of_nat (length data)).
Proof.
  unfold has_room_for, has_room, with_block. cbn [avail]. lia.
Qed.

Lemma idlist_bytes_app_length recs1 recs2 :
  (length (idlist_bytes recs1) <= length (idlist_bytes (recs1 ++ recs2)))%nat.
Proof.
  unfold idlist_bytes. rewrite records_bytes_app, !length_app. lia.
Qed.

Section JoinForward.
Context `{Target}.
Context (Alloc : idlist -> Type) `{!Allocator Alloc}.
Context (k : pool) `{!PoolAllocator Alloc k}.

Lemma dtor_new_wrapper T s data :
  basic_pidl.dtor T Alloc (fresh_loc s)
    (with_wrapper k s (fresh_loc s) (fresh_block s) data)
  = (Ret tt, s).
Proof.
  unfold with_wrapper.
  rewrite (dtor_owned Alloc k T _ _ (Ptr (fresh_block s) 0)).
  - rewrite released_set_objs, set_objs_set_objs. cbn [objs set_objs].
    rewrite released_with_block by apply fresh_block_free.
    rewrite forget_new_object. rewrite set_objs_same. reflexivity.
  - cbn [objs set_objs]. apply lookup_insert_eq.
  - apply owned_new_block.
Qed.

Lemma dtor_null_wrapper T s :
  basic_pidl.dtor T Alloc (fresh_loc s)
    (set_objs (<[fresh_loc s := NULL]> (objs s)) s)
  = (Ret tt, s).
Proof.
  rewrite (dtor_owned Alloc k T _ _ NULL).
  - cbn [released]. rewrite set_objs_set_objs. cbn [objs set_objs].
    rewrite forget_new_object. apply f_equal. apply set_objs_same.
  - cbn [objs set_objs]. apply lookup_insert_eq.
  - exact I.
Qed.

Lemma unwind_Throw {A} (m : M A) cleanup s s1 s2 :
  m s = (Throw, s1) -> cleanup s1 = (Ret tt, s2) ->
  unwind m cleanup s = (Throw, s2).
Proof.
  intros Hm Hc. unfold unwind. rewrite Hm.
  rewrite (bind_Ret _ _ _ _ _ Hc). reflexivity.
Qed.

(** [operator+] on two wrappers that hold stored lists: with room, a new
    wrapper over a new block with the records of both; without, an
    exception and the state as before.  When the result is copied out of
    the local, the local's block is live while the copy is made. *)
Lemma join_run T U lw rw dummy s lhs rhs recs1 recs2 :
  heap_ok s ->
  objs s !! lw = Some lhs -> objs s !! rw = Some rhs ->
  holds (heap s) lhs recs1 -> holds (heap s) rhs recs2 ->
  let data := idlist_bytes (recs1 ++ recs2) in
  let n := Z.of_nat (length data) in
  (has_room_for s (if return_elided then 1 else 2) n ->
   exists w b,
     objs s !! w = None /\ heap s !! b = None /\
     join Alloc T U lw rw dummy s = (Ret w, with_wrapper k s w b data)) /\
  (~ has_room_for s (if return_elided then 1 else 2) n ->
   join Alloc T U lw rw dummy s = (Throw, s)).
Proof.
  intros Hok Hlw Hrw Hl Hr data n.
  pose proof (holds_pidl_bytes _ _ _ Hl) as Bl.
  pose proof (holds_pidl_bytes _ _ _ Hr) as Br.
  assert (Hnn : ~ (lhs = NULL /\ rhs = NULL)).
  { intros [-> _]. eapply holds_not_NULL; eauto. }
  destruct (join_body_run Alloc k T U lw rw dummy s lhs rhs _ _
              Hok Hlw Hrw Bl Br Hnn) as [Hbody Hbody_throw].
  rewrite combined_idlist in Hbody, Hbody_throw. fold data n in Hbody, Hbody_throw.
  pose proof (fresh_loc_free s) as Hl_free.
  pose proof (fresh_block_free s) as Hb_free.
  set (l := fresh_loc s) in *. set (b := fresh_block s) in *.
  set (s1 := set_objs (<[l := NULL]> (objs s)) s) in *.
  assert (Hctor : basic_pidl.ctor s = (Ret l, s1)) by reflexivity.
  assert (Hdtor1 : basic_pidl.dtor (raw_pidl.combine_type T) Alloc l s1
                   = (Ret tt, s)) by apply dtor_null_wrapper.
  rewrite (join_unfold Alloc). unfold basic_pidl.return_local.
  destruct return_elided.
  - rewrite has_room_for_one. split; intros Hroom.
    + exists l, b. split; [assumption|]. split; [assumption|].
      rewrite (bind_Ret _ _ _ _ _ Hctor).
      rewrite (bind_Ret _ _ _ _ _ (unwind_Ret _ _ _ _ _ (Hbody Hroom))).
      reflexivity.
    + rewrite (bind_Ret _ _ _ _ _ Hctor). apply bind_Throw.
      exact (unwind_Throw _ _ _ _ _ (Hbody_throw Hroom) Hdtor1).
  - pose proof (has_room_for_two s b k data) as Htwo. fold n in Htwo.
    rewrite Htwo. clear Htwo.
    unfold basic_pidl.with_local. rewrite (bind_Ret _ _ _ _ _ Hctor).
    destruct (has_room_dec s n) as [Hroom|Hroom].
    2:{ split; [tauto|]. intros _. apply bind_Throw.
        apply (unwind_Throw _ _ _ s1 s); [|exact Hdtor1].
        apply bind_Throw. exact (Hbody_throw Hroom). }
    specialize (Hbody Hroom). fold (with_wrapper k s l b data) in Hbody.
    set (s2 := with_wrapper k s l b data) in *.
    assert (Hl2 : objs s2 !! l = Some (Ptr b 0))
      by (subst s2; unfold with_wrapper; cbn [objs set_objs];
          apply lookup_insert_eq).
    assert (Hok2 : heap_ok s2).
    { apply (with_block_heap_ok s b k data Hok). apply Hroom. }
    assert (Hd2 : holds (heap s2) (Ptr b 0) (recs1 ++ recs2)).
    { apply (holds_whole_block _ _ k).
      - apply Forall_app. split; [apply Hl | apply Hr].
      - subst s2. unfold with_wrapper, with_block. cbn [heap set_objs].
        apply lookup_insert_eq. }
    pose proof (holds_pidl_bytes _ _ _ Hd2) as Bd. fold data in Bd.
    assert (Hdtor2 : basic_pidl.dtor (raw_pidl.combine_type T) Alloc l s2
                     = (Ret tt, s)) by apply dtor_new_wrapper.
    change (has_room (with_block s b k data) n) with (has_room s2 n).
    split.
    + intros [_ Hroom2].
      pose proof (ctor_raw_room Alloc k (raw_pidl.combine_type T) s2
                    (Ptr b 0) data Hok2 ltac:(discriminate) Bd Hroom2) as Hc.
      set (w := fresh_loc s2) in *. set (b2 := fresh_block s2) in *.
      pose proof (fresh_loc_free s2) as Hw_free. fold w in Hw_free.
      pose proof (fresh_block_free s2) as Hb2_free. fold b2 in Hb2_free.
      change (objs s2) with (<[l := Ptr b 0]> (objs s)) in Hw_free.
      apply lookup_insert_None in Hw_free as [Hw_s Hw_l].
      change (heap s2) with (<[b := (k, data)]> (heap s)) in Hb2_free.
      apply lookup_insert_None in Hb2_free as [Hb2_s Hb2_b].
      exists w, b2. split; [assumption|]. split; [assumption|].
      set (s3 := set_objs (<[w := Ptr b2 0]> (objs s2)) (with_block s2 b2 k data))
        in *.
      assert (Hcopy : basic_pidl.ctor_copy (raw_pidl.combine_type T) Alloc l s2
                      = (Ret w, s3)).
      { unfold basic_pidl.ctor_copy.
        rewrite (bind_Ret _ _ _ _ _ (load_field_Some _ _ _ Hl2)). exact Hc. }
      rewrite (bind_Ret _ _ s1 w s3).
      2:{ apply unwind_Ret. rewrite (bind_Ret _ _ _ _ _ Hbody). exact Hcopy. }
      assert (Hl3 : objs s3 !! l = Some (Ptr b 0)).
      { subst s3. cbn [objs set_objs]. rewrite lookup_insert_ne by congruence.
        exact Hl2. }
      assert (Hb3 : heap s3 !! b = Some (k, data)).
      { subst s3 s2. unfold with_wrapper, with_block. cbn [heap set_objs].
        rewrite lookup_insert_ne by congruence. apply lookup_insert_eq. }
      rewrite (bind_Ret _ _ s3 tt
                 (set_objs (delete l (objs s3)) (released (Ptr b 0) s3))).
      2:{ apply (dtor_owned Alloc k _ l s3 (Ptr b 0) Hl3).
          split; [reflexivity|]. eauto. }
      unfold ret. f_equal. apply state_eq.
      * cbn [heap set_objs]. rewrite (heap_released s3 b 0 k data Hb3).
        subst s3 s2. unfold with_wrapper, with_block. cbn [heap set_objs].
        rewrite delete_insert_ne by congruence.
        rewrite delete_insert_id by assumption. reflexivity.
      * cbn [avail set_objs]. unfold released. rewrite Hb3.
        subst s3 s2. unfold with_wrapper, with_block. cbn [avail set_objs].
        lia.
      * cbn [objs set_objs]. subst s3 s2. unfold with_wrapper.
        cbn [objs set_objs with_block].
        rewrite delete_insert_ne by congruence.
        rewrite delete_insert_id by assumption. reflexivity.
    + intros Hno. assert (Hroom2 : ~ has_room s2 n) by tauto.
      apply bind_Throw. apply (unwind_Throw _ _ _ s2 s); [|exact Hdtor2].
      rewrite (bind_Ret _ _ _ _ _ Hbody).
      unfold basic_pidl.ctor_copy.
      rewrite (bind_Ret _ _ _ _ _ (load_field_Some _ _ _ Hl2)).
      exact (ctor_raw_no_room Alloc k (raw_pidl.combine_type T) s2
               (Ptr b 0) data Hok2 ltac:(discriminate) Bd Hroom2).
Qed.
End JoinForward.

Lemma dtor_with_wrapper `{Target} (Alloc : idlist -> Type) `{!Allocator Alloc}
  (k : pool) `{!PoolAllocator Alloc k} T s w b data :
  objs s !! w = None -> heap s !! b = None ->
  basic_pidl.dtor T Alloc w (with_wrapper k s w b data) = (Ret tt, s).
Proof.
  intros Hw Hb. unfold with_wrapper.
  rewrite (dtor_owned Alloc k T _ _ (Ptr b 0)).
  - rewrite released_set_objs, set_objs_set_objs. cbn [objs set_objs].
    rewrite released_with_block by assumption.
    rewrite delete_insert_id by assumption. rewrite set_objs_same.
    reflexivity.
  - cbn [objs set_objs]. apply lookup_insert_eq.
  - apply owned_new_block.
Qed.

Lemma holds_with_wrapper k s w b recs :
  Forall record_ok recs ->
  holds (heap (with_wrapper k s w b (idlist_bytes recs))) (Ptr b 0) recs.
Proof.
  intros Hok. apply (holds_whole_block _ _ k); [assumption|].
  unfold with_wrapper, with_block. cbn [heap set_objs]. apply lookup_insert_eq.
Qed.

Lemma holds_kept_with_wrapper k s w b data pidl recs :
  heap s !! b = None -> holds (heap s) pidl recs ->
  holds (heap (with_wrapper k s w b data)) pidl recs.
Proof.
  intros Hb Hh. unfold with_wrapper, with_block. cbn [heap set_objs].
  apply holds_insert_fresh; assumption.
Qed.

(** X12: [operator+] on wrappers that hold stored lists, empty lists
    included.  With room for the result (for two copies of it, when the
    compiler copies the returned local), it returns a new wrapper over a
    new block that holds the records of the left list followed by those of
    the right one, of size [size(lhs) + size(rhs) - 2]; the pools have
    given exactly that many bytes, both operands are as they were, and
    destroying the result gives back the state before the call.  Without
    that room [std::bad_alloc] leaves and the state is as before: the
    local of [operator+] has been destroyed. *)
Theorem join_appends_the_right_list `{Target} (Alloc : idlist -> Type)
  `{!Allocator Alloc} (k : pool) `{!PoolAllocator Alloc k} (T U : idlist)
  (dummy : enable_if_c (raw_pidl.is_appendable U)) (s : state)
  (lw rw : loc) (lhs rhs : pointer) (recs1 recs2 : list (list byte)) :
  heap_ok s ->
  objs s !! lw = Some lhs ->
  objs s !! rw = Some rhs ->
  holds (heap s) lhs recs1 ->
  holds (heap s) rhs recs2 ->
  let n := Z.of_nat (length (idlist_bytes (recs1 ++ recs2))) in
  let copies := if return_elided then 1 else 2 in
  (has_room_for s copies n ->
   exists w b sj,
     join Alloc T U lw rw dummy s = (Ret w, sj) /\
     objs s !! w = None /\ heap s !! b = None /\
     objs sj !! w = Some (Ptr b 0) /\
     holds (heap sj) (Ptr b 0) (recs1 ++ recs2) /\
     basic_pidl.size w sj
     = (Ret (Z.of_nat (length (idlist_bytes recs1))
             + Z.of_nat (length (idlist_bytes recs2)) - 2), sj) /\
     avail sj = avail s - n /\
     objs sj !! lw = Some lhs /\ objs sj !! rw = Some rhs /\
     holds (heap sj) lhs recs1 /\ holds (heap sj) rhs recs2 /\
     basic_pidl.dtor (basic_pidl.join_type T) Alloc w sj = (Ret tt, s)) /\
  (~ has_room_for s copies n ->
   join Alloc T U lw rw dummy s = (Throw, s)).
Proof.
  intros Hok Hlw Hrw Hl Hr n copies.
  destruct (join_run Alloc k T U lw rw dummy s lhs rhs recs1 recs2
              Hok Hlw Hrw Hl Hr) as [Hrun Hthrow].
  split; [|exact Hthrow].
  intros Hroom. destruct (Hrun Hroom) as (w & b & Hw & Hb & E).
  exists w, b, (with_wrapper k s w b (idlist_bytes (recs1 ++ recs2))).
  assert (Hall : Forall record_ok (recs1 ++ recs2))
    by (apply Forall_app; split; [apply Hl | apply Hr]).
  pose proof (holds_with_wrapper k s w b _ Hall) as Hnew.
  assert (Hwj : objs (with_wrapper k s w b (idlist_bytes (recs1 ++ recs2)))
                !! w = Some (Ptr b 0))
    by (unfold with_wrapper; cbn [objs set_objs]; apply lookup_insert_eq).
  assert (Hn : n <= PTRDIFF_MAX) by (destruct copies; apply Hroom).
  split; [exact E|]. split; [exact Hw|]. split; [exact Hb|].
  split; [exact Hwj|]. split; [exact Hnew|].
  split.
  { unfold basic_pidl.size.
    rewrite (bind_Ret _ _ _ _ _ (load_field_Some _ _ _ Hwj)).
    assert (Hokj : heap_ok
                     (with_wrapper k s w b (idlist_bytes (recs1 ++ recs2))))
      by (apply (with_block_heap_ok s b k _ Hok); exact Hn).
    destruct (pidl_bytes_size _ _ _ Hokj (holds_pidl_bytes _ _ _ Hnew))
      as (Hsize & _).
    rewrite Hsize. f_equal. f_equal. unfold idlist_bytes.
    rewrite records_bytes_app, !length_app. simpl. lia. }
  split; [reflexivity|].
  split.
  { unfold with_wrapper. cbn [objs set_objs].
    rewrite lookup_insert_ne by congruence. assumption. }
  split.
  { unfold with_wrapper. cbn [objs set_objs].
    rewrite lookup_insert_ne by congruence. assumption. }
  split; [apply holds_kept_with_wrapper; assumption|].
  split; [apply holds_kept_with_wrapper; assumption|].
  apply (dtor_with_wrapper Alloc k); assumption.
Qed.

Lemma attach_null_to_null `{Target} (Alloc : idlist -> Type)
  `{!Allocator Alloc} (k : pool) `{!PoolAllocator Alloc k} T l s :
  objs s !! l = Some NULL ->
  basic_pidl.attach T Alloc l NULL s
  = if NDEBUG then (Ret l, s) else (Abort, s).
Proof.
  intros Hl. unfold basic_pidl.attach.
  rewrite (bind_Ret _ _ _ _ _ (load_field_Some _ _ _ Hl)).
  unfold assert. rewrite bool_decide_eq_true_2 by reflexivity.
  cbn [negb]. destruct NDEBUG; [|reflexivity].
  rewrite (bind_Ret _ _ s tt s) by reflexivity.
  rewrite (bind_Ret _ _ s tt s) by (rewrite deallocate_pool; reflexivity).
  rewrite (bind_Ret _ _ _ _ _ (store_field_Some _ _ _ NULL Hl)).
  rewrite insert_id by assumption. rewrite set_objs_same. reflexivity.
Qed.

(** X13: [operator+] on two null wrappers.  [combine] returns the null
    pointer, and [attach] is called with the pointer the new wrapper
    already holds: a debug build stops at the assertion of [attach]; a
    release build returns a new null wrapper and takes no memory. *)
Theorem join_of_two_null_wrappers `{Target} (Alloc : idlist -> Type)
  `{!Allocator Alloc} (k : pool) `{!PoolAllocator Alloc k} (T U : idlist)
  (dummy : enable_if_c (raw_pidl.is_appendable U)) (s : state)
  (lw rw : loc) :
  objs s !! lw = Some NULL ->
  objs s !! rw = Some NULL ->
  (NDEBUG = false -> fst (join Alloc T U lw rw dummy s) = Abort) /\
  (NDEBUG = true ->
   exists w,
     objs s !! w = None /\
     join Alloc T U lw rw dummy s
     = (Ret w, set_objs (<[w := NULL]> (objs s)) s)).
Proof.
  intros Hlw Hrw.
  pose proof (fresh_loc_free s) as Hl_free.
  set (l := fresh_loc s) in *.
  set (s1 := set_objs (<[l := NULL]> (objs s)) s).
  assert (Hctor : basic_pidl.ctor s = (Ret l, s1)) by reflexivity.
  assert (Hl1 : objs s1 !! l = Some NULL)
    by (subst s1; cbn [objs set_objs]; apply lookup_insert_eq).
  assert (Hlw1 : objs s1 !! lw = Some NULL).
  { subst s1. cbn [objs set_objs]. rewrite lookup_insert_ne by congruence.
    assumption. }
  assert (Hrw1 : objs s1 !! rw = Some NULL).
  { subst s1. cbn [objs set_objs]. rewrite lookup_insert_ne by congruence.
    assumption. }
  assert (Hbody : join_body Alloc T U lw rw dummy l s1
                  = if NDEBUG then (Ret tt, s1) else (Abort, s1)).
  { unfold join_body, basic_pidl.get.
    rewrite (bind_Ret _ _ _ _ _ (load_field_Some _ _ _ Hlw1)).
    rewrite (bind_Ret _ _ _ _ _ (load_field_Some _ _ _ Hrw1)).
    rewrite (bind_Ret _ _ s1 NULL s1) by reflexivity.
    unfold bind.
    rewrite (attach_null_to_null Alloc k _ l s1 Hl1).
    destruct NDEBUG; reflexivity. }
  assert (Hdtor1 : basic_pidl.dtor (raw_pidl.combine_type T) Alloc l s1
                   = (Ret tt, s)) by apply (dtor_null_wrapper Alloc k).
  rewrite (join_unfold Alloc). unfold basic_pidl.return_local.
  split; intros Hdebug; rewrite Hdebug in Hbody.
  - destruct return_elided.
    + rewrite (bind_Ret _ _ _ _ _ Hctor). unfold bind, unwind.
      rewrite Hbody. reflexivity.
    + unfold basic_pidl.with_local. rewrite (bind_Ret _ _ _ _ _ Hctor).
      unfold bind, unwind. rewrite Hbody. reflexivity.
  - destruct return_elided.
    + exists l. split; [assumption|].
      rewrite (bind_Ret _ _ _ _ _ Hctor).
      rewrite (bind_Ret _ _ _ _ _ (unwind_Ret _ _ _ _ _ Hbody)).
      reflexivity.
    + pose proof (fresh_loc_free s1) as Hw_free.
      set (w := fresh_loc s1) in *.
      change (objs s1) with (<[l := NULL]> (objs s)) in Hw_free.
      apply lookup_insert_None in Hw_free as [Hw_s Hw_l].
      exists w. split; [assumption|].
      unfold basic_pidl.with_local. rewrite (bind_Ret _ _ _ _ _ Hctor).
      set (s2 := set_objs (<[w := NULL]> (objs s1)) s1).
      rewrite (bind_Ret _ _ s1 w s2).
      2:{ apply unwind_Ret. rewrite (bind_Ret _ _ _ _ _ Hbody).
          unfold basic_pidl.ctor_copy.
          rewrite (bind_Ret _ _ _ _ _ (load_field_Some _ _ _ Hl1)).
          reflexivity. }
      assert (Hl2 : objs s2 !! l = Some NULL).
      { subst s2. cbn [objs set_objs]. rewrite lookup_insert_ne by congruence.
        exact Hl1. }
      rewrite (bind_Ret _ _ _ _ _
                 (dtor_owned Alloc k _ l s2 NULL Hl2 I)).
      unfold ret. f_equal. subst s2 s1.
      apply state_eq; cbn [heap avail objs set_objs released];
        try reflexivity.
      rewrite delete_insert_ne by congruence.
      rewrite delete_insert_id by assumption. reflexivity.
Qed.

(** ** combine, composed *)

Lemma combine_stored `{Target} (Alloc : idlist -> Type) `{!Allocator Alloc}
  (k : pool) `{!PoolAllocator Alloc k} T U dummy s lhs rhs recs1 recs2 :
  heap_ok s ->
  holds (heap s) lhs recs1 -> holds (heap s) rhs recs2 ->
  has_room s (Z.of_nat (length (idlist_bytes (recs1 ++ recs2)))) ->
  let s' := with_block s (fresh_block s) k (idlist_bytes (recs1 ++ recs2)) in
  raw_pidl.combine Alloc T U lhs rhs dummy s = (Ret (Ptr (fresh_block s) 0), s') /\
  heap_ok s' /\
  holds (heap s') (Ptr (fresh_block s) 0) (recs1 ++ recs2) /\
  (forall pidl recs, holds (heap s) pidl recs -> holds (heap s') pidl recs).
Proof.
  intros Hok Hl Hr Hroom s'.
  assert (Hnn : ~ (lhs = NULL /\ rhs = NULL)).
  { intros [-> _]. eapply holds_not_NULL; eauto. }
  destruct (combine_run Alloc k T U s _ _ _ _ dummy Hok
              (holds_pidl_bytes _ _ _ Hl) (holds_pidl_bytes _ _ _ Hr) Hnn)
    as [Hrun _].
  rewrite combined_idlist in Hrun.
  split; [exact (Hrun Hroom)|].
  split; [apply with_block_heap_ok; [assumption | apply Hroom]|].
  split.
  - apply (holds_whole_block _ _ k).
    + apply Forall_app. split; [apply Hl | apply Hr].
    + subst s'. unfold with_block. cbn [heap]. apply lookup_insert_eq.
  - intros pidl recs Hh. subst s'. unfold with_block. cbn [heap].
    apply holds_insert_fresh; [apply fresh_block_free | assumption].
Qed.

Lemma idlist_bytes_app_length_r recs1 recs2 :
  (length (idlist_bytes recs2) <= length (idlist_bytes (recs1 ++ recs2)))%nat.
Proof.
  unfold idlist_bytes. rewrite records_bytes_app, !length_app. lia.
Qed.

(** X14: [combine] is associative on stored lists.  Combining [a] with
    [b] and the result with [c], and combining [a] with the combination of
    [b] and [c], both return a list with the records of [a], of [b] and of
    [c] in that order, of the same size and of the same type. *)
Theorem combine_is_associative `{Target} (Alloc : idlist -> Type)
  `{!Allocator Alloc} (k : pool) `{!PoolAllocator Alloc k} (T U V : idlist)
  (dU : enable_if_c (raw_pidl.is_appendable U))
  (dV : enable_if_c (raw_pidl.is_appendable V))
  (dUV : enable_if_c (raw_pidl.is_appendable (raw_pidl.combine_type U)))
  (s : state) (a b c : pointer) (ra rb rc : list (list byte)) :
  heap_ok s ->
  holds (heap s) a ra ->
  holds (heap s) b rb ->
  holds (heap s) c rc ->
  let n := Z.of_nat (length (idlist_bytes (ra ++ rb ++ rc))) in
  has_room_for s 2 n ->
  raw_pidl.combine_type (raw_pidl.combine_type T) = raw_pidl.combine_type T /\
  exists abc1 s1 abc2 s2,
    (ab <- raw_pidl.combine Alloc T U a b dU ;;
     raw_pidl.combine Alloc (raw_pidl.combine_type T) V ab c dV) s
    = (Ret abc1, s1) /\
    (bc <- raw_pidl.combine Alloc U V b c dV ;;
     raw_pidl.combine Alloc T (raw_pidl.combine_type U) a bc dUV) s
    = (Ret abc2, s2) /\
    holds (heap s1) abc1 (ra ++ rb ++ rc) /\
    holds (heap s2) abc2 (ra ++ rb ++ rc) /\
    raw_pidl.size abc1 s1 = (Ret n, s1) /\
    raw_pidl.size abc2 s2 = (Ret n, s2).
Proof.
  intros Hok Ha Hb Hc n [Havail Hmax].
  split; [destruct T; reflexivity|].
  pose proof (idlist_bytes_app_length (ra ++ rb) rc) as Hab.
  rewrite <- app_assoc in Hab.
  pose proof (idlist_bytes_app_length_r ra (rb ++ rc)) as Hbc.
  fold n in Hab, Hbc.
  (* left first *)
  assert (Hroom_ab : has_room s (Z.of_nat (length (idlist_bytes (ra ++ rb)))))
    by (split; lia).
  destruct (combine_stored Alloc k T U dU s a b ra rb Hok Ha Hb Hroom_ab)
    as (E1 & Hok1 & Hab1 & Hkeep1).
  set (sab := with_block s (fresh_block s) k (idlist_bytes (ra ++ rb))) in *.
  assert (Hroom1 : has_room sab
                     (Z.of_nat (length (idlist_bytes ((ra ++ rb) ++ rc))))).
  { rewrite <- app_assoc. fold n. subst sab. unfold with_block.
    split; cbn [avail]; lia. }
  destruct (combine_stored Alloc k (raw_pidl.combine_type T) V dV sab _ c
              (ra ++ rb) rc Hok1 Hab1 (Hkeep1 _ _ Hc) Hroom1)
    as (E2 & Hok2 & Habc1 & _).
  (* right first *)
  assert (Hroom_bc : has_room s (Z.of_nat (length (idlist_bytes (rb ++ rc)))))
    by (split; lia).
  destruct (combine_stored Alloc k U V dV s b c rb rc Hok Hb Hc Hroom_bc)
    as (E3 & Hok3 & Hbc3 & Hkeep3).
  set (sbc := with_block s (fresh_block s) k (idlist_bytes (rb ++ rc))) in *.
  assert (Hroom2 : has_room sbc
                     (Z.of_nat (length (idlist_bytes (ra ++ rb ++ rc))))).
  { fold n. subst sbc. unfold with_block. split; cbn [avail]; lia. }
  destruct (combine_stored Alloc k T (raw_pidl.combine_type U) dUV sbc a _
              ra (rb ++ rc) Hok3 (Hkeep3 _ _ Ha) Hbc3 Hroom2)
    as (E4 & Hok4 & Habc2 & _).
  rewrite <- app_assoc in Habc1, E2, Hok2.
  eexists _, _, _, _.
  split; [rewrite (bind_Ret _ _ _ _ _ E1); exact E2|].
  split; [rewrite (bind_Ret _ _ _ _ _ E3); exact E4|].
  split; [exact Habc1|]. split; [exact Habc2|].
  split.
  - exact (proj1 (pidl_bytes_size _ _ _ Hok2 (holds_pidl_bytes _ _ _ Habc1))).
  - exact (proj1 (pidl_bytes_size _ _ _ Hok4 (holds_pidl_bytes _ _ _ Habc2))).
Qed.

(** ** operator+= *)

Lemma has_room_for_dec `{Target} s c n :
  {has_room_for s c n} + {~ has_room_for s c n}.
Proof.
  unfold has_room_for.
  destruct (Z_le_dec (c * n) (avail s)); [|right; tauto].
  destruct (Z_le_dec n PTRDIFF_MAX); [left; tauto | right; tauto].
Qed.

Lemma bind_assoc_at {A B C} (m : M A) (k1 : A -> M B) (k2 : B -> M C) s :
  (y <- (x <- m ;; k1 x) ;; k2 y) s = (x <- m ;; y <- k1 x ;; k2 y) s.
Proof. unfold bind. destruct (m s) as [[a| | | |] s1]; reflexivity. Qed.

Section JoinAssignForward.
Context `{Target}.
Context (Alloc : idlist -> Type) `{!Allocator Alloc}.
Context (k : pool) `{!PoolAllocator Alloc k}.

Lemma join_assign_unfold T U fuel lw rw dummy same :
  join_assign Alloc T U fuel lw rw dummy same
  = (basic_pidl.with_local (raw_pidl.combine_type T) Alloc
       (join Alloc T U lw rw dummy)
       (fun sum => basic_pidl.assign T Alloc fuel lw sum) ;;
     ret lw).
Proof. reflexivity. Qed.

(** [lhs_pidl += rhs_pidl] on wrappers that hold stored lists: the sum is
    built, copied into the left wrapper and destroyed, which takes room for
    two copies of the result; otherwise the exception leaves the state as
    it was. *)
Lemma join_assign_run T U fuel lw rw dummy same s lhs rhs recs1 recs2 :
  alloc_eq (construct Alloc T) (construct Alloc T) = true ->
  heap_ok s ->
  objs s !! lw = Some lhs -> objs s !! rw = Some rhs ->
  owned k s lhs ->
  holds (heap s) lhs recs1 -> holds (heap s) rhs recs2 ->
  let data := idlist_bytes (recs1 ++ recs2) in
  let n := Z.of_nat (length data) in
  (has_room_for s 2 n ->
   exists b',
     heap s !! b' = None /\
     join_assign Alloc T U (S fuel) lw rw dummy same s
     = (Ret lw,
        set_objs (<[lw := Ptr b' 0]> (objs s))
          (with_block (released lhs s) b' k data))) /\
  (~ has_room_for s 2 n ->
   join_assign Alloc T U (S fuel) lw rw dummy same s = (Throw, s)).
Proof.
  intros Heq Hok Hlw Hrw Hown Hl Hr data n.
  destruct (join_run Alloc k T U lw rw dummy s lhs rhs recs1 recs2
              Hok Hlw Hrw Hl Hr) as [Hrun Hthrow].
  fold data n in Hrun, Hthrow.
  rewrite join_assign_unfold. unfold basic_pidl.with_local.
  rewrite bind_assoc_at.
  assert (Hall : Forall record_ok (recs1 ++ recs2))
    by (apply Forall_app; split; [apply Hl | apply Hr]).
  assert (Hn0 : 0 <= n) by (subst n; lia).
  set (c := if return_elided then 1 else 2) in *.
  assert (Hc : c = 1 \/ c = 2) by (subst c; destruct return_elided; auto).
  destruct (has_room_for_dec s c n) as [Hroomc|Hroomc].
  2:{ split.
      - intros [Ha Hm]. exfalso. apply Hroomc. split; [|assumption].
        destruct Hc as [-> | ->]; lia.
      - intros _. apply bind_Throw. exact (Hthrow Hroomc). }
  destruct (Hrun Hroomc) as (w & b & Hw & Hb & E). clear Hrun Hthrow.
  set (sJ := with_wrapper k s w b data) in *.
  assert (Hlw_w : lw <> w) by congruence.
  assert (HwJ : objs sJ !! w = Some (Ptr b 0))
    by (subst sJ; unfold with_wrapper; cbn [objs set_objs];
        apply lookup_insert_eq).
  assert (HlwJ : objs sJ !! lw = Some lhs).
  { subst sJ. unfold with_wrapper. cbn [objs set_objs].
    rewrite lookup_insert_ne by congruence. assumption. }
  assert (HokJ : heap_ok sJ).
  { apply (with_block_heap_ok s b k data Hok). apply Hroomc. }
  pose proof (holds_pidl_bytes _ _ _ (holds_with_wrapper k s w b _ Hall)) as Bd.
  fold data sJ in Bd.
  assert (HdtorJ : basic_pidl.dtor (raw_pidl.combine_type T) Alloc w sJ
                   = (Ret tt, s))
    by (apply (dtor_with_wrapper Alloc k); assumption).
  rewrite (bind_Ret _ _ _ _ _ E). rewrite bind_assoc_at.
  pose proof (assign_as_assign_raw Alloc T (S fuel) lw w sJ (Ptr b 0) HwJ)
    as Hraw.
  destruct (has_room_dec sJ n) as [HroomJ|HroomJ].
  2:{ split.
      - intros [Ha Hm]. exfalso. apply HroomJ. subst sJ.
        unfold has_room, with_wrapper, with_block. cbn [avail set_objs].
        fold n. lia.
      - intros _. apply bind_Throw.
        apply (unwind_Throw _ _ _ sJ s); [|exact HdtorJ].
        rewrite Hraw.
        exact (assign_raw_no_room Alloc k T (S fuel) lw (Ptr b 0) sJ data
                 HokJ ltac:(discriminate) Bd HroomJ). }
  split; [intros _ | intros Hno; exfalso; apply Hno].
  2:{ destruct HroomJ as [Ha Hm]. subst sJ.
      unfold with_wrapper, with_block in Ha. cbn [avail set_objs] in Ha.
      fold n in Ha. split; [lia | assumption]. }
  destruct lhs as [|bl offl]; [exfalso; eapply holds_not_NULL; eauto|].
  destruct Hown as [-> [dl Hbl]].
  assert (Hbl_b : bl <> b) by congruence.
  assert (HownJ : owned k sJ (Ptr bl 0)).
  { split; [reflexivity|]. exists dl. subst sJ.
    unfold with_wrapper, with_block. cbn [heap set_objs].
    rewrite lookup_insert_ne by congruence. assumption. }
  pose proof (assign_raw_installs Alloc k T fuel lw (Ptr b 0) sJ (Ptr bl 0)
                data Heq HokJ HlwJ HownJ ltac:(discriminate) Bd HroomJ) as EA.
  pose proof (fresh_block_free sJ) as Hb2.
  set (b2 := fresh_block sJ) in *.
  change (heap sJ) with (<[b := (k, data)]> (heap s)) in Hb2.
  apply lookup_insert_None in Hb2 as [Hb2_s Hb2_b].
  assert (Hbl_b2 : bl <> b2) by congruence.
  set (sA := set_objs (<[lw := Ptr b2 0]> (objs sJ))
               (released (Ptr bl 0) (with_block sJ b2 k data))) in *.
  assert (Hlook : heap (with_block sJ b2 k data) !! bl = Some (k, dl)).
  { subst sJ. unfold with_wrapper, with_block. cbn [heap set_objs].
    rewrite !lookup_insert_ne by congruence. assumption. }
  assert (HheapA : heap sA
                   = delete bl (<[b2 := (k, data)]> (<[b := (k, data)]> (heap s)))).
  { subst sA. cbn [heap set_objs].
    rewrite (heap_released _ bl 0 k dl Hlook). reflexivity. }
  assert (HavailA : avail sA = avail s - n - n + Z.of_nat (length dl)).
  { subst sA. cbn [avail set_objs]. unfold released. rewrite Hlook.
    subst sJ. unfold with_wrapper, with_block. cbn [avail set_objs]. lia. }
  assert (HobjsA : objs sA = <[lw := Ptr b2 0]> (<[w := Ptr b 0]> (objs s))).
  { subst sA. reflexivity. }
  assert (HwA : objs sA !! w = Some (Ptr b 0)).
  { rewrite HobjsA. rewrite lookup_insert_ne by congruence.
    apply lookup_insert_eq. }
  assert (HbA : heap sA !! b = Some (k, data)).
  { rewrite HheapA. rewrite lookup_delete_ne by congruence.
    rewrite lookup_insert_ne by congruence. apply lookup_insert_eq. }
  exists b2. split; [assumption|].
  rewrite (bind_Ret _ _ sJ lw sA)
    by (apply unwind_Ret; rewrite Hraw; exact EA).
  rewrite bind_assoc_at.
  rewrite (bind_Ret _ _ sA tt
             (set_objs (delete w (objs sA)) (released (Ptr b 0) sA))).
  2:{ apply (dtor_owned Alloc k _ w sA (Ptr b 0) HwA).
      split; [reflexivity|]. eauto. }
  rewrite (bind_Ret _ _ _ lw
             (set_objs (delete w (objs sA)) (released (Ptr b 0) sA)))
    by reflexivity.
  unfold ret. f_equal. apply state_eq.
  - cbn [heap set_objs]. rewrite (heap_released sA b 0 k data HbA), HheapA.
    unfold with_block. cbn [heap]. rewrite (heap_released s bl 0 k dl Hbl).
    rewrite (delete_delete _ b bl).
    rewrite (delete_insert_ne _ b b2) by congruence.
    rewrite delete_insert_id by assumption.
    rewrite delete_insert_ne by congruence. reflexivity.
  - cbn [avail set_objs]. unfold released at 1. rewrite HbA. cbn [avail].
    rewrite HavailA. unfold with_block, released. rewrite Hbl. cbn [avail].
    fold n. lia.
  - cbn [objs set_objs]. rewrite HobjsA.
    rewrite delete_insert_ne by congruence.
    rewrite delete_insert_id by assumption. reflexivity.
Qed.
End JoinAssignForward.

Lemma heap_ok_released `{Target} s p : heap_ok s -> heap_ok (released p s).
Proof.
  intros Hok. destruct p as [|b off]; [assumption|]. unfold released.
  destruct (heap s !! b) as [[k data]|] eqn:Hb; [|assumption].
  intros b' k' data' Hb'. cbn [heap] in Hb'.
  apply lookup_delete_Some in Hb' as [_ Hb']. eapply Hok; eauto.
Qed.

(** X15: [lhs += rhs] on wrappers that hold stored lists, when the pools
    have room for two copies of the result.  The left wrapper is not a
    child wrapper (for one, the statement is not well typed).  The call
    returns the left wrapper, which now holds a new block with its old
    records followed by those of the right list; its old block has gone
    back to the pool, the temporary sum is gone, and no other wrapper has
    changed.  The right list is as it was unless it lived in the block
    that was released, as it does in [x += x]. *)
Theorem join_assign_appends_in_place `{Target} (Alloc : idlist -> Type)
  `{!Allocator Alloc} (k : pool) `{!PoolAllocator Alloc k} (T U : idlist)
  (fuel : nat) (lw rw : loc)
  (dummy : enable_if_c (raw_pidl.is_appendable U))
  (same : basic_pidl.join_type T = T)
  (s : state) (lhs rhs : pointer) (recs1 recs2 : list (list byte)) :
  alloc_eq (construct Alloc T) (construct Alloc T) = true ->
  heap_ok s ->
  objs s !! lw = Some lhs ->
  objs s !! rw = Some rhs ->
  owned k s lhs ->
  holds (heap s) lhs recs1 ->
  holds (heap s) rhs recs2 ->
  has_room_for s 2 (Z.of_nat (length (idlist_bytes (recs1 ++ recs2)))) ->
  T <> ITEMID_CHILD /\
  exists b' s',
    join_assign Alloc T U (S fuel) lw rw dummy same s = (Ret lw, s') /\
    heap s !! b' = None /\
    objs s' = <[lw := Ptr b' 0]> (objs s) /\
    holds (heap s') (Ptr b' 0) (recs1 ++ recs2) /\
    basic_pidl.size lw s'
    = (Ret (Z.of_nat (length (idlist_bytes recs1))
            + Z.of_nat (length (idlist_bytes recs2)) - 2), s') /\
    (forall bl off, lhs = Ptr bl off -> heap s' !! bl = None) /\
    (forall br off, rhs = Ptr br off -> lhs <> Ptr br 0 ->
       holds (heap s') rhs recs2).
Proof.
  intros Heq Hok Hlw Hrw Hown Hl Hr Hroom.
  split; [intros ->; discriminate same|].
  destruct (join_assign_run Alloc k T U fuel lw rw dummy same s lhs rhs
              recs1 recs2 Heq Hok Hlw Hrw Hown Hl Hr) as [Hrun _].
  destruct (Hrun Hroom) as (b' & Hb' & E). clear Hrun.
  set (data := idlist_bytes (recs1 ++ recs2)) in *.
  set (s' := set_objs (<[lw := Ptr b' 0]> (objs s))
               (with_block (released lhs s) b' k data)) in *.
  exists b', s'.
  destruct lhs as [|bl offl]; [exfalso; eapply holds_not_NULL; eauto|].
  destruct Hown as [-> [dl Hbl]].
  assert (Hne : bl <> b') by congruence.
  assert (Hheap : heap s' = <[b' := (k, data)]> (delete bl (heap s))).
  { subst s'. unfold with_block. cbn [heap set_objs].
    rewrite (heap_released s bl 0 k dl Hbl). reflexivity. }
  assert (Hnew : holds (heap s') (Ptr b' 0) (recs1 ++ recs2)).
  { apply (holds_whole_block _ _ k).
    - apply Forall_app. split; [apply Hl | apply Hr].
    - rewrite Hheap. apply lookup_insert_eq. }
  assert (Hok' : heap_ok s').
  { subst s'. apply (with_block_heap_ok _ b' k data).
    - apply heap_ok_released. assumption.
    - apply Hroom. }
  assert (Hlw' : objs s' !! lw = Some (Ptr b' 0))
    by (subst s'; cbn [objs set_objs]; apply lookup_insert_eq).
  split; [exact E|]. split; [exact Hb'|]. split; [reflexivity|].
  split; [exact Hnew|].
  split.
  { unfold basic_pidl.size.
    rewrite (bind_Ret _ _ _ _ _ (load_field_Some _ _ _ Hlw')).
    rewrite (proj1 (pidl_bytes_size _ _ _ Hok' (holds_pidl_bytes _ _ _ Hnew))).
    f_equal. f_equal. unfold idlist_bytes.
    rewrite records_bytes_app, !length_app. simpl. lia. }
  split.
  { intros bl' off E'. injection E' as <- _. rewrite Hheap.
    rewrite lookup_insert_ne by congruence. apply lookup_delete_eq. }
  intros br off -> Hother. rewrite Hheap.
  apply holds_insert_fresh.
  - rewrite lookup_delete_ne by congruence. assumption.
  - apply holds_delete_other; [congruence | assumption].
Qed.

(** X16: [lhs += rhs] needs room for two copies of the result, although
    it keeps one: when the pools cannot provide that, [std::bad_alloc]
    leaves and the state is exactly as before (both wrappers, every block
    and the available memory), even where the sum itself could be built,
    as [operator+] shows in the same state. *)
Theorem join_assign_needs_room_for_two_copies `{Target}
  (Alloc : idlist -> Type) `{!Allocator Alloc} (k : pool)
  `{!PoolAllocator Alloc k} (T U : idlist) (fuel : nat) (lw rw : loc)
  (dummy : enable_if_c (raw_pidl.is_appendable U))
  (same : basic_pidl.join_type T = T)
  (s : state) (lhs rhs : pointer) (recs1 recs2 : list (list byte)) :
  alloc_eq (construct Alloc T) (construct Alloc T) = true ->
  heap_ok s ->
  objs s !! lw = Some lhs ->
  objs s !! rw = Some rhs ->
  owned k s lhs ->
  holds (heap s) lhs recs1 ->
  holds (heap s) rhs recs2 ->
  let n := Z.of_nat (length (idlist_bytes (recs1 ++ recs2))) in
  ~ has_room_for s 2 n ->
  join_assign Alloc T U (S fuel) lw rw dummy same s = (Throw, s) /\
  (return_elided = true -> has_room s n ->
   exists w sj, join Alloc T U lw rw dummy s = (Ret w, sj)).
Proof.
  intros Heq Hok Hlw Hrw Hown Hl Hr n Hroom.
  split.
  - destruct (join_assign_run Alloc k T U fuel lw rw dummy same s lhs rhs
                recs1 recs2 Heq Hok Hlw Hrw Hown Hl Hr) as [_ Hthrow].
    exact (Hthrow Hroom).
  - intros Helide Hone.
    destruct (join_run Alloc k T U lw rw dummy s lhs rhs recs1 recs2
                Hok Hlw Hrw Hl Hr) as [Hrun _].
    rewrite Helide in Hrun. fold n in Hrun.
    destruct (Hrun (proj2 (has_room_for_one s n) Hone)) as (w & b & _ & _ & E).
    eauto.
Qed.

(** ** Assignment: the source is the destination, or null *)

(** X17: assigning a wrapper to itself, or assigning it the raw pointer it
    holds, is safe.  The list is copied before the old block is released:
    with room for a second copy the wrapper ends up holding the same
    records in a new block, and its old block, with every raw pointer
    into it, is no longer live; without room the assignment throws and
    nothing has changed. *)
Theorem self_assignment_is_safe `{Target} (Alloc : idlist -> Type)
  `{!Allocator Alloc} (k : pool) `{!PoolAllocator Alloc k} (T : idlist)
  (fuel : nat) (this : loc) (s : state) (p : pointer)
  (recs : list (list byte)) :
  alloc_eq (construct Alloc T) (construct Alloc T) = true ->
  heap_ok s ->
  objs s !! this = Some p ->
  owned k s p ->
  holds (heap s) p recs ->
  let n := Z.of_nat (length (idlist_bytes recs)) in
  let b := fresh_block s in
  let s' := set_objs (<[this := Ptr b 0]> (objs s))
              (released p (with_block s b k (idlist_bytes recs))) in
  (has_room s n ->
   basic_pidl.assign T Alloc (S fuel) this this s = (Ret this, s') /\
   basic_pidl.assign_raw T Alloc (S fuel) this p s = (Ret this, s') /\
   objs s' !! this = Some (Ptr b 0) /\
   holds (heap s') (Ptr b 0) recs /\
   (forall bp off, p = Ptr bp off -> heap s' !! bp = None)) /\
  (~ has_room s n ->
   basic_pidl.assign T Alloc (S fuel) this this s = (Throw, s) /\
   basic_pidl.assign_raw T Alloc (S fuel) this p s = (Throw, s)).
Proof.
  intros Heq Hok Hthis Hown Hh n b s'.
  pose proof (holds_pidl_bytes _ _ _ Hh) as Hb.
  assert (Hnn : p <> NULL) by (intros ->; eapply holds_not_NULL; eauto).
  pose proof (assign_as_assign_raw Alloc T (S fuel) this this s p Hthis) as Hraw.
  pose proof (fresh_block_free s) as Hfresh. fold b in Hfresh.
  split; intros Hroom.
  - pose proof (assign_raw_installs Alloc k T fuel this p s p _
                  Heq Hok Hthis Hown Hnn Hb Hroom) as E.
    fold b s' in E.
    destruct p as [|bp off]; [congruence|]. destruct Hown as [-> [dp Hbp]].
    assert (Hne : bp <> b) by congruence.
    assert (Hheap : heap s' = delete bp (<[b := (k, idlist_bytes recs)]> (heap s))).
    { subst s'. cbn [heap set_objs].
      apply (heap_released (with_block s b k (idlist_bytes recs)) bp 0 k dp).
      unfold with_block. cbn [heap]. rewrite lookup_insert_ne by congruence.
      assumption. }
    split; [rewrite Hraw; exact E|]. split; [exact E|].
    split; [subst s'; cbn [objs set_objs]; apply lookup_insert_eq|].
    split.
    { apply (holds_whole_block _ _ k); [apply Hh|]. rewrite Hheap.
      rewrite lookup_delete_ne by congruence. apply lookup_insert_eq. }
    intros bp' off' E'. injection E' as <- _. rewrite Hheap.
    apply lookup_delete_eq.
  - pose proof (assign_raw_no_room Alloc k T (S fuel) this p s _
                  Hok Hnn Hb Hroom) as E.
    split; [rewrite Hraw; exact E | exact E].
Qed.

(** X18: assigning a null pointer, or a null wrapper, releases what the
    destination holds and leaves it null.  No memory is needed, so that no
    exception is possible, and the effect on the state is that of
    [out()]. *)
Theorem assigning_null_releases `{Target} (Alloc : idlist -> Type)
  `{!Allocator Alloc} (k : pool) `{!PoolAllocator Alloc k} (T : idlist)
  (fuel : nat) (this pidl : loc) (s : state) (old : pointer) :
  alloc_eq (construct Alloc T) (construct Alloc T) = true ->
  objs s !! this = Some old ->
  owned k s old ->
  objs s !! pidl = Some NULL ->
  let s' := set_objs (<[this := NULL]> (objs s)) (released old s) in
  basic_pidl.assign_raw T Alloc (S fuel) this NULL s = (Ret this, s') /\
  basic_pidl.assign T Alloc (S fuel) this pidl s = (Ret this, s') /\
  basic_pidl.out T Alloc this s = (Ret this, s') /\
  basic_pidl.operator_not this s' = (Ret true, s') /\
  avail s <= avail s' /\
  (forall b off, old = Ptr b off -> heap s' !! b = None).
Proof.
  intros Heq Hthis Hown Hpidl s'.
  pose proof (assign_raw_NULL Alloc k T fuel this s old Heq Hthis Hown) as E.
  fold s' in E.
  assert (Hn : objs s' !! this = Some NULL)
    by (subst s'; cbn [objs set_objs]; apply lookup_insert_eq).
  split; [exact E|].
  split.
  { rewrite (assign_as_assign_raw Alloc T (S fuel) this pidl s NULL Hpidl).
    exact E. }
  split; [exact (out_releases Alloc k T this s old Hthis Hown)|].
  split.
  { unfold basic_pidl.operator_not.
    rewrite (bind_Ret _ _ _ _ _ (load_field_Some _ _ _ Hn)). reflexivity. }
  split.
  { subst s'. cbn [avail set_objs]. destruct old as [|b off]; [simpl; lia|].
    destruct Hown as [-> [data Hb]]. unfold released. rewrite Hb.
    cbn [avail]. lia. }
  intros b off ->. destruct Hown as [-> [data Hb]]. subst s'.
  cbn [heap set_objs]. rewrite (heap_released s b 0 k data Hb).
  apply lookup_delete_eq.
Qed.

(** ** The free function swap *)

(** X19: the free function [swap] on two wrappers with the default
    allocator does what the member does: it exchanges the two pointers and
    touches nothing else.  The order of its arguments does not matter, and
    swapping a wrapper with itself changes nothing. *)
Theorem free_swap_is_symmetric `{Target} (T : idlist) (fuel fuel' : nat)
  (pidl1 pidl2 : loc) (s : state) (p1 p2 : pointer) :
  objs s !! pidl1 = Some p1 ->
  objs s !! pidl2 = Some p2 ->
  swap T (S fuel) pidl1 pidl2 s
  = (Ret tt, set_objs (<[pidl1 := p2]> (<[pidl2 := p1]> (objs s))) s) /\
  swap T (S fuel) pidl1 pidl2 s
  = basic_pidl.swap T newdelete_alloc (S fuel) pidl1 pidl2 s /\
  swap T (S fuel) pidl1 pidl2 s = swap T (S fuel') pidl2 pidl1 s /\
  swap T (S fuel) pidl1 pidl1 s = (Ret tt, s).
Proof.
  intros H1 H2.
  assert (Hrun : forall f a b pa pb,
             objs s !! a = Some pa -> objs s !! b = Some pb ->
             swap T (S f) a b s
             = (Ret tt, set_objs (<[a := pb]> (<[b := pa]> (objs s))) s)).
  { intros f a b pa pb Ha Hb. unfold swap. apply nothrow_Ret.
    apply (swap_same_allocator T newdelete_alloc f a b s pa pb);
      [reflexivity | assumption | assumption]. }
  split; [exact (Hrun fuel _ _ _ _ H1 H2)|].
  split.
  { rewrite (Hrun fuel _ _ _ _ H1 H2). symmetry.
    apply (swap_same_allocator T newdelete_alloc fuel pidl1 pidl2 s p1 p2);
      [reflexivity | assumption | assumption]. }
  split.
  { rewrite (Hrun fuel _ _ _ _ H1 H2), (Hrun fuel' _ _ _ _ H2 H1).
    f_equal. f_equal. destruct (decide (pidl1 = pidl2)) as [->|Hne].
    - congruence.
    - apply insert_insert_ne. assumption. }
  rewrite (Hrun fuel _ _ _ _ H1 H1). f_equal.
  rewrite insert_insert_eq, insert_id by assumption. apply set_objs_same.
Qed.

(** X20: a wrapper can be built from any address at which a list is
    stored, such as the one [next] returns: the raw-pointer constructor
    copies from there to the terminator into a block of the wrapper's own
    allocator, whatever pool the source lives in, and leaves the source as
    it was. *)
Theorem wrapper_from_the_rest_of_a_list `{Target} (Alloc : idlist -> Type)
  `{!Allocator Alloc} (k : pool) `{!PoolAllocator Alloc k} (T : idlist)
  (s : state) (pidl : pointer) (r : list byte) (recs : list (list byte)) :
  heap_ok s ->
  holds (heap s) pidl (r :: recs) ->
  has_room s (Z.of_nat (length (idlist_bytes recs))) ->
  let w := fresh_loc s in
  let b := fresh_block s in
  let s' := with_wrapper k s w b (idlist_bytes recs) in
  (rest <- raw_pidl.next pidl ;; basic_pidl.ctor_raw T Alloc rest) s
  = (Ret w, s') /\
  objs s' !! w = Some (Ptr b 0) /\
  heap s' !! b = Some (k, idlist_bytes recs) /\
  holds (heap s') (Ptr b 0) recs /\
  holds (heap s') pidl (r :: recs).
Proof.
  intros Hok Hh Hroom w b s'.
  assert (Hcb : load_cb (heap s) pidl = Some (record_cb r)).
  { pose proof (holds_walk _ _ _ Hh) as W. simpl in W.
    inversion W; subst; [|assumption].
    unfold record_cb in *. lia. }
  assert (Hrest : holds (heap s) (skip pidl (record_cb r)) recs).
  { destruct Hh as [Hall R]. inversion Hall as [|r' recs' Hr Hrecs]; subst.
    split; [assumption|]. rewrite idlist_bytes_cons in R.
    pose proof (read_bytes_skip _ _ _ _ (record_cb r) R) as Rs.
    rewrite length_app, Nat2Z.inj_add, record_bytes_length in Rs.
    replace (record_cb r + Z.of_nat (length (idlist_bytes recs)) - record_cb r)
      with (Z.of_nat (length (idlist_bytes recs))) in Rs by lia.
    rewrite Rs by (unfold record_cb; lia). f_equal.
    rewrite <- record_bytes_length, Nat2Z.id. apply drop_app_length. }
  assert (Hnn : skip pidl (record_cb r) <> NULL)
    by (intros E; rewrite E in Hrest; eapply holds_not_NULL; eauto).
  split.
  { unfold raw_pidl.next. rewrite bind_assoc_at.
    rewrite (bind_Ret _ _ _ _ _ (mkid_cb_Some _ _ _ Hcb)).
    rewrite (bind_Ret _ _ s (skip pidl (record_cb r)) s) by reflexivity.
    exact (ctor_raw_room Alloc k T s _ _ Hok Hnn
             (holds_pidl_bytes _ _ _ Hrest) Hroom). }
  split; [subst s'; unfold with_wrapper; cbn [objs set_objs];
          apply lookup_insert_eq|].
  split; [subst s'; unfold with_wrapper, with_block; cbn [heap set_objs];
          apply lookup_insert_eq|].
  split; [apply holds_with_wrapper; apply Hrest|].
  apply holds_kept_with_wrapper; [apply fresh_block_free | assumption].
Qed.

(** X21: the assertions of [StorageMedium::out] and [StorageMedium::get]
    can never fail.  Each condition is the check or-ed with a string
    literal, and a literal is a pointer that is not null: in debug builds
    as in release builds, [out] returns the address of a medium that holds
    a resource and [get] returns an empty medium. *)
Theorem StorageMedium_assertions_never_fail `{Target} (STGMEDIUM : Type)
  (tymed : STGMEDIUM -> Z) (text : block) (this : loc)
  (st : gmap loc STGMEDIUM) (m : STGMEDIUM) :
  st !! this = Some m ->
  StorageMedium.out STGMEDIUM tymed text this st = Ret this /\
  StorageMedium.get STGMEDIUM tymed text this st = Ret this /\
  StorageMedium.empty STGMEDIUM tymed this st
  = Some (StorageMedium.returns bool (tymed m =? 0)).
Proof.
  intros Hthis.
  assert (He : StorageMedium.empty STGMEDIUM tymed this st
               = Some (StorageMedium.returns bool (tymed m =? 0))).
  { unfold StorageMedium.empty. rewrite Hthis. reflexivity. }
  split; [|split; [|exact He]].
  - unfold StorageMedium.out. destruct NDEBUG; [reflexivity|]. rewrite He.
    rewrite orb_true_r. reflexivity.
  - unfold StorageMedium.get. destruct NDEBUG; [reflexivity|]. rewrite He.
    rewrite orb_true_r. reflexivity.
Qed.

(** ** Where no exception can come from *)

Lemma attach_run `{Target} (Alloc : idlist -> Type) `{!Allocator Alloc}
  (k : pool) `{!PoolAllocator Alloc k} T this s old raw :
  objs s !! this = Some old -> owned k s old -> raw <> old ->
  basic_pidl.attach T Alloc this raw s
  = (Ret this, set_objs (<[this := raw]> (objs s)) (released old s)).
Proof.
  intros Hthis Hown Hne. unfold basic_pidl.attach.
  rewrite (bind_Ret _ _ _ _ _ (load_field_Some _ _ _ Hthis)).
  rewrite (bind_Ret _ _ s tt s).
  2:{ unfold assert. destruct NDEBUG; [reflexivity|].
      rewrite bool_decide_eq_false_2 by congruence. reflexivity. }
  rewrite (bind_Ret _ _ s tt (released old s))
    by (rewrite deallocate_pool; apply sys_free_owned; assumption).
  assert (Hthis' : objs (released old s) !! this = Some old).
  { destruct old as [|b off]; [assumption|]. unfold released.
    destruct (heap s !! b) as [[k' d]|]; assumption. }
  rewrite (bind_Ret _ _ _ _ _ (store_field_Some _ _ _ raw Hthis')).
  unfold ret. f_equal. apply state_eq; try reflexivity.
  cbn [objs set_objs]. f_equal.
  destruct old as [|b off]; [reflexivity|]. unfold released.
  destruct (heap s !! b) as [[k' d]|]; reflexivity.
Qed.

(** X22: only allocation throws.  On a live wrapper that owns its block
    and holds a well-formed list (or is null), however little memory is
    left, [deallocate], [out()], [attach] of another pointer, the
    destructor and the queries [size], [empty], [operator!] and [get] all
    return normally; in the destructor no exception is raised, so its
    [throw()] has nothing to stop.  In the same state the copy
    constructors throw when the list does not fit in what is left. *)
Theorem only_allocation_throws `{Target} (Alloc : idlist -> Type)
  `{!Allocator Alloc} (k : pool) `{!PoolAllocator Alloc k} (T : idlist)
  (this : loc) (s : state) (p raw : pointer) (bs : list byte) :
  heap_ok s ->
  objs s !! this = Some p ->
  owned k s p ->
  pidl_bytes (heap s) p bs ->
  raw <> p ->
  deallocate Alloc T p s = (Ret tt, released p s) /\
  basic_pidl.out T Alloc this s
  = (Ret this, set_objs (<[this := NULL]> (objs s)) (released p s)) /\
  basic_pidl.attach T Alloc this raw s
  = (Ret this, set_objs (<[this := raw]> (objs s)) (released p s)) /\
  basic_pidl.dtor T Alloc this s
  = (Ret tt, set_objs (delete this (objs s)) (released p s)) /\
  basic_pidl.dtor T Alloc this s
  = (m_pidl <- load_field this ;; deallocate Alloc T m_pidl ;;
     delete_object this) s /\
  basic_pidl.size this s = (Ret (Z.of_nat (length bs)), s) /\
  (exists e, basic_pidl.empty this s = (Ret e, s)) /\
  basic_pidl.operator_not this s = (Ret (is_null p), s) /\
  basic_pidl.get this s = (Ret p, s) /\
  (p <> NULL -> ~ has_room s (Z.of_nat (length bs)) ->
   basic_pidl.ctor_copy T Alloc this s = (Throw, s) /\
   basic_pidl.ctor_raw T Alloc p s = (Throw, s)).
Proof.
  intros Hok Hthis Hown Hb Hraw.
  assert (Hfree : deallocate Alloc T p s = (Ret tt, released p s))
    by (rewrite deallocate_pool; apply sys_free_owned; assumption).
  pose proof (dtor_owned Alloc k T this s p Hthis Hown) as Hdtor.
  split; [exact Hfree|].
  split; [exact (out_releases Alloc k T this s p Hthis Hown)|].
  split; [exact (attach_run Alloc k T this s p raw Hthis Hown Hraw)|].
  split; [exact Hdtor|].
  split.
  { rewrite Hdtor.
    rewrite (bind_Ret _ _ _ _ _ (load_field_Some _ _ _ Hthis)).
    rewrite (bind_Ret _ _ _ _ _ Hfree). unfold delete_object. f_equal.
    f_equal. destruct p as [|b off]; [reflexivity|]. unfold released.
    destruct (heap s !! b) as [[k' d]|]; reflexivity. }
  split.
  { unfold basic_pidl.size.
    rewrite (bind_Ret _ _ _ _ _ (load_field_Some _ _ _ Hthis)).
    exact (proj1 (pidl_bytes_size s p bs Hok Hb)). }
  split.
  { unfold basic_pidl.empty.
    rewrite (bind_Ret _ _ _ _ _ (load_field_Some _ _ _ Hthis)).
    destruct p as [|b off]; [eexists; reflexivity|].
    cbn [is_null]. cbv iota. destruct Hb as (cbs & W & _).
    assert (exists cb, load_cb (heap s) (Ptr b off) = Some cb) as [cb Hcb]
      by (inversion W; subst; eauto).
    rewrite (bind_Ret _ _ _ _ _ (mkid_cb_Some _ _ _ Hcb)).
    eexists. reflexivity. }
  split.
  { unfold basic_pidl.operator_not.
    rewrite (bind_Ret _ _ _ _ _ (load_field_Some _ _ _ Hthis)). reflexivity. }
  split; [exact (load_field_Some _ _ _ Hthis)|].
  intros Hnn Hroom.
  pose proof (ctor_raw_no_room Alloc k T s p bs Hok Hnn Hb Hroom) as Hc.
  split; [|exact Hc].
  unfold basic_pidl.ctor_copy.
  rewrite (bind_Ret _ _ _ _ _ (load_field_Some _ _ _ Hthis)). exact Hc.
Qed.

(** * The end-to-end example, run *)

Lemma heap_ok_small `{Target} s : small_blocks s = true -> heap_ok s.
Proof.
  intros Hall b k data Hb. pose proof PTRDIFF_MAX_big.
  unfold small_blocks in Hall. rewrite forallb_forall in Hall.
  apply elem_of_map_to_list in Hb. apply list_elem_of_In in Hb.
  specialize (Hall _ Hb). simpl in Hall. lia.
Qed.

Section Examples.
#[local] Existing Instance Win32_release.

Lemma demo_ok : heap_ok demo.
Proof. apply heap_ok_small. vm_compute. reflexivity. Qed.

Lemma demo_holds_host1 : holds (heap demo) C1_pidl host1.
Proof. split; [repeat constructor | vm_compute; reflexivity]. Qed.

Lemma demo_holds_path1 : holds (heap demo) C2_pidl path1.
Proof. split; [repeat constructor | vm_compute; reflexivity]. Qed.

Lemma demo_holds_empty : holds (heap demo) empty_pidl [].
Proof. split; [constructor | vm_compute; reflexivity]. Qed.

Lemma demo_walk_host1 : walk (heap demo) C1_pidl [7; 0].
Proof.
  apply walk_record; [reflexivity | discriminate |].
  apply walk_terminator. reflexivity.
Qed.

Lemma demo_room n : 0 <= n <= 4096 -> has_room demo n.
Proof.
  intros Hn. split; [simpl; lia|].
  pose proof PTRDIFF_MAX_big. lia.
Qed.

Lemma demo_fresh_block : fresh_block demo = 4%positive.
Proof. vm_compute. reflexivity. Qed.

Lemma demo_empty_bytes : pidl_bytes (heap demo) empty_pidl terminator.
Proof. exact (holds_pidl_bytes _ _ _ demo_holds_empty). Qed.

Lemma demo_host1_bytes : pidl_bytes (heap demo) C1_pidl (idlist_bytes host1).
Proof. exact (holds_pidl_bytes _ _ _ demo_holds_host1). Qed.

Lemma demo_path1_bytes : pidl_bytes (heap demo) C2_pidl (idlist_bytes path1).
Proof. exact (holds_pidl_bytes _ _ _ demo_holds_path1). Qed.

(** [size] of ["host1"] is 7 + 2. *)
Lemma size_sums_record_lengths_witness :
  raw_pidl.size C1_pidl demo = (Ret 9, demo) /\
  list.last [7; 0] = Some 0.
Proof.
  pose proof (size_sums_record_lengths demo C1_pidl [7; 0] demo_ok
                demo_walk_host1) as (_ & Hsize & Hlast & _).
  split; [exact Hsize | exact Hlast].
Defined.

(** [R = C1 + C2]: [size(R) = size(C1) + size(C2) - 2], and [R] holds
    ["host1"], ["path1"] and the terminator. *)
Lemma combine_joins_records_witness :
  raw_pidl.combine cotaskmem_alloc ITEMID_CHILD ITEMID_CHILD C1_pidl C2_pidl
    tt demo
  = (Ret (Ptr (fresh_block demo) 0),
     with_block demo (fresh_block demo) com_task_memory
       (idlist_bytes (host1 ++ path1))) /\
  Z.of_nat (length (idlist_bytes (host1 ++ path1))) = 9 + 9 - 2.
Proof.
  pose proof (combine_joins_records cotaskmem_alloc com_task_memory
                ITEMID_CHILD ITEMID_CHILD tt demo C1_pidl C2_pidl host1 path1
                demo_ok demo_holds_host1 demo_holds_path1
                (demo_room 16 ltac:(lia)))
    as (_ & _ & _ & Hrun & Hlen & _).
  split; [exact Hrun | exact Hlen].
Defined.

Lemma clone_copies_size_bytes_witness :
  raw_pidl.clone newdelete_alloc ITEMID_CHILD C1_pidl demo
  = (Ret (Ptr (fresh_block demo) 0),
     with_block demo (fresh_block demo) free_store (idlist_bytes host1)).
Proof.
  pose proof (clone_copies_size_bytes newdelete_alloc free_store ITEMID_CHILD
                demo C1_pidl (idlist_bytes host1) demo_ok
                ltac:(discriminate) demo_host1_bytes)
    as (_ & _ & _ & _ & Hroom & _).
  exact (proj1 (Hroom (demo_room 9 ltac:(lia)))).
Defined.

Lemma combine_identities_witness :
  raw_pidl.combine cotaskmem_alloc ITEMID_CHILD ITEMIDLIST_RELATIVE
    C1_pidl empty_pidl tt demo
  = raw_pidl.clone cotaskmem_alloc ITEMID_CHILD C1_pidl demo /\
  raw_pidl.combine cotaskmem_alloc ITEMIDLIST_RELATIVE ITEMID_CHILD
    empty_pidl C1_pidl tt demo
  = raw_pidl.clone cotaskmem_alloc ITEMID_CHILD C1_pidl demo.
Proof.
  destruct (combine_identities cotaskmem_alloc com_task_memory
              ITEMID_CHILD ITEMIDLIST_RELATIVE tt tt demo C1_pidl empty_pidl
              (idlist_bytes host1)) as (_ & H1 & H2 & _).
  - exact demo_ok.
  - exact demo_host1_bytes.
  - right. split; [discriminate | exact demo_empty_bytes].
  - split; [exact H1 | exact H2].
Defined.

Lemma swap_exchanges_pointers_witness :
  basic_pidl.swap ITEMID_CHILD cotaskmem_alloc 1 1%positive 2%positive demo
  = (Ret tt,
     set_objs (<[1%positive := C2_pidl]> (<[2%positive := C1_pidl]> (objs demo)))
       demo).
Proof.
  pose proof (swap_exchanges_pointers ITEMID_CHILD ITEMIDLIST_RELATIVE 0 0
                1%positive 2%positive demo C1_pidl C2_pidl
                ltac:(reflexivity) ltac:(reflexivity))
    as (_ & _ & _ & _ & _ & Hswap & _).
  exact Hswap.
Defined.

Lemma demo_owned_C1 : owned com_task_memory demo C1_pidl.
Proof. split; [reflexivity|]. eexists. reflexivity. Qed.

(** [wrapper1 = wrapper2]: wrapper 1 ends up with a fresh copy of
    ["path1"]. *)
Lemma assignment_copies_then_swaps_witness :
  basic_pidl.assign ITEMID_CHILD cotaskmem_alloc 1 1%positive 2%positive demo
  = (Ret 1%positive,
     set_objs (<[1%positive := Ptr (fresh_block demo) 0]> (objs demo))
       (released C1_pidl
          (with_block demo (fresh_block demo) com_task_memory
             (idlist_bytes path1)))).
Proof.
  destruct (assignment_copies_then_swaps cotaskmem_alloc com_task_memory
              ITEMID_CHILD 0 1%positive 2%positive demo C1_pidl C2_pidl
              (idlist_bytes path1)) as (_ & _ & _ & Hroom).
  - reflexivity.
  - exact demo_ok.
  - reflexivity.
  - exact demo_owned_C1.
  - reflexivity.
  - discriminate.
  - exact demo_path1_bytes.
  - exact (proj1 (Hroom (demo_room 9 ltac:(lia)))).
Defined.

Lemma demo_combine :
  raw_pidl.combine cotaskmem_alloc ITEMID_CHILD ITEMID_CHILD C1_pidl C2_pidl
    tt demo
  = (Ret (Ptr 4%positive 0),
     with_block demo 4%positive com_task_memory
       (idlist_bytes (host1 ++ path1))).
Proof. vm_compute. reflexivity. Qed.

Lemma combine_never_aliases_witness :
  Ptr 4%positive 0 <> C1_pidl /\ Ptr 4%positive 0 <> C2_pidl /\
  forall b', is_Some (heap demo !! b') ->
    heap (with_block demo 4%positive com_task_memory
            (idlist_bytes (host1 ++ path1))) !! b'
    = heap demo !! b'.
Proof.
  pose proof (combine_never_aliases cotaskmem_alloc com_task_memory
                ITEMID_CHILD ITEMID_CHILD tt demo C1_pidl C2_pidl
                1%positive 2%positive _ _ demo_ok ltac:(reflexivity)
                ltac:(reflexivity) demo_combine ltac:(discriminate))
    as (_ & H1 & H2 & _ & H3 & _).
  split; [exact H1|]. split; [exact H2 | exact H3].
Defined.

Lemma StorageMedium_assign_returns_nothing_witness :
  StorageMedium.assign Z 1%positive 2%positive
    (<[2%positive := 7]> {[1%positive := 5]})
  = Some (StorageMedium.falls_off_the_end loc,
          <[2%positive := 5]>
            (<[1%positive := 7]> (<[2%positive := 7]> {[1%positive := 5]}))).
Proof.
  exact (proj1 (StorageMedium_assign_returns_nothing Z 1%positive 2%positive
                  (<[2%positive := 7]> {[1%positive := 5]}) 5 7
                  ltac:(discriminate) ltac:(reflexivity) ltac:(reflexivity))).
Defined.

(** [operator+] on the two wrappers returns a new wrapper, whether the
    local is returned in place or copied out. *)
Example join_demo_elided :
  fst (join cotaskmem_alloc ITEMID_CHILD ITEMID_CHILD 1%positive 2%positive tt
         demo)
  = Ret 3%positive.
Proof. vm_compute. reflexivity. Qed.

Example join_demo_copied :
  fst (join (H := Win32_debug) cotaskmem_alloc ITEMID_CHILD ITEMID_CHILD
         1%positive 2%positive tt demo)
  = Ret 4%positive.
Proof. vm_compute. reflexivity. Qed.

(** ** Where the specification and the code part *)

(** C2 as stated fails for a null [L] and an empty list [X]:
    [combine(null, X)] returns a fresh copy of the empty list, while
    [clone(null)] is the null pointer. *)
Lemma combine_null_with_empty_is_not_clone_null :
  ~ byte_equivalent
      (raw_pidl.combine cotaskmem_alloc ITEMIDLIST_RELATIVE
         ITEMIDLIST_RELATIVE NULL empty_pidl tt demo)
      (raw_pidl.clone cotaskmem_alloc ITEMIDLIST_RELATIVE NULL demo).
Proof.
  intros (p1 & s1 & p2 & s2 & bs & E1 & E2 & B1 & B2).
  change (raw_pidl.clone cotaskmem_alloc ITEMIDLIST_RELATIVE NULL demo)
    with (Ret NULL, demo) in E2.
  injection E2 as <- <-. simpl in B2. subst bs.
  assert (Hc : raw_pidl.combine cotaskmem_alloc ITEMIDLIST_RELATIVE
                 ITEMIDLIST_RELATIVE NULL empty_pidl tt demo
               = (Ret (Ptr 4%positive 0),
                  with_block demo 4%positive com_task_memory terminator))
    by (vm_compute; reflexivity).
  rewrite Hc in E1. injection E1 as <- <-.
  destruct B1 as (cbs & W & R).
  destruct (walk_bounds _ _ _ W _ _ eq_refl) as (_ & _ & _ & _ & _ & _ & Hpos & _).
  pose proof (sum_cb_nonneg _ Hpos).
  apply read_bytes_Some in R as (_ & _ & _ & _ & _ & _ & _ & Hlen).
  unfold sizeof_cb in Hlen. simpl length in Hlen. lia.
Qed.

(** C4 as stated fails for an Absolute left operand, whose combination
    with a Child is Absolute, and for two Child operands, whose combination
    is Relative. *)
Lemma absolute_left_operand_gives_absolute :
  raw_pidl.combine_return_type ITEMIDLIST_ABSOLUTE ITEMID_CHILD tt
  <> ITEMIDLIST_RELATIVE /\
  raw_pidl.combine_return_type ITEMID_CHILD ITEMID_CHILD tt <> ITEMID_CHILD.
Proof. split; discriminate. Qed.

(** ** The rest of the interface, run *)

Lemma demo_null_ok : heap_ok demo_null.
Proof. apply heap_ok_small. vm_compute. reflexivity. Qed.

Lemma tight_ok : heap_ok tight.
Proof. apply heap_ok_small. vm_compute. reflexivity. Qed.

Lemma demo_owned_C2 : owned com_task_memory demo C2_pidl.
Proof. split; [reflexivity|]. eexists. reflexivity. Qed.

Lemma demo_room_for c n : 0 <= c * n <= 4096 -> 0 <= n <= 4096 ->
  has_room_for demo c n.
Proof.
  intros Hc Hn. split; [simpl; lia|]. pose proof PTRDIFF_MAX_big. lia.
Qed.

(** [next] on ["host1"] steps over its 7 bytes. *)
Lemma next_steps_to_the_rest_witness :
  raw_pidl.next C1_pidl demo = (Ret (Ptr 1%positive 7), demo).
Proof.
  destruct (next_steps_to_the_rest demo C1_pidl [x68; x6f; x73; x74; x31] [])
    as (Hnext & _).
  - exact demo_holds_host1.
  - exact Hnext.
Defined.

Lemma size_needs_a_terminator_witness :
  raw_pidl.size (Ptr 1%positive 0) unterminated = (Undef, unterminated).
Proof.
  destruct (size_needs_a_terminator cotaskmem_alloc ITEMID_CHILD unterminated
              1%positive com_task_memory host1) as (Hsize & _).
  - reflexivity.
  - repeat constructor.
  - exact Hsize.
Defined.

Lemma allocate_returns_a_block_or_throws_witness :
  allocate cotaskmem_alloc ITEMID_CHILD 16 demo
  = (Ret (Ptr (fresh_block demo) 0),
     with_block demo (fresh_block demo) com_task_memory
       (replicate 16 uninitialised)) /\
  allocate cotaskmem_alloc ITEMID_CHILD 21 tight = (Throw, tight).
Proof.
  split.
  - destruct (allocate_returns_a_block_or_throws ITEMID_CHILD 16 demo)
      as (_ & Hroom & _).
    + lia.
    + destruct Hroom as (_ & _ & Hco).
      * apply demo_room. lia.
      * exact Hco.
  - destruct (allocate_returns_a_block_or_throws ITEMID_CHILD 21 tight)
      as (_ & _ & Hnone).
    + lia.
    + destruct Hnone as (_ & _ & Hco).
      * intros [Ha _]. simpl in Ha. lia.
      * exact Hco.
Defined.

Lemma deallocate_undoes_allocate_witness :
  (mem <- allocate newdelete_alloc ITEMID_CHILD 16 ;;
   deallocate newdelete_alloc ITEMID_CHILD mem) demo = (Ret tt, demo).
Proof.
  destruct (deallocate_undoes_allocate newdelete_alloc free_store
              ITEMID_CHILD 16 demo) as (Hround & _).
  - lia.
  - apply demo_room. lia.
  - exact Hround.
Defined.

Lemma default_wrapper_is_null_witness :
  basic_pidl.with_local ITEMID_CHILD cotaskmem_alloc basic_pidl.ctor
    (fun _ => ret tt) demo
  = (Ret tt, demo).
Proof.
  destruct (default_wrapper_is_null cotaskmem_alloc com_task_memory
              ITEMID_CHILD demo) as (_ & _ & _ & _ & _ & _ & _ & Hscope).
  exact Hscope.
Defined.

(** Wrapper 1 holds the 9 bytes of ["host1"]: not null, not empty. *)
Lemma wrapper_queries_agree_witness :
  basic_pidl.size 1%positive demo = (Ret 9, demo) /\
  basic_pidl.operator_not 1%positive demo = (Ret false, demo) /\
  basic_pidl.empty 1%positive demo = (Ret false, demo).
Proof.
  destruct (wrapper_queries_agree 1%positive demo C1_pidl (idlist_bytes host1))
    as (_ & Hsize & Hnot & Hempty).
  - exact demo_ok.
  - reflexivity.
  - exact demo_host1_bytes.
  - split; [exact Hsize|]. split; [exact Hnot | exact Hempty].
Defined.

Lemma copy_construction_is_deep_witness :
  basic_pidl.ctor_copy ITEMID_CHILD cotaskmem_alloc 1%positive demo
  = (Ret (fresh_loc demo),
     set_objs (<[fresh_loc demo := Ptr (fresh_block demo) 0]> (objs demo))
       (with_block demo (fresh_block demo) com_task_memory
          (idlist_bytes host1))).
Proof.
  destruct (copy_construction_is_deep cotaskmem_alloc com_task_memory
              ITEMID_CHILD 1%positive demo C1_pidl host1) as (Hroom & _).
  - exact demo_ok.
  - reflexivity.
  - exact demo_owned_C1.
  - exact demo_holds_host1.
  - destruct Hroom as (Hcopy & _).
    + apply demo_room. simpl. lia.
    + exact Hcopy.
Defined.

Lemma out_releases_and_nulls_witness :
  basic_pidl.out ITEMID_CHILD cotaskmem_alloc 1%positive demo
  = (Ret 1%positive,
     set_objs (<[1%positive := NULL]> (objs demo)) (released C1_pidl demo)).
Proof.
  destruct (out_releases_and_nulls cotaskmem_alloc com_task_memory
              ITEMID_CHILD 1%positive demo C1_pidl) as (Hout & _).
  - reflexivity.
  - exact demo_owned_C1.
  - exact Hout.
Defined.

(** Wrapper 1 adopts the block of the empty list. *)
Lemma attach_adopts_without_copying_witness :
  basic_pidl.attach ITEMID_CHILD cotaskmem_alloc 1%positive empty_pidl demo
  = (Ret 1%positive,
     set_objs (<[1%positive := empty_pidl]> (objs demo))
       (released C1_pidl demo)).
Proof.
  destruct (attach_adopts_without_copying cotaskmem_alloc com_task_memory
              ITEMID_CHILD 1%positive demo C1_pidl empty_pidl)
    as (Hattach & _).
  - reflexivity.
  - exact demo_owned_C1.
  - discriminate.
  - exact Hattach.
Defined.

(** In a release build wrapper 1 is left with the address of the block it
    has just released. *)
Lemma attach_of_own_pointer_witness :
  basic_pidl.attach ITEMID_CHILD cotaskmem_alloc 1%positive C1_pidl demo
  = (Ret 1%positive, released C1_pidl demo) /\
  heap (released C1_pidl demo) !! 1%positive = None.
Proof.
  destruct (attach_of_own_pointer cotaskmem_alloc com_task_memory
              ITEMID_CHILD 1%positive demo 1%positive (idlist_bytes host1))
    as (_ & Hrelease).
  - reflexivity.
  - reflexivity.
  - destruct Hrelease as (Hattach & _ & Hgone & _).
    + reflexivity.
    + split; [exact Hattach | exact Hgone].
Defined.

(** A wrapper over [newdelete_alloc] adopts a block of the COM task
    allocator; its destructor is undefined. *)
Lemma attach_does_not_check_the_pool_witness :
  basic_pidl.dtor ITEMID_CHILD newdelete_alloc 3%positive
    (set_objs (<[3%positive := C1_pidl]> (objs demo_null)) demo_null)
  = (Undef, set_objs (<[3%positive := C1_pidl]> (objs demo_null)) demo_null).
Proof.
  destruct (attach_does_not_check_the_pool newdelete_alloc free_store
              ITEMID_CHILD 3%positive demo_null 1%positive com_task_memory
              (idlist_bytes host1) NULL) as (_ & Hdtor & _).
  - reflexivity.
  - reflexivity.
  - discriminate.
  - discriminate.
  - exact Hdtor.
Defined.

Lemma join_appends_the_right_list_witness :
  exists w b sj,
    join cotaskmem_alloc ITEMID_CHILD ITEMID_CHILD 1%positive 2%positive tt demo
    = (Ret w, sj) /\
    holds (heap sj) (Ptr b 0) (host1 ++ path1) /\
    avail sj = avail demo - 16.
Proof.
  destruct (join_appends_the_right_list cotaskmem_alloc com_task_memory
              ITEMID_CHILD ITEMID_CHILD tt demo 1%positive 2%positive
              C1_pidl C2_pidl host1 path1) as (Hroom & _).
  - exact demo_ok.
  - reflexivity.
  - reflexivity.
  - exact demo_holds_host1.
  - exact demo_holds_path1.
  - destruct Hroom as (w & b & sj & E & _ & _ & _ & Hh & _ & Ha & _).
    + apply demo_room_for; simpl; lia.
    + exists w, b, sj. split; [exact E|]. split; [exact Hh | exact Ha].
Defined.

(** The sum of the null wrapper with itself, in a release build. *)
Lemma join_of_two_null_wrappers_witness :
  exists w,
    join cotaskmem_alloc ITEMID_CHILD ITEMID_CHILD 3%positive 3%positive tt
      demo_null
    = (Ret w, set_objs (<[w := NULL]> (objs demo_null)) demo_null).
Proof.
  destruct (join_of_two_null_wrappers cotaskmem_alloc com_task_memory
              ITEMID_CHILD ITEMID_CHILD tt demo_null 3%positive 3%positive)
    as (_ & Hrelease).
  - reflexivity.
  - reflexivity.
  - destruct Hrelease as (w & _ & E).
    + reflexivity.
    + exists w. exact E.
Defined.

Lemma combine_is_associative_witness :
  exists abc1 s1 abc2 s2,
    holds (heap s1) abc1 (host1 ++ path1 ++ host1) /\
    holds (heap s2) abc2 (host1 ++ path1 ++ host1).
Proof.
  destruct (combine_is_associative cotaskmem_alloc com_task_memory
              ITEMID_CHILD ITEMID_CHILD ITEMID_CHILD tt tt tt demo
              C1_pidl C2_pidl C1_pidl host1 path1 host1)
    as (_ & abc1 & s1 & abc2 & s2 & _ & _ & H1 & H2 & _).
  - exact demo_ok.
  - exact demo_holds_host1.
  - exact demo_holds_path1.
  - exact demo_holds_host1.
  - apply demo_room_for; simpl; lia.
  - exists abc1, s1, abc2, s2. split; [exact H1 | exact H2].
Defined.

(** [wrapper1 += wrapper2] for a wrapper over a relative list. *)
Lemma join_assign_appends_in_place_witness :
  exists b' s',
    join_assign cotaskmem_alloc ITEMIDLIST_RELATIVE ITEMID_CHILD 1
      1%positive 2%positive tt eq_refl demo
    = (Ret 1%positive, s') /\
    holds (heap s') (Ptr b' 0) (host1 ++ path1).
Proof.
  destruct (join_assign_appends_in_place cotaskmem_alloc com_task_memory
              ITEMIDLIST_RELATIVE ITEMID_CHILD 0 1%positive 2%positive tt
              eq_refl demo C1_pidl C2_pidl host1 path1)
    as (_ & b' & s' & E & _ & _ & Hh & _).
  - reflexivity.
  - exact demo_ok.
  - reflexivity.
  - reflexivity.
  - exact demo_owned_C1.
  - exact demo_holds_host1.
  - exact demo_holds_path1.
  - apply demo_room_for; simpl; lia.
  - exists b', s'. split; [exact E | exact Hh].
Defined.

(** With 20 bytes left the 16 bytes of the sum fit, twice 16 do not. *)
Lemma join_assign_needs_room_for_two_copies_witness :
  join_assign cotaskmem_alloc ITEMIDLIST_RELATIVE ITEMID_CHILD 1
    1%positive 2%positive tt eq_refl tight
  = (Throw, tight) /\
  exists w sj,
    join cotaskmem_alloc ITEMIDLIST_RELATIVE ITEMID_CHILD 1%positive
      2%positive tt tight
    = (Ret w, sj).
Proof.
  destruct (join_assign_needs_room_for_two_copies cotaskmem_alloc
              com_task_memory ITEMIDLIST_RELATIVE ITEMID_CHILD 0 1%positive
              2%positive tt eq_refl tight C1_pidl C2_pidl host1 path1)
    as (Hthrow & Hjoin).
  - reflexivity.
  - exact tight_ok.
  - reflexivity.
  - reflexivity.
  - exact demo_owned_C1.
  - exact demo_holds_host1.
  - exact demo_holds_path1.
  - intros [Ha _]. simpl in Ha. lia.
  - split; [exact Hthrow|]. apply Hjoin; [reflexivity|].
    split; [simpl; lia|]. pose proof PTRDIFF_MAX_big. simpl. lia.
Defined.

Lemma self_assignment_is_safe_witness :
  basic_pidl.assign ITEMID_CHILD cotaskmem_alloc 1 1%positive 1%positive demo
  = (Ret 1%positive,
     set_objs (<[1%positive := Ptr (fresh_block demo) 0]> (objs demo))
       (released C1_pidl
          (with_block demo (fresh_block demo) com_task_memory
             (idlist_bytes host1)))).
Proof.
  destruct (self_assignment_is_safe cotaskmem_alloc com_task_memory
              ITEMID_CHILD 0 1%positive demo C1_pidl host1) as (Hroom & _).
  - reflexivity.
  - exact demo_ok.
  - reflexivity.
  - exact demo_owned_C1.
  - exact demo_holds_host1.
  - destruct Hroom as (Hassign & _).
    + apply demo_room. simpl. lia.
    + exact Hassign.
Defined.

(** [wrapper1 = wrapper3], where wrapper 3 is null. *)
Lemma assigning_null_releases_witness :
  basic_pidl.assign ITEMID_CHILD cotaskmem_alloc 1 1%positive 3%positive
    demo_null
  = (Ret 1%positive,
     set_objs (<[1%positive := NULL]> (objs demo_null))
       (released C1_pidl demo_null)).
Proof.
  destruct (assigning_null_releases cotaskmem_alloc com_task_memory
              ITEMID_CHILD 0 1%positive 3%positive demo_null C1_pidl)
    as (_ & Hassign & _).
  - reflexivity.
  - reflexivity.
  - exact demo_owned_C1.
  - reflexivity.
  - exact Hassign.
Defined.

Lemma free_swap_is_symmetric_witness :
  swap ITEMID_CHILD 1 1%positive 2%positive demo
  = swap ITEMID_CHILD 1 2%positive 1%positive demo.
Proof.
  destruct (free_swap_is_symmetric ITEMID_CHILD 0 0 1%positive 2%positive
              demo C1_pidl C2_pidl) as (_ & _ & Hsym & _).
  - reflexivity.
  - reflexivity.
  - exact Hsym.
Defined.

(** A wrapper over the free store built from the rest of ["host1"],
    which lives in a block of the COM task allocator: the empty list. *)
Lemma wrapper_from_the_rest_of_a_list_witness :
  (rest <- raw_pidl.next C1_pidl ;;
   basic_pidl.ctor_raw ITEMID_CHILD newdelete_alloc rest) demo
  = (Ret (fresh_loc demo),
     with_wrapper free_store demo (fresh_loc demo) (fresh_block demo)
       terminator).
Proof.
  destruct (wrapper_from_the_rest_of_a_list newdelete_alloc free_store
              ITEMID_CHILD demo C1_pidl [x68; x6f; x73; x74; x31] [])
    as (Hrun & _).
  - exact demo_ok.
  - exact demo_holds_host1.
  - apply demo_room. simpl. lia.
  - exact Hrun.
Defined.

(** In a debug build, [out] on a medium of type 7 and [get] on an empty
    one. *)
Lemma StorageMedium_assertions_never_fail_witness :
  StorageMedium.out (H := Win32_debug) Z id 9%positive 1%positive {[1%positive := 7]}
  = Ret 1%positive /\
  StorageMedium.get (H := Win32_debug) Z id 9%positive 1%positive {[1%positive := 0]}
  = Ret 1%positive.
Proof.
  split.
  - destruct (StorageMedium_assertions_never_fail (H := Win32_debug) Z id
                9%positive 1%positive {[1%positive := 7]} 7) as (Hout & _).
    + reflexivity.
    + exact Hout.
  - destruct (StorageMedium_assertions_never_fail (H := Win32_debug) Z id
                9%positive 1%positive {[1%positive := 0]} 0) as (_ & Hget & _).
    + reflexivity.
    + exact Hget.
Defined.

Lemma exhausted_ok : heap_ok exhausted.
Proof. apply heap_ok_small. vm_compute. reflexivity. Qed.

(** With no memory left, [out()] on wrapper 1 returns and a copy throws. *)
Lemma only_allocation_throws_witness :
  basic_pidl.out ITEMID_CHILD cotaskmem_alloc 1%positive exhausted
  = (Ret 1%positive,
     set_objs (<[1%positive := NULL]> (objs exhausted))
       (released C1_pidl exhausted)) /\
  basic_pidl.ctor_copy ITEMID_CHILD cotaskmem_alloc 1%positive exhausted
  = (Throw, exhausted).
Proof.
  destruct (only_allocation_throws cotaskmem_alloc com_task_memory
              ITEMID_CHILD 1%positive exhausted C1_pidl NULL
              (idlist_bytes host1))
    as (_ & Hout & _ & _ & _ & _ & _ & _ & _ & Hcopy).
  - exact exhausted_ok.
  - reflexivity.
  - exact demo_owned_C1.
  - exact demo_host1_bytes.
  - discriminate.
  - split; [exact Hout|]. apply Hcopy; [discriminate|].
    intros [Ha _]. simpl in Ha. lia.
Defined.

End Examples.
